(** * ai-service: the analytics package, embedded and verified

    A shallow embedding of [analytics/service.go]: the per-path aggregation
    loops of [AnalyzeLogs] and [AnalyzePerformance] and the prompts they
    build, [cleanJSONResponse], [callGeminiAPI] and [ConvertToCSV], together
    with the parts of the Go standard library those functions call
    ([strings], [strconv], [fmt], [bufio], [encoding/csv], [unicode/utf8],
    [float64] arithmetic). The remote endpoint, the JSON decoder and the
    order in which [range] visits a map are parameters of the service.

    Conventions.
    - A Go [string] is an immutable byte sequence: [list ascii].
    - [int64] and [int] (64 bits wide on the platforms the service is built
      for) are [Z] with the two's-complement wrap-around written out.
    - A Go [map] is a [gmap]; the order in which [range] visits it is left
      open (any enumeration of the map).
    - [float64] is IEEE 754 binary64, through the Standard Library's
      [SpecFloat] at precision 53. *)

From Stdlib Require Import ZArith Ascii String List Lia DecimalString DecimalZ.
From Stdlib Require Import SpecFloat.
From stdpp Require Import gmap strings list fin_maps.

Open Scope Z_scope.

(** ** Go strings *)

Abbreviation gostring := (list ascii).

(** A string literal. *)
Definition str (s : string) : gostring := list_ascii_of_string s.

Definition nl : ascii := ascii_of_nat 10.
Definition cr : ascii := ascii_of_nat 13.
Definition dquote : ascii := ascii_of_nat 34.
Definition backtick : ascii := ascii_of_nat 96.
Definition lbrace : ascii := ascii_of_nat 123.
Definition rbrace : ascii := ascii_of_nat 125.
Definition comma : ascii := ascii_of_nat 44.

(** ** Machine integers *)

Module GoInt.

Definition MinInt64 : Z := - 2 ^ 63.
Definition MaxInt64 : Z := 2 ^ 63 - 1.

Definition in_int64 (z : Z) : Prop := MinInt64 <= z <= MaxInt64.

(** The value an [int64] holds after an operation whose exact result is
    [z]. *)
Definition wrap64 (z : Z) : Z := (z + 2 ^ 63) mod 2 ^ 64 - 2 ^ 63.

(** [a / b] on [int64]: truncation toward zero, a run-time panic when
    [b] is zero. *)
Definition div64 (a b : Z) : option Z :=
  if b =? 0 then None else Some (wrap64 (Z.quot a b)).

End GoInt.
Import GoInt.

(** ** The data model *)

Record LogEntry := {
  Timestamp : gostring;
  Level : gostring;
  Message : gostring;
  Path : gostring;
  Method : gostring;
  Duration : Z;
  Status : Z;
  Metadata : gmap gostring gostring
}.

(** What the field types guarantee of a decoded entry. *)
Definition wf_entry (e : LogEntry) : Prop :=
  in_int64 (Duration e) /\ in_int64 (Status e).

(** A slice's length is an [int]. *)
Definition wf_logs (logs : list LogEntry) : Prop :=
  Z.of_nat (List.length logs) <= MaxInt64 /\ Forall wf_entry logs.

(** ** strconv *)

Module Strconv.

(** [strconv.FormatInt(i, 10)]: an optional minus sign and the decimal
    digits, no padding and no separators. *)
Definition FormatInt (i : Z) : gostring :=
  str (NilZero.string_of_int (Z.to_int i)).

(** [strconv.Itoa(i)] is [FormatInt(int64(i), 10)]. *)
Definition Itoa (i : Z) : gostring := FormatInt i.

End Strconv.

(** ** float64 *)

Module Float64.

Definition prec : Z := 53.
Definition emax : Z := 1024.

(** The conversion [float64(i)] of an integer: the nearest binary64 value,
    ties to even. *)
Definition of_int (i : Z) : spec_float := binary_normalize prec emax i 0 false.

Definition div (x y : spec_float) : spec_float := SFdiv prec emax x y.
Definition mul (x y : spec_float) : spec_float := SFmul prec emax x y.

(** The nearest integer to [num / den], ties to even ([0 <= num],
    [0 < den]). *)
Definition round_half_even (num den : Z) : Z :=
  let q := num / den in
  let r := num mod den in
  match 2 * r ?= den with
  | Lt => q
  | Gt => q + 1
  | Eq => if Z.even q then q else q + 1
  end.

(** The magnitude [m * 2 ^ e] in tenths, correctly rounded. *)
Definition tenths (m : positive) (e : Z) : Z :=
  if 0 <=? e then Z.pos m * 2 ^ e * 10
  else round_half_even (Z.pos m * 10) (2 ^ (- e)).

Definition sign (s : bool) : gostring := if s then str "-" else [].

(** The verb [%.1f]: the exact binary value rounded to one decimal digit. *)
Definition Format1 (f : spec_float) : gostring :=
  match f with
  | S754_nan => str "NaN"
  | S754_infinity s => if s then str "-Inf" else str "+Inf"
  | S754_zero s => sign s ++ str "0.0"
  | S754_finite s m e =>
      let t := tenths m e in
      sign s ++ Strconv.FormatInt (t / 10) ++ str "." ++ Strconv.FormatInt (t mod 10)
  end.

End Float64.

(** ** fmt *)

Module Fmt.

(** An operand of [Sprintf]. An [error] operand is carried as the text its
    [Error()] method returns. *)
Inductive arg :=
| S (s : gostring)
| D (i : Z)
| F (f : spec_float)
| E (msg : gostring).

(** What a verb prints for its operand. A verb applied to an operand of
    another kind prints Go's [%!verb(type=value)] diagnostic, kept here as
    [%!verb(BAD)]: no format string of the package reaches it. *)
Definition bad (verb : ascii) : gostring := str "%!" ++ [verb] ++ str "(BAD)".
Definition missing (verb : ascii) : gostring :=
  str "%!" ++ [verb] ++ str "(MISSING)".

Definition verb_s (a : option arg) : gostring :=
  match a with
  | Some (S s) => s
  | Some (E msg) => msg
  | Some _ => bad "s"
  | None => missing "s"
  end.
Definition verb_d (a : option arg) : gostring :=
  match a with
  | Some (D i) => Strconv.FormatInt i
  | Some _ => bad "d"
  | None => missing "d"
  end.
Definition verb_v (a : option arg) : gostring :=
  match a with
  | Some (S s) => s
  | Some (E msg) => msg
  | Some (D i) => Strconv.FormatInt i
  | Some (F _) => bad "v"
  | None => missing "v"
  end.
Definition verb_1f (a : option arg) : gostring :=
  match a with
  | Some (F f) => Float64.Format1 f
  | Some _ => bad "f"
  | None => missing "f"
  end.

(** [fmt.Sprintf] for the verbs the package uses: [%s], [%d], [%v],
    [%.1f] and [%%]. Operands left over at the end of the format are
    dropped. *)
Fixpoint Sprintf (format : gostring) (args : list arg) : gostring :=
  match format with
  | [] => []
  | c :: rest =>
      if negb (Ascii.eqb c "%") then c :: Sprintf rest args
      else
        match rest with
        | [] => str "%!(NOVERB)"
        | v :: rest1 =>
            if Ascii.eqb v "%" then v :: Sprintf rest1 args
            else if Ascii.eqb v "s" then
              verb_s (head args) ++ Sprintf rest1 (tail args)
            else if Ascii.eqb v "d" then
              verb_d (head args) ++ Sprintf rest1 (tail args)
            else if Ascii.eqb v "v" then
              verb_v (head args) ++ Sprintf rest1 (tail args)
            else
              match rest1 with
              | d :: f :: rest3 =>
                  if Ascii.eqb v "." && Ascii.eqb d "1" && Ascii.eqb f "f"
                  then verb_1f (head args) ++ Sprintf rest3 (tail args)
                  else bad v ++ Sprintf rest1 (tail args)
              | _ => bad v ++ Sprintf rest1 (tail args)
              end
        end
  end.

End Fmt.

(** ** The aggregation loop of AnalyzeLogs *)

Module Logs.

Record stats := {
  count : Z;
  totalTime : Z;
  errors : Z
}.

(** The zero value a map read yields for an absent key. *)
Definition zero : stats := {| count := 0; totalTime := 0; errors := 0 |}.

Definition set_count (v : Z) (s : stats) : stats :=
  {| count := v; totalTime := totalTime s; errors := errors s |}.
Definition set_total (v : Z) (s : stats) : stats :=
  {| count := count s; totalTime := v; errors := errors s |}.
Definition set_errors (v : Z) (s : stats) : stats :=
  {| count := count s; totalTime := totalTime s; errors := v |}.

Definition eventFormat : gostring :=
  str "- %s [%s] %s (Duration: %dms, Status: %d)" ++ [nl].

(** One iteration of [for _, log := range logs]: the map update, then the
    write to the summary builder. *)
Definition step (st : gmap gostring stats * gostring) (log : LogEntry)
  : gmap gostring stats * gostring :=
  let '(pathStats, summary) := st in
  let stats := default zero (pathStats !! Path log) in
  let stats := set_count (wrap64 (count stats + 1)) stats in
  let stats := set_total (wrap64 (totalTime stats + Duration log)) stats in
  let stats :=
    if Status log >=? 400
    then set_errors (wrap64 (errors stats + 1)) stats else stats in
  let pathStats := <[Path log := stats]> pathStats in
  let summary :=
    if (Status log >=? 400)
       || bool_decide (Level log = str "error")
       || bool_decide (Level log = str "warning")
       || (Duration log >? 1000)
    then summary ++ Fmt.Sprintf eventFormat
           [Fmt.S (Timestamp log); Fmt.S (Level log); Fmt.S (Path log);
            Fmt.D (Duration log); Fmt.D (Status log)]
    else summary in
  (pathStats, summary).

Definition header : gostring := str "Log Summary:" ++ [nl; nl].

Definition loop (logs : list LogEntry) : gmap gostring stats * gostring :=
  fold_left step logs (∅, header).

Definition aggregate (logs : list LogEntry) : gmap gostring stats :=
  fst (loop logs).

(** [errorRate := float64(stats.errors) / float64(stats.count) * 100]. *)
Definition errorRate (errors count : Z) : spec_float :=
  Float64.mul (Float64.div (Float64.of_int errors) (Float64.of_int count))
    (Float64.of_int 100).

Definition statFormat : gostring :=
  str "- %s: %d requests, avg time %dms, error rate %.1f%%" ++ [nl].

(** The body of [for path, stats := range pathStats]; [None] is the
    run-time panic of a division by zero. *)
Definition statLine (path : gostring) (stats : stats) : option gostring :=
  avgTime ← div64 (totalTime stats) (count stats);
  Some (Fmt.Sprintf statFormat
          [Fmt.S path; Fmt.D (count stats); Fmt.D avgTime;
           Fmt.F (errorRate (errors stats) (count stats))]).

(** [for path, stats := range pathStats], for the order [kvs] in which
    [range] enumerates the map. *)
Fixpoint statLines (kvs : list (gostring * stats)) : option gostring :=
  match kvs with
  | [] => Some []
  | (path, stats) :: kvs' =>
      line ← statLine path stats;
      rest ← statLines kvs';
      Some (line ++ rest)
  end.

End Logs.

(** ** The aggregation loop of AnalyzePerformance *)

Module Perf.

Record stats := {
  count : Z;
  totalTime : Z;
  maxTime : Z;
  minTime : Z;
  errors : Z
}.

Definition zero : stats :=
  {| count := 0; totalTime := 0; maxTime := 0; minTime := 0; errors := 0 |}.

Definition set_min (v : Z) (s : stats) : stats :=
  {| count := count s; totalTime := totalTime s; maxTime := maxTime s;
     minTime := v; errors := errors s |}.
Definition set_max (v : Z) (s : stats) : stats :=
  {| count := count s; totalTime := totalTime s; maxTime := v;
     minTime := minTime s; errors := errors s |}.
Definition set_count (v : Z) (s : stats) : stats :=
  {| count := v; totalTime := totalTime s; maxTime := maxTime s;
     minTime := minTime s; errors := errors s |}.
Definition set_total (v : Z) (s : stats) : stats :=
  {| count := count s; totalTime := v; maxTime := maxTime s;
     minTime := minTime s; errors := errors s |}.
Definition set_errors (v : Z) (s : stats) : stats :=
  {| count := count s; totalTime := totalTime s; maxTime := maxTime s;
     minTime := minTime s; errors := v |}.

(** One iteration of [for _, log := range logs]. *)
Definition step (pathStats : gmap gostring stats) (log : LogEntry)
  : gmap gostring stats :=
  let stats := default zero (pathStats !! Path log) in
  let stats :=
    if count stats =? 0 then
      set_max (Duration log) (set_min (Duration log) stats)
    else
      let stats :=
        if Duration log <? minTime stats
        then set_min (Duration log) stats else stats in
      if Duration log >? maxTime stats
      then set_max (Duration log) stats else stats in
  let stats := set_count (wrap64 (count stats + 1)) stats in
  let stats := set_total (wrap64 (totalTime stats + Duration log)) stats in
  let stats :=
    if Status log >=? 400
    then set_errors (wrap64 (errors stats + 1)) stats else stats in
  <[Path log := stats]> pathStats.

Definition aggregate (logs : list LogEntry) : gmap gostring stats :=
  fold_left step logs ∅.

(** [avgTime := stats.totalTime / int64(stats.count)]; [None] is the
    run-time panic of a division by zero. *)
Definition avgTime (s : stats) : option Z := div64 (totalTime s) (count s).

(** The six writes of [for path, stats := range pathStats]. *)
Definition statBlock (path : gostring) (stats : stats) : option gostring :=
  avg ← avgTime stats;
  let errorRate := Logs.errorRate (errors stats) (count stats) in
  Some (Fmt.Sprintf (str "Endpoint: %s" ++ [nl]) [Fmt.S path]
        ++ Fmt.Sprintf (str "- Requests: %d" ++ [nl]) [Fmt.D (count stats)]
        ++ Fmt.Sprintf (str "- Avg Time: %dms" ++ [nl]) [Fmt.D avg]
        ++ Fmt.Sprintf (str "- Min Time: %dms" ++ [nl]) [Fmt.D (minTime stats)]
        ++ Fmt.Sprintf (str "- Max Time: %dms" ++ [nl]) [Fmt.D (maxTime stats)]
        ++ Fmt.Sprintf (str "- Error Rate: %.1f%%" ++ [nl; nl]) [Fmt.F errorRate]).

Definition header : gostring := str "Performance Summary:" ++ [nl; nl].

Fixpoint statBlocks (kvs : list (gostring * stats)) : option gostring :=
  match kvs with
  | [] => Some []
  | (path, stats) :: kvs' =>
      block ← statBlock path stats;
      rest ← statBlocks kvs';
      Some (block ++ rest)
  end.

End Perf.

(** ** strings *)

Module Strings.

Fixpoint HasPrefix (s prefix : gostring) : bool :=
  match prefix, s with
  | [], _ => true
  | p :: prefix', c :: s' => Ascii.eqb c p && HasPrefix s' prefix'
  | _ :: _, [] => false
  end.

(** [ReplaceAll] scans left to right and replaces the occurrences of [old]
    that do not overlap an earlier one. [skip] counts the bytes of the
    occurrence just replaced that are still to be passed over. *)
Fixpoint replaceFrom (old new : gostring) (skip : nat) (s : gostring)
  : gostring :=
  match s with
  | [] => []
  | c :: s' =>
      match skip with
      | Datatypes.S k => replaceFrom old new k s'
      | O =>
          if HasPrefix s old
          then new ++ replaceFrom old new (Nat.pred (List.length old)) s'
          else c :: replaceFrom old new O s'
      end
  end.

(** [strings.ReplaceAll(s, old, new)] for a non-empty [old] (the three
    calls of the package pass a literal). *)
Definition ReplaceAll (s old new : gostring) : gostring :=
  replaceFrom old new O s.

(** [strings.Index]: the byte offset of the first occurrence, or -1. *)
Fixpoint Index (s substr : gostring) : Z :=
  if HasPrefix s substr then 0
  else
    match s with
    | [] => -1
    | _ :: s' => let i := Index s' substr in if i <? 0 then -1 else i + 1
    end.

(** [strings.LastIndex]: the byte offset of the last occurrence, or -1. *)
Fixpoint LastIndex (s substr : gostring) : Z :=
  match s with
  | [] => if HasPrefix [] substr then 0 else -1
  | _ :: s' =>
      let i := LastIndex s' substr in
      if 0 <=? i then i + 1
      else if HasPrefix s substr then 0 else -1
  end.

(** The slice expression [s[lo:hi]]. Go panics unless
    [0 <= lo <= hi <= len(s)]; [None] is that panic. *)
Definition slice (s : gostring) (lo hi : Z) : option gostring :=
  if (0 <=? lo) && (lo <=? hi) && (hi <=? Z.of_nat (List.length s))
  then Some (take (Z.to_nat (hi - lo)) (drop (Z.to_nat lo) s))
  else None.

End Strings.

(** ** cleanJSONResponse *)

(** [None] is the run-time panic of an out-of-range slice expression. *)
Definition cleanJSONResponse (response : gostring) : option gostring :=
  let response := Strings.ReplaceAll response (str "`") [] in
  let response := Strings.ReplaceAll response (str "```json") [] in
  let response := Strings.ReplaceAll response (str "```") [] in
  let start := Strings.Index response (str "{") in
  let end_ := Strings.LastIndex response (str "}") in
  if (start >=? 0) && (end_ >? start)
  then Strings.slice response start (end_ + 1)
  else Some response.

(** ** The service: callGeminiAPI, AnalyzeLogs, AnalyzePerformance *)

Record AnalyticsService := { apiKey : gostring }.

Definition NewAnalyticsService (apiKey : gostring) : AnalyticsService :=
  {| apiKey := apiKey |}.

(** A decoded JSON value, as [encoding/json] stores it in an
    [interface{}]; an object is the list of its members, one per key. *)
#[warnings="-register-all"]
Inductive json :=
| JNull
| JBool (b : bool)
| JNumber (f : spec_float)
| JString (s : gostring)
| JArray (items : list json)
| JObject (members : list (gostring * json)).

(** The map read [m[key]]: [None] is the nil interface of an absent key. *)
Fixpoint member (key : gostring) (m : list (gostring * json)) : option json :=
  match m with
  | [] => None
  | (k, v) :: m' => if bool_decide (k = key) then Some v else member key m'
  end.

Module PerformanceData.
Record t := {
  Path : gostring;
  AvgDuration : Z;
  RequestCount : Z;
  ErrorRate : spec_float
}.
End PerformanceData.

Module Issue.
Record t := {
  Type_ : gostring;
  Description : gostring;
  Severity : gostring;
  Path : json
}.
End Issue.

Record AnalysisResult := {
  PopularPages : list gostring;
  SlowPages : list PerformanceData.t;
  PotentialIssues : list Issue.t;
  Insights : list gostring
}.

Record PerformanceAnalysis := {
  SlowEndpoints : list PerformanceData.t;
  PerformancePatterns : list gostring;
  ResourceIssues : list Issue.t;
  Recommendations : list gostring
}.

(** What the HTTP round trip yields: [client.Do] fails, or a response
    arrives whose body is read ([inr]) or fails to be read ([inl]). *)
Inductive roundTrip :=
| DoError (err : gostring)
| Response (StatusCode : Z) (body : gostring + gostring).

(** A result pair [(value, error)], or the run-time panic that ends the
    call. *)
Inductive result (A : Type) :=
| Ok (a : A)
| Err (msg : gostring)
| Panics.
Arguments Ok {A} a.
Arguments Err {A} msg.
Arguments Panics {A}.

Definition StatusOK : Z := 200.

(** A raw string literal of the source, line by line, written with ['] for
    the double quote. *)
Definition raw (lines : list string) : gostring :=
  match lines with
  | [] => []
  | line :: lines' =>
      map (fun c => if Ascii.eqb c "'" then dquote else c)
        (str line ++ concat (map (fun l => nl :: str l) lines'))
  end.

Definition logsPromptFormat : gostring :=
  raw ["Analyze this log summary and provide insights. Return ONLY a JSON object with this exact structure (no markdown, no backticks):";
       "{";
       "    'popular_pages': ['page1', 'page2'],";
       "    'slow_pages': [{'path': '/example', 'avg_duration': 1000, 'request_count': 10, 'error_rate': 5.0}],";
       "    'potential_issues': [{'type': 'security', 'description': 'desc', 'severity': 'high', 'path': '/example'}],";
       "    'insights': ['insight1', 'insight2']";
       "}";
       "";
       "Log Summary:";
       "%s"]%string.

Definition perfPromptFormat : gostring :=
  raw ["Analyze this performance data and provide insights. Return ONLY a JSON object with this exact structure (no markdown, no backticks):";
       "{";
       "    'slow_endpoints': [{'path': '/example', 'avg_duration': 1000, 'request_count': 10, 'error_rate': 5.0}],";
       "    'performance_patterns': ['pattern1', 'pattern2'],";
       "    'resource_issues': [{'type': 'memory', 'description': 'High memory usage', 'severity': 'high'}],";
       "    'recommendations': ['recommendation1', 'recommendation2']";
       "}";
       "";
       "Performance Data:";
       "%s"]%string.

(** The prompt of AnalyzeLogs, for the order [kvs] in which [range]
    enumerates the statistics; [None] is the panic of a division by zero. *)
Definition logsPrompt (kvs : list (gostring * Logs.stats))
    (logs : list LogEntry) : option gostring :=
  let summary := snd (Logs.loop logs) in
  let summary := summary ++ ([nl] ++ str "Path Statistics:" ++ [nl]) in
  lines ← Logs.statLines kvs;
  let summary := summary ++ lines in
  Some (Fmt.Sprintf logsPromptFormat [Fmt.S summary]).

(** The prompt of AnalyzePerformance. *)
Definition perfPrompt (kvs : list (gostring * Perf.stats)) : option gostring :=
  let summary := Perf.header in
  blocks ← Perf.statBlocks kvs;
  let summary := summary ++ blocks in
  Some (Fmt.Sprintf perfPromptFormat [Fmt.S summary]).

Section Service.

(** The remote endpoint: what the round trip yields for the request made
    from the API key and the prompt. *)
Variable Do : gostring -> gostring -> roundTrip.

(** [json.Unmarshal(body, &result)] at type [map[string]interface{}]: a
    decoding error or the members of the decoded object. *)
Variable Unmarshal : gostring -> gostring + list (gostring * json).

(** [json.Unmarshal] at the two result types. *)
Variable UnmarshalAnalysis : gostring -> gostring + AnalysisResult.
Variable UnmarshalPerformance : gostring -> gostring + PerformanceAnalysis.

(** The order in which [range] visits a map. *)
Variable rangeLogs : gmap gostring Logs.stats -> list (gostring * Logs.stats).
Variable rangePerf : gmap gostring Perf.stats -> list (gostring * Perf.stats).

(** Lines 291-316: the walk down [candidates[0].content.parts[0].text]. *)
Definition extractText (body : gostring) : result gostring :=
  match Unmarshal body with
  | inl err => Err (Fmt.Sprintf (str "error parsing response: %v") [Fmt.E err])
  | inr result =>
      match member (str "candidates") result with
      | Some (JArray (candidate :: _)) =>
          match candidate with
          | JObject cand =>
              match member (str "content") cand with
              | Some (JObject content) =>
                  match member (str "parts") content with
                  | Some (JArray (part :: _)) =>
                      match part with
                      | JObject part0 =>
                          match member (str "text") part0 with
                          | Some (JString text) => Ok text
                          | _ =>
                              Err (Fmt.Sprintf
                                     (str "invalid text format in response: %s")
                                     [Fmt.S body])
                          end
                      | _ => Panics
                      end
                  | _ =>
                      Err (Fmt.Sprintf (str "no parts in response: %s")
                             [Fmt.S body])
                  end
              | _ =>
                  Err (Fmt.Sprintf (str "invalid response format: %s")
                         [Fmt.S body])
              end
          | _ => Panics
          end
      | _ =>
          Err (Fmt.Sprintf (str "no candidates in response: %s") [Fmt.S body])
      end
  end.

(** The request is built from literals, the key and the prompt, so
    marshalling it and creating the request succeed. *)
Definition callGeminiAPI (s : AnalyticsService) (prompt : gostring)
  : result gostring :=
  match Do (apiKey s) prompt with
  | DoError err =>
      Err (Fmt.Sprintf (str "error making request: %v") [Fmt.E err])
  | Response StatusCode (inl err) =>
      Err (Fmt.Sprintf (str "error reading response body: %v") [Fmt.E err])
  | Response StatusCode (inr body) =>
      if negb (StatusCode =? StatusOK)
      then Err (Fmt.Sprintf (str "API error (status %d): %s")
                  [Fmt.D StatusCode; Fmt.S body])
      else extractText body
  end.

Definition AnalyzeLogs (s : AnalyticsService) (logs : list LogEntry)
  : result AnalysisResult :=
  match logsPrompt (rangeLogs (Logs.aggregate logs)) logs with
  | None => Panics
  | Some prompt =>
      match callGeminiAPI s prompt with
      | Panics => Panics
      | Err err =>
          Err (Fmt.Sprintf (str "error generating analysis: %v") [Fmt.E err])
      | Ok response =>
          match cleanJSONResponse response with
          | None => Panics
          | Some cleanedResponse =>
              match UnmarshalAnalysis cleanedResponse with
              | inl err =>
                  Err (Fmt.Sprintf
                         (str "error parsing analysis result: %v, response: %s")
                         [Fmt.E err; Fmt.S cleanedResponse])
              | inr result => Ok result
              end
          end
      end
  end.

Definition AnalyzePerformance (s : AnalyticsService) (logs : list LogEntry)
  : result PerformanceAnalysis :=
  match perfPrompt (rangePerf (Perf.aggregate logs)) with
  | None => Panics
  | Some prompt =>
      match callGeminiAPI s prompt with
      | Panics => Panics
      | Err err =>
          Err (Fmt.Sprintf (str "error generating analysis: %v") [Fmt.E err])
      | Ok response =>
          match cleanJSONResponse response with
          | None => Panics
          | Some cleanedResponse =>
              match UnmarshalPerformance cleanedResponse with
              | inl err =>
                  Err (Fmt.Sprintf
                         (str "error parsing analysis result: %v, response: %s")
                         [Fmt.E err; Fmt.S cleanedResponse])
              | inr result => Ok result
              end
          end
      end
  end.

End Service.

(** ** io.Writer, bytes.Buffer and bufio.Writer *)

Module Io.

(** [Write(p)]: the writer afterwards and the error, if any. *)
Class Writer (W : Type) := Write : W -> gostring -> W * option gostring.

(** [bytes.Buffer] appends and reports no error. *)
Definition Buffer := gostring.
#[global] Instance Buffer_Writer : Writer Buffer := fun b p => (b ++ p, None).

End Io.

Module Bufio.
Import Io.

Section Writer.
Context {W : Type} `{Io.Writer W}.

(** [bufio.Writer]: the underlying writer, the bytes not yet passed on
    and the sticky error. *)
Record Writer := {
  wr : W;
  buf : gostring;
  err : option gostring
}.

Definition defaultBufSize : Z := 4096.

Definition NewWriter (w : W) : Writer := {| wr := w; buf := []; err := None |}.

Definition Available (b : Writer) : Z :=
  defaultBufSize - Z.of_nat (List.length (buf b)).

Definition Flush (b : Writer) : Writer * option gostring :=
  match err b with
  | Some e => (b, Some e)
  | None =>
      match buf b with
      | [] => (b, None)
      | _ =>
          let '(w, e) := Write (wr b) (buf b) in
          match e with
          | Some e => ({| wr := w; buf := buf b; err := Some e |}, Some e)
          | None => ({| wr := w; buf := []; err := None |}, None)
          end
      end
  end.

Definition WriteByte (c : ascii) (b : Writer) : Writer * option gostring :=
  match err b with
  | Some e => (b, Some e)
  | None =>
      let '(b, e) := if Available b <=? 0 then Flush b else (b, None) in
      match e with
      | Some e => (b, Some e)
      | None => ({| wr := wr b; buf := buf b ++ [c]; err := err b |}, None)
      end
  end.

(** [WriteString], at the granularity of bytes: the buffer is passed on
    whenever it is full, and the first error stops the write. *)
Fixpoint WriteString (s : gostring) (b : Writer) : Writer * option gostring :=
  match s with
  | [] => (b, err b)
  | c :: s' =>
      let '(b, e) := WriteByte c b in
      match e with
      | Some e => (b, Some e)
      | None => WriteString s' b
      end
  end.

End Writer.
Arguments Writer W : clear implicits.

End Bufio.

(** ** unicode/utf8 and unicode.IsSpace *)

Module Utf8.

Definition RuneError : Z := 65533.

Definition byte (c : ascii) : Z := Z.of_N (N_of_ascii c).

Definition between (lo hi : Z) (c : ascii) : bool :=
  (lo <=? byte c) && (byte c <=? hi).

(** The continuation byte's six payload bits. *)
Definition cont (c : ascii) : Z := Z.land (byte c) 63.

(** The range the second byte must lie in, by the first byte. *)
Definition second (b0 : Z) : Z * Z :=
  if b0 =? 224 then (160, 191)
  else if b0 =? 237 then (128, 159)
  else if b0 =? 240 then (144, 191)
  else if b0 =? 244 then (128, 143)
  else (128, 191).

(** [utf8.DecodeRuneInString]: the first rune of [s]; [RuneError] for an
    empty string or an invalid encoding. *)
Definition DecodeRuneInString (s : gostring) : Z :=
  match s with
  | [] => RuneError
  | c0 :: s1 =>
      let b0 := byte c0 in
      let '(lo, hi) := second b0 in
      if b0 <? 128 then b0
      else if (194 <=? b0) && (b0 <=? 223) then
        match s1 with
        | c1 :: _ =>
            if between lo hi c1
            then Z.lor (Z.shiftl (Z.land b0 31) 6) (cont c1)
            else RuneError
        | _ => RuneError
        end
      else if (224 <=? b0) && (b0 <=? 239) then
        match s1 with
        | c1 :: c2 :: _ =>
            if between lo hi c1 && between 128 191 c2
            then Z.lor (Z.shiftl (Z.land b0 15) 12)
                   (Z.lor (Z.shiftl (cont c1) 6) (cont c2))
            else RuneError
        | _ => RuneError
        end
      else if (240 <=? b0) && (b0 <=? 244) then
        match s1 with
        | c1 :: c2 :: c3 :: _ =>
            if between lo hi c1 && between 128 191 c2 && between 128 191 c3
            then Z.lor (Z.shiftl (Z.land b0 7) 18)
                   (Z.lor (Z.shiftl (cont c1) 12)
                      (Z.lor (Z.shiftl (cont c2) 6) (cont c3)))
            else RuneError
        | _ => RuneError
        end
      else RuneError
  end.

(** [unicode.IsSpace]: the Latin-1 spaces and the White_Space property. *)
Definition IsSpace (r : Z) : bool :=
  ((9 <=? r) && (r <=? 13)) || (r =? 32) || (r =? 133) || (r =? 160)
  || (r =? 5760) || ((8192 <=? r) && (r <=? 8202))
  || (r =? 8232) || (r =? 8233) || (r =? 8239) || (r =? 8287) || (r =? 12288).

End Utf8.

(** ** encoding/csv *)

Module Csv.
Import Io.

Definition errInvalidDelim : gostring :=
  str "csv: invalid field or comment delimiter".

Section Writer.
Context {W : Type} `{Io.Writer W}.

(** [csv.Writer] with a delimiter below [utf8.RuneSelf]. *)
Record Writer := {
  Comma : ascii;
  UseCRLF : bool;
  w : Bufio.Writer W
}.

(** [csv.NewWriter]. *)
Definition NewWriter (out : W) : Writer :=
  {| Comma := comma; UseCRLF := false; w := Bufio.NewWriter out |}.

Definition validDelim (r : ascii) : bool :=
  negb (Ascii.eqb r zero) && negb (Ascii.eqb r dquote)
  && negb (Ascii.eqb r cr) && negb (Ascii.eqb r nl)
  && (Utf8.byte r <? 128).

Definition special (delim c : ascii) : bool :=
  Ascii.eqb c nl || Ascii.eqb c cr || Ascii.eqb c dquote || Ascii.eqb c delim.

Definition fieldNeedsQuotes (delim : ascii) (field : gostring) : bool :=
  match field with
  | [] => false
  | _ =>
      if bool_decide (field = str "\.") then true
      else if existsb (special delim) field then true
      else Utf8.IsSpace (Utf8.DecodeRuneInString field)
  end.

(** A step on the buffered writer that stops at the first error. *)
Definition andThen
    (f g : Bufio.Writer W -> Bufio.Writer W * option gostring)
    (b : Bufio.Writer W) : Bufio.Writer W * option gostring :=
  let '(b, e) := f b in
  match e with
  | Some e => (b, Some e)
  | None => g b
  end.

Definition skip (b : Bufio.Writer W) : Bufio.Writer W * option gostring :=
  (b, None).

(** The inside of a quoted field, byte by byte. *)
Fixpoint writeQuoted (crlf : bool) (field : gostring)
  : Bufio.Writer W -> Bufio.Writer W * option gostring :=
  match field with
  | [] => skip
  | c :: field' =>
      andThen
        (if Ascii.eqb c dquote then Bufio.WriteString [dquote; dquote]
         else if Ascii.eqb c cr then
           (if crlf then skip else Bufio.WriteByte cr)
         else if Ascii.eqb c nl then
           (if crlf then Bufio.WriteString [cr; nl] else Bufio.WriteByte nl)
         else Bufio.WriteByte c)
        (writeQuoted crlf field')
  end.

Definition writeField (delim : ascii) (crlf : bool) (field : gostring)
  : Bufio.Writer W -> Bufio.Writer W * option gostring :=
  if negb (fieldNeedsQuotes delim field) then Bufio.WriteString field
  else
    andThen (Bufio.WriteByte dquote)
      (andThen (writeQuoted crlf field) (Bufio.WriteByte dquote)).

(** [for n, field := range record]. *)
Fixpoint writeFields (delim : ascii) (crlf : bool) (n : nat)
    (record : list gostring)
  : Bufio.Writer W -> Bufio.Writer W * option gostring :=
  match record with
  | [] => skip
  | field :: record' =>
      andThen
        (andThen (match n with O => skip | _ => Bufio.WriteByte delim end)
           (writeField delim crlf field))
        (writeFields delim crlf (Datatypes.S n) record')
  end.

Definition Write (cw : Writer) (record : list gostring)
  : Writer * option gostring :=
  if negb (validDelim (Comma cw)) then (cw, Some errInvalidDelim)
  else
    let '(b, e) :=
      andThen (writeFields (Comma cw) (UseCRLF cw) O record)
        (if UseCRLF cw then Bufio.WriteString [cr; nl]
         else Bufio.WriteByte nl)
        (w cw) in
    ({| Comma := Comma cw; UseCRLF := UseCRLF cw; w := b |}, e).

Definition Flush (cw : Writer) : Writer :=
  {| Comma := Comma cw; UseCRLF := UseCRLF cw; w := fst (Bufio.Flush (w cw)) |}.

(** [Error] reports the buffered writer's sticky error. *)
Definition Error (cw : Writer) : option gostring := Bufio.err (w cw).

End Writer.
Arguments Writer W : clear implicits.

End Csv.

(** ** ConvertToCSV *)

Definition csvHeader : list gostring :=
  [str "timestamp"; str "level"; str "message"; str "path"; str "method";
   str "duration"; str "status"].

Definition csvRow (log : LogEntry) : list gostring :=
  [Timestamp log; Level log; Message log; Path log; Method log;
   Strconv.FormatInt (Duration log); Strconv.Itoa (Status log)].

(** [for _, log := range logs], leaving at the first failed write. *)
Fixpoint writeRows (writer : Csv.Writer Io.Buffer) (logs : list LogEntry)
  : Csv.Writer Io.Buffer * option gostring :=
  match logs with
  | [] => (writer, None)
  | log :: logs' =>
      let '(writer, e) := Csv.Write writer (csvRow log) in
      match e with
      | Some e => (writer, Some e)
      | None => writeRows writer logs'
      end
  end.

(** The result pair [([]byte, error)]. [buffer.Bytes()] reads the buffer
    the writer has been writing to. *)
Definition ConvertToCSV (logs : list LogEntry)
  : option gostring * option gostring :=
  let buffer : Io.Buffer := [] in
  let writer := Csv.NewWriter buffer in
  let '(writer, e) := Csv.Write writer csvHeader in
  match e with
  | Some e =>
      (None, Some (Fmt.Sprintf (str "error writing CSV header: %v") [Fmt.E e]))
  | None =>
      let '(writer, e) := writeRows writer logs in
      match e with
      | Some e =>
          (None, Some (Fmt.Sprintf (str "error writing CSV row: %v") [Fmt.E e]))
      | None =>
          let writer := Csv.Flush writer in
          match Csv.Error writer with
          | Some e =>
              (None,
               Some (Fmt.Sprintf (str "error flushing CSV writer: %v") [Fmt.E e]))
          | None => (Some (Bufio.wr (Csv.w writer)), None)
          end
      end
  end.


(** ** Vocabulary of the statements *)

(** The entries of a batch that carry the path [p], in input order. *)
Definition on (p : gostring) (logs : list LogEntry) : list LogEntry :=
  filter (fun e => Path e = p) logs.

Definition failed (e : LogEntry) : Prop := 400 <= Status e.

Definition sumZ (l : list Z) : Z := foldr Z.add 0 l.

Definition total_duration (es : list LogEntry) : Z := sumZ (Duration <$> es).

(** The sum of the [count] fields over all the keys of a map. *)
Definition sum_counts {A} (count : A -> Z) (m : gmap gostring A) : Z :=
  map_fold (fun _ st acc => count st + acc) 0 m.

(** What the map of AnalyzeLogs holds for the path [p] after [logs]. *)
Definition logs_entry_ok (logs : list LogEntry) (p : gostring)
    (o : option Logs.stats) : Prop :=
  match o with
  | None => on p logs = []
  | Some st =>
      on p logs <> []
      /\ Logs.count st = Z.of_nat (List.length (on p logs))
      /\ Logs.totalTime st = wrap64 (total_duration (on p logs))
      /\ Logs.errors st = Z.of_nat (List.length (filter failed (on p logs)))
  end.

(** What the map of AnalyzePerformance holds for the path [p] after
    [logs]. *)
Definition perf_entry_ok (logs : list LogEntry) (p : gostring)
    (o : option Perf.stats) : Prop :=
  match o with
  | None => on p logs = []
  | Some st =>
      on p logs <> []
      /\ Perf.count st = Z.of_nat (List.length (on p logs))
      /\ Perf.totalTime st = wrap64 (total_duration (on p logs))
      /\ Perf.errors st = Z.of_nat (List.length (filter failed (on p logs)))
      /\ (forall e, e ∈ on p logs ->
            Perf.minTime st <= Duration e <= Perf.maxTime st)
      /\ (exists e, e ∈ on p logs /\ Duration e = Perf.minTime st)
      /\ (exists e, e ∈ on p logs /\ Duration e = Perf.maxTime st)
  end.

(** The text [cleanJSONResponse] searches for braces: the response after
    the three replacements. *)
Definition stripFences (response : gostring) : gostring :=
  Strings.ReplaceAll
    (Strings.ReplaceAll (Strings.ReplaceAll response (str "`") [])
       (str "```json") [])
    (str "```") [].

(** The first step of the normalizer in the words of the specification:
    every occurrence of the fence literals is removed from the response,
    and every backtick. The fences are looked for in the response itself,
    while their backticks are still there. *)
Definition removeFences (response : gostring) : gostring :=
  Strings.ReplaceAll
    (Strings.ReplaceAll (Strings.ReplaceAll response (str "```json") [])
       (str "```") [])
    (str "`") [].

(** A notable event, in the words of the specification. *)
Definition notable (e : LogEntry) : Prop :=
  400 <= Status e \/ Level e = str "error" \/ Level e = str "warning"
  \/ 1000 < Duration e.

(** The line of a notable event: timestamp, level, path, duration and
    status, in that order. *)
Definition eventLine (e : LogEntry) : gostring :=
  str "- " ++ Timestamp e ++ str " [" ++ Level e ++ str "] " ++ Path e
  ++ str " (Duration: " ++ Strconv.FormatInt (Duration e)
  ++ str "ms, Status: " ++ Strconv.FormatInt (Status e) ++ str ")" ++ [nl].

(** CSV quoting, in the words of the specification: inside a quoted field
    every quote is doubled and every other byte stands for itself. *)
Definition csv_escape (field : gostring) : gostring :=
  concat (map (fun c => if Ascii.eqb c dquote then [dquote; dquote] else [c])
            field).

Definition csv_field (field : gostring) : gostring :=
  if Csv.fieldNeedsQuotes comma field
  then [dquote] ++ csv_escape field ++ [dquote]
  else field.

(** A record: its fields separated by commas, then a newline. *)
Definition csv_line (record : list gostring) : gostring :=
  match record with
  | [] => []
  | field :: record' =>
      csv_field field ++ concat (map (fun f => comma :: csv_field f) record')
  end ++ [nl].

(** The bytes of a plain decimal integer: digits and the minus sign. *)
Definition decimal_char (c : ascii) : bool :=
  existsb (Ascii.eqb c) (str "-0123456789").

(** The bytes a buffered writer over a [bytes.Buffer] has accepted so far:
    those already in the buffer and those still pending. *)
Definition written (b : Bufio.Writer Io.Buffer) : gostring :=
  Bufio.wr b ++ Bufio.buf b.

(** A step that cannot fail and adds exactly [s]. *)
Definition appends
    (f : Bufio.Writer Io.Buffer -> Bufio.Writer Io.Buffer * option gostring)
    (s : gostring) : Prop :=
  forall b, Bufio.err b = None ->
    exists b', f b = (b', None) /\ Bufio.err b' = None
               /\ written b' = written b ++ s.

(** The writer [csv.NewWriter] makes, with no error so far. *)
Definition healthy (cw : Csv.Writer Io.Buffer) : Prop :=
  Csv.Comma cw = comma /\ Csv.UseCRLF cw = false
  /\ Bufio.err (Csv.w cw) = None.

(** An [io.Writer] that rejects every write. *)
Definition closedPipe : Io.Writer unit :=
  fun _ _ => (tt, Some (str "io: read/write on closed pipe")).

(** The fixed instruction that precedes the summary in the prompt of
    AnalyzeLogs: the format up to its [%s]. *)
Definition logsInstruction : gostring :=
  take (Nat.sub (List.length logsPromptFormat) 2) logsPromptFormat.

(** ** Sample batches *)

Definition entry (path : gostring) (duration status : Z) : LogEntry :=
  {| Timestamp := str "2024-04-06T10:00:00Z"; Level := str "info";
     Message := str "Request completed"; Path := path; Method := str "GET";
     Duration := duration; Status := status; Metadata := ∅ |}.

(** Two requests to [/api/users] and a slow, failing one to [/api/slow]. *)
Definition sampleLogs : list LogEntry :=
  [entry (str "/api/users") 100 200; entry (str "/api/users") 300 200;
   entry (str "/api/slow") 2000 500].

(** Two requests whose durations add up to [2 ^ 63]. *)
Definition hugeLogs : list LogEntry :=
  [entry (str "/p") (2 ^ 62) 200; entry (str "/p") (2 ^ 62) 200].

(** ** splitIntoChunks *)

(** The [for] loop of [splitIntoChunks], entered with the index [i] and the
    chunks appended so far. Each test of the loop condition takes one unit
    of [fuel]; [None] means the fuel ran out before the loop ended. *)
Fixpoint splitLoop (fuel : nat) (text : gostring) (chunkSize i : Z)
    (chunks : list gostring) : option (result (list gostring)) :=
  match fuel with
  | O => None
  | Datatypes.S fuel' =>
      if i <? Z.of_nat (List.length text) then
        let end_ := wrap64 (i + chunkSize) in
        let end_ :=
          if end_ >? Z.of_nat (List.length text)
          then Z.of_nat (List.length text) else end_ in
        match Strings.slice text i end_ with
        | None => Some Panics
        | Some chunk =>
            splitLoop fuel' text chunkSize (wrap64 (i + chunkSize))
              (chunks ++ [chunk])
        end
      else Some (Ok chunks)
  end.

(** [var chunks []string] starts as nil, the empty list. *)
Definition splitIntoChunks (fuel : nat) (text : gostring) (chunkSize : Z)
  : option (result (list gostring)) :=
  splitLoop fuel text chunkSize 0 [].

(** ** main.go: containsAny and filterPerformanceInsights *)

Module Main.

(** [strings.Contains]. *)
Definition Contains (s substr : gostring) : bool :=
  Strings.Index s substr >=? 0.

Definition isASCII (s : gostring) : bool :=
  forallb (fun c => Utf8.byte c <? 128) s.

(** An upper-case ASCII letter becomes the lower-case one. *)
Definition lowerByte (c : ascii) : ascii :=
  if (65 <=? Utf8.byte c) && (Utf8.byte c <=? 90)
  then ascii_of_N (N_of_ascii c + 32) else c.

Section ToLower.

(** [strings.Map(unicode.ToLower, s)], which [strings.ToLower] falls back
    on for a string with a byte outside ASCII: the Unicode case tables are
    a parameter. *)
Variable mapUnicodeToLower : gostring -> gostring.

(** [strings.ToLower]. *)
Definition ToLower (s : gostring) : gostring :=
  if isASCII s then map lowerByte s else mapUnicodeToLower s.

(** [for _, keyword := range keywords], returning at the first match. *)
Fixpoint containsAny (s : gostring) (keywords : list gostring) : bool :=
  match keywords with
  | [] => false
  | keyword :: keywords' =>
      if Contains (ToLower s) (ToLower keyword) then true
      else containsAny s keywords'
  end.

Definition performanceKeywords : list gostring :=
  [str "slow"; str "performance"; str "latency"; str "duration";
   str "response time"].

(** [for _, insight := range insights], appending the matches. *)
Definition filterPerformanceInsights (insights : list gostring)
  : list gostring :=
  fold_left
    (fun performanceInsights insight =>
       if containsAny insight performanceKeywords
       then performanceInsights ++ [insight] else performanceInsights)
    insights [].

End ToLower.

(** ** main.go: the route handlers *)

(** What a handler writes: [c.JSON(code, gin.H{...})] with the one key the
    handler sets, or [c.Data(code, contentType, data)]. *)
Inductive payload :=
| ErrorJSON (error : gostring)
| AnalysisJSON (analysis : AnalysisResult)
| PerformanceJSON (analysis : PerformanceAnalysis)
| HealthJSON (status message : gostring)
| Data (contentType data : gostring).

Record response := {
  code : Z;
  header : list (gostring * gostring);
  body : payload
}.

Definition StatusBadRequest : Z := 400.
Definition StatusInternalServerError : Z := 500.

Definition health : response :=
  {| code := StatusOK; header := [];
     body := HealthJSON (str "healthy") (str "Analytics AI service is running") |}.

Section Handlers.

(** [c.BindJSON(&logs)]: a decoding error or the decoded batch. *)
Variable BindJSON : gostring -> gostring + list LogEntry.

Variable Do : gostring -> gostring -> roundTrip.
Variable Unmarshal : gostring -> gostring + list (gostring * json).
Variable UnmarshalAnalysis : gostring -> gostring + AnalysisResult.
Variable UnmarshalPerformance : gostring -> gostring + PerformanceAnalysis.
Variable rangeLogs : gmap gostring Logs.stats -> list (gostring * Logs.stats).
Variable rangePerf : gmap gostring Perf.stats -> list (gostring * Perf.stats).

(** The package variable set by [main]. *)
Variable analyticsService : AnalyticsService.

Definition errorResponse (code : Z) (format : gostring) (err : gostring)
  : response :=
  {| code := code; header := [];
     body := ErrorJSON (Fmt.Sprintf format [Fmt.E err]) |}.

(** [POST /analyze/logs]. *)
Definition analyzeLogs (requestBody : gostring) : result response :=
  match BindJSON requestBody with
  | inl err =>
      Ok (errorResponse StatusBadRequest (str "invalid request body: %v") err)
  | inr logs =>
      match AnalyzeLogs Do Unmarshal UnmarshalAnalysis rangeLogs
              analyticsService logs with
      | Panics => Panics
      | Err err =>
          Ok (errorResponse StatusInternalServerError
                (str "error generating analysis: %v") err)
      | Ok analysis =>
          Ok {| code := StatusOK; header := []; body := AnalysisJSON analysis |}
      end
  end.

(** [POST /analyze/performance]. *)
Definition analyzePerformance (requestBody : gostring) : result response :=
  match BindJSON requestBody with
  | inl err =>
      Ok (errorResponse StatusBadRequest (str "invalid request body: %v") err)
  | inr logs =>
      match AnalyzePerformance Do Unmarshal UnmarshalPerformance rangePerf
              analyticsService logs with
      | Panics => Panics
      | Err err =>
          Ok (errorResponse StatusInternalServerError
                (str "error generating analysis: %v") err)
      | Ok analysis =>
          Ok {| code := StatusOK; header := [];
                body := PerformanceJSON analysis |}
      end
  end.

(** [POST /convert/to-csv]. *)
Definition convertToCSV (requestBody : gostring) : response :=
  match BindJSON requestBody with
  | inl err =>
      errorResponse StatusBadRequest (str "invalid request body: %v") err
  | inr logs =>
      match ConvertToCSV logs with
      | (_, Some err) =>
          errorResponse StatusInternalServerError
            (str "error converting to CSV: %v") err
      | (csvData, None) =>
          {| code := StatusOK;
             header := [(str "Content-Disposition",
                         str "attachment; filename=analytics.csv")];
             body := Data (str "text/csv") (default [] csvData) |}
      end
  end.

End Handlers.

End Main.

(** ** Vocabulary of the further statements *)

(** The chunks of [text], [n] bytes each and the rest in the last one;
    [fuel] bounds their number. *)
Fixpoint chunksOf (fuel n : nat) (text : gostring) : list gostring :=
  match fuel with
  | O => []
  | Datatypes.S fuel' =>
      match text with
      | [] => []
      | _ => take n text :: chunksOf fuel' n (drop n text)
      end
  end.

(** What the performance loop reads of an entry. *)
Definition measured (e : LogEntry) : gostring * Z * Z :=
  (Path e, Duration e, Status e).

(** The fields the two loops have in common. *)
Definition shared (st : Perf.stats) : Logs.stats :=
  {| Logs.count := Perf.count st; Logs.totalTime := Perf.totalTime st;
     Logs.errors := Perf.errors st |}.

Definition is_object (j : json) : Prop := exists members, j = JObject members.

(** What follows a field in a line: a comma or the newline. *)
Definition separator (c : ascii) : Prop := c = comma \/ c = nl.

(** The rest of a line after its first field. *)
Definition line_tail (fields : list gostring) : gostring :=
  concat (map (fun f => comma :: csv_field f) fields) ++ [nl].

(** * Part II: lemmas and theorems *)

(** ** The library models on concrete inputs *)

Example FormatInt_examples :
  Strconv.FormatInt 0 = str "0"
  /\ Strconv.FormatInt 2000 = str "2000"
  /\ Strconv.FormatInt (-15) = str "-15"
  /\ Strconv.Itoa 404 = str "404".
Proof. repeat split; vm_compute; reflexivity. Qed.

Example wrap64_examples :
  wrap64 (MaxInt64 + 1) = MinInt64
  /\ wrap64 (MinInt64 - 1) = MaxInt64
  /\ wrap64 (-7) = -7
  /\ div64 (-7) 2 = Some (-3)
  /\ div64 7 0 = None.
Proof. repeat split; vm_compute; reflexivity. Qed.

Example Format1_examples :
  Float64.Format1 (Logs.errorRate 0 7) = str "0.0"
  /\ Float64.Format1 (Logs.errorRate 1 3) = str "33.3"
  /\ Float64.Format1 (Logs.errorRate 2 3) = str "66.7"
  /\ Float64.Format1 (Logs.errorRate 1 16) = str "6.2"
  /\ Float64.Format1 (Logs.errorRate 3 16) = str "18.8"
  /\ Float64.Format1 (Logs.errorRate 1 2000) = str "0.1"
  /\ Float64.Format1 (Logs.errorRate 7 7) = str "100.0".
Proof. repeat split; vm_compute; reflexivity. Qed.

Example Sprintf_examples :
  Fmt.Sprintf (str "%d%% of %s") [Fmt.D 5; Fmt.S (str "it")] = str "5% of it"
  /\ Fmt.Sprintf (str "%v") [Fmt.E (str "EOF")] = str "EOF"
  /\ Fmt.Sprintf (str "%d") [] = str "%!d(MISSING)".
Proof. repeat split; vm_compute; reflexivity. Qed.

Example Strings_examples :
  Strings.ReplaceAll (str "aaaa") (str "aa") (str "b") = str "bb"
  /\ Strings.ReplaceAll (str "xabababy") (str "aba") (str "-") = str "x-baby"
  /\ Strings.Index (str "chicken") (str "ken") = 4
  /\ Strings.Index (str "chicken") (str "dmr") = -1
  /\ Strings.LastIndex (str "go gopher") (str "go") = 3
  /\ Strings.LastIndex (str "go gopher") (str "rodent") = -1
  /\ Strings.slice (str "{a}") 0 3 = Some (str "{a}")
  /\ Strings.slice (str "{a}") 2 1 = None.
Proof. repeat split; vm_compute; reflexivity. Qed.

Example Utf8_examples :
  Utf8.DecodeRuneInString (str "a") = 97
  /\ Utf8.DecodeRuneInString [ascii_of_nat 194; ascii_of_nat 160] = 160
  /\ Utf8.DecodeRuneInString
       [ascii_of_nat 226; ascii_of_nat 128; ascii_of_nat 168] = 8232
  /\ Utf8.DecodeRuneInString
       [ascii_of_nat 240; ascii_of_nat 159; ascii_of_nat 152; ascii_of_nat 128]
     = 128512
  /\ Utf8.DecodeRuneInString [ascii_of_nat 192; ascii_of_nat 160]
     = Utf8.RuneError
  /\ Utf8.DecodeRuneInString [ascii_of_nat 226; ascii_of_nat 128]
     = Utf8.RuneError.
Proof. repeat split; vm_compute; reflexivity. Qed.

Example fieldNeedsQuotes_examples :
  Csv.fieldNeedsQuotes comma [] = false
  /\ Csv.fieldNeedsQuotes comma (str "GET") = false
  /\ Csv.fieldNeedsQuotes comma (str "a,b") = true
  /\ Csv.fieldNeedsQuotes comma (str " lead") = true
  /\ Csv.fieldNeedsQuotes comma (str "trail ") = false
  /\ Csv.fieldNeedsQuotes comma (str "\.") = true
  /\ Csv.fieldNeedsQuotes comma [ascii_of_nat 194; ascii_of_nat 160] = true.
Proof. repeat split; vm_compute; reflexivity. Qed.

(** ** Machine arithmetic *)

Lemma wrap64_id z : in_int64 z -> wrap64 z = z.
Proof.
  unfold in_int64, wrap64, MinInt64, MaxInt64. intros Hz.
  rewrite Z.mod_small; lia.
Qed.

Lemma wrap64_range z : in_int64 (wrap64 z).
Proof.
  unfold in_int64, wrap64, MinInt64, MaxInt64.
  pose proof (Z.mod_pos_bound (z + 2 ^ 63) (2 ^ 64)). lia.
Qed.

Lemma wrap64_add_l a b : wrap64 (wrap64 a + b) = wrap64 (a + b).
Proof.
  unfold wrap64.
  replace ((a + 2 ^ 63) mod 2 ^ 64 - 2 ^ 63 + b + 2 ^ 63)
    with ((a + 2 ^ 63) mod 2 ^ 64 + b) by lia.
  rewrite Zplus_mod_idemp_l. f_equal. f_equal. lia.
Qed.

(** Truncated division of a total of [n] terms that all lie in [[lo, hi]]
    stays in [[lo, hi]], whatever the signs. *)
Lemma quot_between lo hi s n :
  0 < n -> lo * n <= s <= hi * n -> lo <= Z.quot s n <= hi.
Proof.
  intros Hn [Hlo Hhi].
  pose proof (Z.quot_rem' s n) as Hqr.
  set (q := Z.quot s n) in *. set (r := Z.rem s n) in *.
  assert (Hsign : (0 <= s -> 0 <= r < n) /\ (s <= 0 -> - n < r <= 0)).
  { split; intros Hs.
    - apply Z.rem_bound_pos; lia.
    - pose proof (Z.rem_bound_pos (- s) n ltac:(lia) Hn) as Hb.
      rewrite Z.rem_opp_l in Hb by lia. fold r in Hb. lia. }
  clearbody q r. destruct Hsign as [Hp Hm].
  split.
  - destruct (Z_lt_le_dec q lo) as [Hlt | ?]; [exfalso | assumption].
    assert (n * (q + 1) <= n * lo) by (apply Z.mul_le_mono_nonneg_l; lia).
    destruct (Z_le_gt_dec 0 s); nia.
  - destruct (Z_lt_le_dec hi q) as [Hlt | ?]; [exfalso | assumption].
    assert (n * (hi + 1) <= n * q) by (apply Z.mul_le_mono_nonneg_l; lia).
    destruct (Z_le_gt_dec 0 s); nia.
Qed.

(** ** Entries by path *)

Lemma on_snoc_same logs e : on (Path e) (logs ++ [e]) = on (Path e) logs ++ [e].
Proof.
  unfold on. rewrite filter_app. f_equal.
  rewrite filter_cons_True by reflexivity. reflexivity.
Qed.

Lemma on_snoc_other p logs e : Path e <> p -> on p (logs ++ [e]) = on p logs.
Proof.
  intros Hne. unfold on. rewrite filter_app.
  rewrite filter_cons_False by assumption.
  rewrite filter_nil. apply app_nil_r.
Qed.

Lemma on_length_le p logs : (List.length (on p logs) <= List.length logs)%nat.
Proof. unfold on. apply length_filter. Qed.

Lemma total_duration_snoc es e :
  total_duration (es ++ [e]) = total_duration es + Duration e.
Proof.
  unfold total_duration, sumZ. rewrite fmap_app, foldr_app. simpl.
  generalize (Duration <$> es) as l. intros l.
  induction l as [| x l IH]; simpl; lia.
Qed.

Lemma failed_snoc_length es e :
  Z.of_nat (List.length (filter failed (es ++ [e])))
  = Z.of_nat (List.length (filter failed es))
    + (if Status e >=? 400 then 1 else 0).
Proof.
  rewrite filter_app, length_app.
  destruct (Z.geb_spec (Status e) 400) as [Hge | Hlt].
  - rewrite filter_cons_True by (unfold failed; lia). simpl. lia.
  - rewrite filter_cons_False by (unfold failed; lia). simpl. lia.
Qed.

Lemma failed_length_le es :
  (List.length (filter failed es) <= List.length es)%nat.
Proof. apply length_filter. Qed.

(** ** The map of AnalyzePerformance, entry by entry *)

Lemma perf_step_ok logs m e :
  Z.of_nat (List.length logs) < MaxInt64 ->
  (forall p, perf_entry_ok logs p (m !! p)) ->
  forall p, perf_entry_ok (logs ++ [e]) p (Perf.step m e !! p).
Proof.
  intros Hlen Hinv p. unfold Perf.step.
  destruct (decide (Path e = p)) as [<- | Hne].
  2: { rewrite lookup_insert_ne by done. specialize (Hinv p).
       unfold perf_entry_ok in *. rewrite on_snoc_other by done. exact Hinv. }
  rewrite lookup_insert_eq. specialize (Hinv (Path e)).
  pose proof (on_length_le (Path e) logs) as Hon.
  pose proof (failed_length_le (on (Path e) logs)) as Hfl.
  unfold perf_entry_ok in *.
  rewrite on_snoc_same, length_app, total_duration_snoc, failed_snoc_length.
  assert (Hnil : on (Path e) logs ++ [e] <> []) by (destruct (on (Path e) logs); done).
  unfold MaxInt64 in Hlen.
  destruct (m !! Path e) as [[c t mx mn er] |]; simpl in *.
  - destruct Hinv as (Hne & Hc & Ht & He & Hb & Hmin & Hmax).
    assert (Hc1 : 1 <= c) by (destruct (on (Path e) logs); simpl in *; [done | lia]).
    destruct (Z.eqb_spec c 0) as [? | _]; [lia |].
    assert (Hcw : wrap64 (c + 1) = c + 1)
      by (apply wrap64_id; unfold in_int64, MinInt64, MaxInt64; lia).
    assert (Hew : wrap64 (er + 1) = er + 1)
      by (apply wrap64_id; unfold in_int64, MinInt64, MaxInt64; lia).
    assert (Htw : wrap64 (t + Duration e)
                  = wrap64 (total_duration (on (Path e) logs) + Duration e))
      by (rewrite Ht; apply wrap64_add_l).
    destruct Hmin as (emin & Hemin & Hdmin). destruct Hmax as (emax & Hemax & Hdmax).
    pose proof (Hb _ Hemin) as Hbmin. pose proof (Hb _ Hemax) as Hbmax.
    destruct (Z.ltb_spec (Duration e) mn) as [Hlt | Hge]; simpl;
      destruct (Z.gtb_spec (Duration e) mx) as [Hgt | Hle]; simpl;
      destruct (Z.geb_spec (Status e) 400) as [Hs | Hs]; simpl;
      (split; [exact Hnil |]);
      (split; [rewrite Hcw; simpl; lia |]);
      (split; [exact Htw |]);
      (split; [try rewrite Hew; lia |]);
      try lia.
    all: split; [| split].
    all: try (intros e' [He' | ->%list_elem_of_singleton]%elem_of_app;
              [specialize (Hb _ He') |]; lia).
    all: try (exists e; split; [apply elem_of_app; right; apply list_elem_of_singleton; reflexivity | reflexivity]).
    all: try (exists emin; split; [apply elem_of_app; left; exact Hemin | exact Hdmin]).
    all: try (exists emax; split; [apply elem_of_app; left; exact Hemax | exact Hdmax]).
  - rewrite Hinv. simpl.
    destruct (Z.geb_spec (Status e) 400) as [Hs | Hs]; simpl;
      (split; [done |]); (split; [reflexivity |]);
      (split; [unfold total_duration; simpl; f_equal; lia |]);
      (split; [reflexivity |]).
    all: split; [| split].
    all: try (intros e' ->%list_elem_of_singleton; lia).
    all: exists e; split; [apply list_elem_of_singleton; reflexivity | reflexivity].
Qed.

Lemma perf_aggregate_snoc logs e :
  Perf.aggregate (logs ++ [e]) = Perf.step (Perf.aggregate logs) e.
Proof. unfold Perf.aggregate. apply fold_left_app. Qed.

Lemma perf_aggregate_ok logs :
  Z.of_nat (List.length logs) <= MaxInt64 ->
  forall p, perf_entry_ok logs p (Perf.aggregate logs !! p).
Proof.
  induction logs as [| e logs IH] using rev_ind; intros Hlen p.
  - unfold Perf.aggregate. simpl. rewrite lookup_empty. reflexivity.
  - rewrite length_app in Hlen. simpl in Hlen.
    rewrite perf_aggregate_snoc.
    apply perf_step_ok; [lia |]. apply IH. lia.
Qed.

(** ** The map of AnalyzeLogs, entry by entry *)

Lemma logs_step_ok logs m summary e :
  Z.of_nat (List.length logs) < MaxInt64 ->
  (forall p, logs_entry_ok logs p (m !! p)) ->
  forall p, logs_entry_ok (logs ++ [e]) p (fst (Logs.step (m, summary) e) !! p).
Proof.
  intros Hlen Hinv p. unfold Logs.step. cbn [fst].
  destruct (decide (Path e = p)) as [<- | Hne].
  2: { rewrite lookup_insert_ne by done. specialize (Hinv p).
       unfold logs_entry_ok in *. rewrite on_snoc_other by done. exact Hinv. }
  rewrite lookup_insert_eq. specialize (Hinv (Path e)).
  pose proof (on_length_le (Path e) logs) as Hon.
  pose proof (failed_length_le (on (Path e) logs)) as Hfl.
  unfold logs_entry_ok in *.
  rewrite on_snoc_same, length_app, total_duration_snoc, failed_snoc_length.
  assert (Hnil : on (Path e) logs ++ [e] <> []) by (destruct (on (Path e) logs); done).
  unfold MaxInt64 in Hlen.
  destruct (m !! Path e) as [[c t er] |]; simpl in *.
  - destruct Hinv as (Hne & Hc & Ht & He).
    assert (Hcw : wrap64 (c + 1) = c + 1)
      by (apply wrap64_id; unfold in_int64, MinInt64, MaxInt64; lia).
    assert (Hew : wrap64 (er + 1) = er + 1)
      by (apply wrap64_id; unfold in_int64, MinInt64, MaxInt64; lia).
    assert (Htw : wrap64 (t + Duration e)
                  = wrap64 (total_duration (on (Path e) logs) + Duration e))
      by (rewrite Ht; apply wrap64_add_l).
    destruct (Z.geb_spec (Status e) 400) as [Hs | Hs]; simpl;
      (split; [exact Hnil |]);
      (split; [rewrite Hcw; simpl; lia |]);
      (split; [exact Htw |]);
      try rewrite Hew; lia.
  - rewrite Hinv. simpl.
    destruct (Z.geb_spec (Status e) 400) as [Hs | Hs]; simpl;
      (split; [done |]); (split; [reflexivity |]);
      (split; [unfold total_duration; simpl; f_equal; lia |]);
      reflexivity.
Qed.

Lemma logs_loop_snoc logs e :
  Logs.loop (logs ++ [e]) = Logs.step (Logs.loop logs) e.
Proof. unfold Logs.loop. apply fold_left_app. Qed.

Lemma logs_aggregate_ok logs :
  Z.of_nat (List.length logs) <= MaxInt64 ->
  forall p, logs_entry_ok logs p (Logs.aggregate logs !! p).
Proof.
  induction logs as [| e logs IH] using rev_ind; intros Hlen p.
  - unfold Logs.aggregate, Logs.loop. simpl. rewrite lookup_empty. reflexivity.
  - rewrite length_app in Hlen. simpl in Hlen.
    unfold Logs.aggregate. rewrite logs_loop_snoc.
    destruct (Logs.loop logs) as [m summary] eqn:Hloop.
    apply logs_step_ok; [lia |].
    intros q. specialize (IH ltac:(lia) q).
    unfold Logs.aggregate in IH. rewrite Hloop in IH. exact IH.
Qed.

(** ** Summing the counts *)

Lemma sum_counts_empty {A} (count : A -> Z) : sum_counts count ∅ = 0.
Proof. unfold sum_counts. apply map_fold_empty. Qed.

Lemma sum_counts_insert_fresh {A} (count : A -> Z) m p st :
  m !! p = None -> sum_counts count (<[p := st]> m) = count st + sum_counts count m.
Proof.
  intros Hp. unfold sum_counts.
  rewrite map_fold_insert_L; [reflexivity | | exact Hp].
  intros. lia.
Qed.

Lemma sum_counts_insert {A} (count : A -> Z) m p st :
  sum_counts count (<[p := st]> m)
  = count st + sum_counts count m - from_option count 0 (m !! p).
Proof.
  destruct (m !! p) as [old |] eqn:Hp; simpl.
  - rewrite <- (insert_delete_id m p old Hp) at 2.
    rewrite <- insert_delete_eq.
    rewrite !sum_counts_insert_fresh by apply lookup_delete_eq. lia.
  - rewrite sum_counts_insert_fresh by exact Hp. lia.
Qed.

Lemma perf_entry_count logs p o :
  perf_entry_ok logs p o ->
  from_option Perf.count 0 o = Z.of_nat (List.length (on p logs)).
Proof.
  destruct o as [st |]; simpl.
  - intros (_ & Hc & _). exact Hc.
  - intros ->. reflexivity.
Qed.

Lemma logs_entry_count logs p o :
  logs_entry_ok logs p o ->
  from_option Logs.count 0 o = Z.of_nat (List.length (on p logs)).
Proof.
  destruct o as [st |]; simpl.
  - intros (_ & Hc & _). exact Hc.
  - intros ->. reflexivity.
Qed.

Lemma perf_sum_counts logs :
  Z.of_nat (List.length logs) <= MaxInt64 ->
  sum_counts Perf.count (Perf.aggregate logs) = Z.of_nat (List.length logs).
Proof.
  induction logs as [| e logs IH] using rev_ind; intros Hlen.
  - apply sum_counts_empty.
  - rewrite length_app in *. simpl in Hlen.
    pose proof (perf_aggregate_ok logs ltac:(lia)) as Hinv.
    pose proof (perf_step_ok logs _ e ltac:(lia) Hinv (Path e)) as Hnew.
    apply perf_entry_count in Hnew.
    pose proof (perf_entry_count _ _ _ (Hinv (Path e))) as Hold.
    rewrite perf_aggregate_snoc.
    revert Hnew. unfold Perf.step.
    rewrite lookup_insert_eq, sum_counts_insert. simpl. intros ->.
    rewrite Hold, IH by lia.
    rewrite on_snoc_same, length_app. simpl. lia.
Qed.

Lemma logs_sum_counts logs :
  Z.of_nat (List.length logs) <= MaxInt64 ->
  sum_counts Logs.count (Logs.aggregate logs) = Z.of_nat (List.length logs).
Proof.
  induction logs as [| e logs IH] using rev_ind; intros Hlen.
  - apply sum_counts_empty.
  - rewrite length_app in *. simpl in Hlen.
    pose proof (logs_aggregate_ok logs ltac:(lia)) as Hinv.
    specialize (IH ltac:(lia)).
    unfold Logs.aggregate in *. rewrite logs_loop_snoc.
    destruct (Logs.loop logs) as [m summary]. cbn [fst] in *.
    pose proof (logs_step_ok logs m summary e ltac:(lia) Hinv (Path e)) as Hnew.
    apply logs_entry_count in Hnew.
    pose proof (logs_entry_count _ _ _ (Hinv (Path e))) as Hold.
    revert Hnew. unfold Logs.step. cbn [fst].
    rewrite lookup_insert_eq, sum_counts_insert. simpl. intros ->.
    rewrite Hold, IH.
    rewrite on_snoc_same, length_app. simpl. lia.
Qed.

(** ** Statistics Aggregator *)

(** C1. For every input batch (a Go slice, so no longer than the largest
    [int]), the [count] fields of the per-path statistics that the loop of
    AnalyzeLogs computes add up to the length of the batch, and so do those
    that the loop of AnalyzePerformance computes. The empty batch is
    included: both sums are then zero. *)
Theorem counts_sum_to_batch_length (logs : list LogEntry) :
  Z.of_nat (List.length logs) <= MaxInt64 ->
  sum_counts Logs.count (Logs.aggregate logs) = Z.of_nat (List.length logs)
  /\ sum_counts Perf.count (Perf.aggregate logs) = Z.of_nat (List.length logs).
Proof.
  intros Hlen. split.
  - apply logs_sum_counts, Hlen.
  - apply perf_sum_counts, Hlen.
Qed.

Lemma counts_sum_to_batch_length_witness :
  Z.of_nat (List.length sampleLogs) <= MaxInt64
  /\ sum_counts Logs.count (Logs.aggregate sampleLogs) = 3
  /\ sum_counts Perf.count (Perf.aggregate sampleLogs) = 3.
Proof.
  assert (Hlen : Z.of_nat (List.length sampleLogs) <= MaxInt64)
    by (vm_compute; discriminate).
  split; [exact Hlen |].
  exact (counts_sum_to_batch_length sampleLogs Hlen).
Defined.

Lemma total_duration_bounds lo hi es :
  (forall e, e ∈ es -> lo <= Duration e <= hi) ->
  lo * Z.of_nat (List.length es) <= total_duration es
  <= hi * Z.of_nat (List.length es).
Proof.
  unfold total_duration, sumZ.
  induction es as [| e es IH]; intros Hb.
  - simpl. lia.
  - pose proof (Hb e ltac:(left)) as He.
    specialize (IH ltac:(intros e' He'; apply Hb; right; exact He')).
    change (foldr Z.add 0 (Duration <$> e :: es))
      with (Duration e + foldr Z.add 0 (Duration <$> es)).
    change (List.length (e :: es)) with (Datatypes.S (List.length es)).
    rewrite Nat2Z.inj_succ. lia.
Qed.

Lemma on_elem p logs e : e ∈ on p logs <-> e ∈ logs /\ Path e = p.
Proof. unfold on. rewrite list_elem_of_filter. tauto. Qed.

(** C2, as the code has it. For every well-formed batch and every path
    present in the statistics of AnalyzePerformance: the count is at least
    one and [0 <= errors <= count]; and whenever the exact sum of that
    path's durations fits in an [int64], the average computed by the
    truncating integer division exists and lies between [minTime] and
    [maxTime], for durations of either sign. *)
Theorem perf_stats_invariant (logs : list LogEntry) (p : gostring)
    (st : Perf.stats) :
  wf_logs logs ->
  Perf.aggregate logs !! p = Some st ->
  1 <= Perf.count st
  /\ 0 <= Perf.errors st <= Perf.count st
  /\ (in_int64 (total_duration (on p logs)) ->
      exists avg, Perf.avgTime st = Some avg
                  /\ Perf.minTime st <= avg <= Perf.maxTime st).
Proof.
  intros [Hlen Hwf] Hst.
  pose proof (perf_aggregate_ok logs Hlen p) as Hok.
  rewrite Hst in Hok. simpl in Hok.
  destruct Hok as (Hne & Hc & Ht & He & Hb & (emin & Hemin & Hdmin) & (emax & Hemax & Hdmax)).
  pose proof (failed_length_le (on p logs)) as Hfl.
  assert (Hc1 : 1 <= Perf.count st).
  { rewrite Hc. destruct (on p logs); simpl in *; [done | lia]. }
  split; [exact Hc1 |]. split; [lia |].
  intros Hfit. unfold Perf.avgTime, div64.
  destruct (Z.eqb_spec (Perf.count st) 0) as [? | _]; [lia |].
  eexists. split; [reflexivity |].
  rewrite Ht, (wrap64_id _ Hfit), Hc.
  pose proof (total_duration_bounds _ _ _ Hb) as Hsum.
  assert (Hpos : 0 < Z.of_nat (List.length (on p logs))) by lia.
  pose proof (quot_between _ _ _ _ Hpos Hsum) as Hq.
  rewrite wrap64_id; [exact Hq |].
  assert (Hin : forall e, e ∈ on p logs -> in_int64 (Duration e)).
  { intros e [He' _]%on_elem. rewrite Forall_forall in Hwf.
    apply (Hwf e He'). }
  pose proof (Hin _ Hemin) as Hmn. pose proof (Hin _ Hemax) as Hmx.
  rewrite Hdmin in Hmn. rewrite Hdmax in Hmx.
  unfold in_int64 in *. lia.
Qed.

Lemma perf_stats_invariant_witness :
  wf_logs sampleLogs
  /\ Perf.aggregate sampleLogs !! str "/api/users"
     = Some {| Perf.count := 2; Perf.totalTime := 400; Perf.maxTime := 300;
               Perf.minTime := 100; Perf.errors := 0 |}
  /\ in_int64 (total_duration (on (str "/api/users") sampleLogs))
  /\ exists avg,
       Perf.avgTime {| Perf.count := 2; Perf.totalTime := 400;
                       Perf.maxTime := 300; Perf.minTime := 100;
                       Perf.errors := 0 |} = Some avg
       /\ 100 <= avg <= 300.
Proof.
  assert (Hwf : wf_logs sampleLogs).
  { split; [vm_compute; discriminate |].
    repeat constructor; vm_compute; discriminate. }
  assert (Hst : Perf.aggregate sampleLogs !! str "/api/users"
                = Some {| Perf.count := 2; Perf.totalTime := 400;
                          Perf.maxTime := 300; Perf.minTime := 100;
                          Perf.errors := 0 |}) by (vm_compute; reflexivity).
  assert (Hfit : in_int64 (total_duration (on (str "/api/users") sampleLogs)))
    by (vm_compute; split; discriminate).
  split; [exact Hwf |]. split; [exact Hst |]. split; [exact Hfit |].
  exact (proj2 (proj2 (perf_stats_invariant sampleLogs _ _ Hwf Hst)) Hfit).
Defined.

(** C2, as the claim has it, fails: two well-formed entries for one path
    whose durations are [2 ^ 62] each make [totalTime] wrap around to
    [- 2 ^ 63], and the computed average [- 2 ^ 62] is below [minTime]. *)
Lemma perf_average_below_min_on_overflow :
  wf_logs hugeLogs
  /\ exists st avg,
       Perf.aggregate hugeLogs !! str "/p" = Some st
       /\ Perf.count st = 2
       /\ Perf.avgTime st = Some avg
       /\ Perf.minTime st = 2 ^ 62
       /\ avg = - 2 ^ 62
       /\ ~ (Perf.minTime st <= avg <= Perf.maxTime st).
Proof.
  split.
  { split; [vm_compute; discriminate |].
    repeat constructor; vm_compute; discriminate. }
  eexists _, _.
  split; [vm_compute; reflexivity |].
  split; [reflexivity |].
  split; [vm_compute; reflexivity |].
  split; [reflexivity |].
  split; [reflexivity |].
  simpl. lia.
Qed.

(** C3. For every input batch and every path present in the statistics of
    AnalyzePerformance, the duration of every input entry with that path
    lies between the computed [minTime] and [maxTime], inclusive; both
    bounds are the duration of such an entry. *)
Theorem perf_durations_within_extremes (logs : list LogEntry) (p : gostring)
    (st : Perf.stats) :
  Z.of_nat (List.length logs) <= MaxInt64 ->
  Perf.aggregate logs !! p = Some st ->
  (forall e, e ∈ logs -> Path e = p ->
     Perf.minTime st <= Duration e <= Perf.maxTime st)
  /\ (exists e, e ∈ logs /\ Path e = p /\ Duration e = Perf.minTime st)
  /\ (exists e, e ∈ logs /\ Path e = p /\ Duration e = Perf.maxTime st).
Proof.
  intros Hlen Hst.
  pose proof (perf_aggregate_ok logs Hlen p) as Hok.
  rewrite Hst in Hok. simpl in Hok.
  destruct Hok as (_ & _ & _ & _ & Hb & (emin & Hemin & Hdmin) & (emax & Hemax & Hdmax)).
  split; [| split].
  - intros e He Hp. apply Hb, on_elem. split; assumption.
  - apply on_elem in Hemin as [? ?]. exists emin. auto.
  - apply on_elem in Hemax as [? ?]. exists emax. auto.
Qed.

Lemma perf_durations_within_extremes_witness :
  Z.of_nat (List.length sampleLogs) <= MaxInt64
  /\ Perf.aggregate sampleLogs !! str "/api/slow"
     = Some {| Perf.count := 1; Perf.totalTime := 2000; Perf.maxTime := 2000;
               Perf.minTime := 2000; Perf.errors := 1 |}
  /\ forall e, e ∈ sampleLogs -> Path e = str "/api/slow" ->
       2000 <= Duration e <= 2000.
Proof.
  assert (Hlen : Z.of_nat (List.length sampleLogs) <= MaxInt64)
    by (vm_compute; discriminate).
  assert (Hst : Perf.aggregate sampleLogs !! str "/api/slow"
                = Some {| Perf.count := 1; Perf.totalTime := 2000;
                          Perf.maxTime := 2000; Perf.minTime := 2000;
                          Perf.errors := 1 |}) by (vm_compute; reflexivity).
  split; [exact Hlen |]. split; [exact Hst |].
  exact (proj1 (perf_durations_within_extremes sampleLogs _ _ Hlen Hst)).
Defined.

(** ** No division by zero *)

Lemma logs_statLines_defined kvs :
  Forall (fun kv => Logs.count kv.2 <> 0) kvs -> is_Some (Logs.statLines kvs).
Proof.
  induction kvs as [| [p st] kvs IH]; intros Hall; [by eexists |].
  apply Forall_cons in Hall as [Hst Hall]. cbn [snd] in Hst.
  destruct (IH Hall) as [rest Hrest].
  cbn [Logs.statLines]. unfold Logs.statLine, div64.
  destruct (Z.eqb_spec (Logs.count st) 0) as [? | _]; [done |].
  rewrite Hrest. by eexists.
Qed.

Lemma perf_statBlocks_defined kvs :
  Forall (fun kv => Perf.count kv.2 <> 0) kvs -> is_Some (Perf.statBlocks kvs).
Proof.
  induction kvs as [| [p st] kvs IH]; intros Hall; [by eexists |].
  apply Forall_cons in Hall as [Hst Hall]. cbn [snd] in Hst.
  destruct (IH Hall) as [rest Hrest].
  cbn [Perf.statBlocks]. unfold Perf.statBlock, Perf.avgTime, div64.
  destruct (Z.eqb_spec (Perf.count st) 0) as [? | _]; [done |].
  rewrite Hrest. by eexists.
Qed.

(** Whatever the order in which [range] visits the statistics, both
    prompts are built: a path in the map has been counted at least once. *)
Lemma prompts_defined logs kvsLogs kvsPerf :
  Z.of_nat (List.length logs) <= MaxInt64 ->
  kvsLogs ≡ₚ map_to_list (Logs.aggregate logs) ->
  kvsPerf ≡ₚ map_to_list (Perf.aggregate logs) ->
  is_Some (logsPrompt kvsLogs logs) /\ is_Some (perfPrompt kvsPerf).
Proof.
  intros Hlen HpL HpP. split.
  - unfold logsPrompt.
    destruct (logs_statLines_defined kvsLogs) as [lines ->]; [| by eexists].
    apply Forall_forall. intros [p st] Hin. cbn [snd].
    rewrite HpL in Hin. apply elem_of_map_to_list in Hin.
    pose proof (logs_aggregate_ok logs Hlen p) as Hok.
    rewrite Hin in Hok. destruct Hok as (Hne & Hc & _).
    rewrite Hc. destruct (on p logs); [done | simpl; lia].
  - unfold perfPrompt.
    destruct (perf_statBlocks_defined kvsPerf) as [blocks ->]; [| by eexists].
    apply Forall_forall. intros [p st] Hin. cbn [snd].
    rewrite HpP in Hin. apply elem_of_map_to_list in Hin.
    pose proof (perf_aggregate_ok logs Hlen p) as Hok.
    rewrite Hin in Hok. destruct Hok as (Hne & Hc & _).
    rewrite Hc. destruct (on p logs); [done | simpl; lia].
Qed.

(** ** strings: single-byte search and removal *)

Lemma HasPrefix_single s x :
  Strings.HasPrefix s [x] = match s with c :: _ => Ascii.eqb c x | [] => false end.
Proof.
  destruct s as [| c s]; simpl; [reflexivity |].
  destruct s; apply andb_true_r.
Qed.

Lemma ReplaceAll_single_empty s x :
  Strings.ReplaceAll s [x] [] = filter (fun c => c <> x) s.
Proof.
  unfold Strings.ReplaceAll.
  induction s as [| c s IH]; [reflexivity |].
  cbn [Strings.replaceFrom]. rewrite HasPrefix_single.
  destruct (Ascii.eqb_spec c x) as [-> | Hne]; simpl.
  - rewrite filter_cons_False by (intros Hc; apply Hc; reflexivity). exact IH.
  - rewrite filter_cons_True by exact Hne. f_equal. exact IH.
Qed.

(** Nothing is replaced where the first byte of [old] does not occur. *)
Lemma ReplaceAll_absent s x old new :
  x ∉ s -> Strings.ReplaceAll s (x :: old) new = s.
Proof.
  unfold Strings.ReplaceAll.
  induction s as [| c s IH]; intros Hx; [reflexivity |].
  apply not_elem_of_cons in Hx as [Hne Hx].
  cbn [Strings.replaceFrom Strings.HasPrefix].
  destruct (Ascii.eqb_spec c x) as [-> | _]; [done |].
  simpl. f_equal. apply IH, Hx.
Qed.

Lemma filter_ne_absent (x : ascii) (s : gostring) : x ∉ filter (fun c => c <> x) s.
Proof. rewrite list_elem_of_filter. intros [Hne _]. apply Hne. reflexivity. Qed.

Lemma filter_ne_id (x : ascii) (s : gostring) : x ∉ s -> filter (fun c => c <> x) s = s.
Proof.
  induction s as [| c s IH]; intros Hx; [reflexivity |].
  apply not_elem_of_cons in Hx as [Hne Hx].
  rewrite filter_cons_True by (intros ->; done). f_equal. apply IH, Hx.
Qed.

Lemma stripFences_filter response :
  stripFences response = filter (fun c => c <> backtick) response.
Proof.
  unfold stripFences.
  change (str "`") with [backtick].
  change (str "```json") with (backtick :: str "``json").
  change (str "```") with (backtick :: str "``").
  rewrite ReplaceAll_single_empty.
  rewrite (ReplaceAll_absent (filter _ response)) by apply filter_ne_absent.
  rewrite ReplaceAll_absent by apply filter_ne_absent. reflexivity.
Qed.

Lemma Index_single_first pre x post :
  x ∉ pre -> Strings.Index (pre ++ x :: post) [x] = Z.of_nat (List.length pre).
Proof.
  induction pre as [| c pre IH]; intros Hx.
  - cbn [app Strings.Index]. rewrite HasPrefix_single, Ascii.eqb_refl. reflexivity.
  - apply not_elem_of_cons in Hx as [Hne Hx].
    change ((c :: pre) ++ x :: post) with (c :: (pre ++ x :: post)).
    cbn [Strings.Index]. rewrite HasPrefix_single.
    destruct (Ascii.eqb_spec c x) as [-> | _]; [done |].
    rewrite (IH Hx).
    destruct (Z.ltb_spec (Z.of_nat (List.length pre)) 0); [lia |].
    change (List.length (c :: pre)) with (Datatypes.S (List.length pre)). lia.
Qed.

Lemma Index_single_none s x : x ∉ s -> Strings.Index s [x] = -1.
Proof.
  induction s as [| c s IH]; intros Hx; [reflexivity |].
  apply not_elem_of_cons in Hx as [Hne Hx].
  cbn [Strings.Index]. rewrite HasPrefix_single.
  destruct (Ascii.eqb_spec c x) as [-> | _]; [done |].
  rewrite (IH Hx). reflexivity.
Qed.

Lemma LastIndex_single_none s x : x ∉ s -> Strings.LastIndex s [x] = -1.
Proof.
  induction s as [| c s IH]; intros Hx; [reflexivity |].
  apply not_elem_of_cons in Hx as [Hne Hx].
  cbn [Strings.LastIndex]. rewrite (IH Hx), HasPrefix_single. simpl.
  destruct (Ascii.eqb_spec c x) as [-> | _]; [done | reflexivity].
Qed.

Lemma LastIndex_single_last pre x post :
  x ∉ post -> Strings.LastIndex (pre ++ x :: post) [x] = Z.of_nat (List.length pre).
Proof.
  intros Hx. induction pre as [| c pre IH].
  - cbn [app Strings.LastIndex].
    rewrite (LastIndex_single_none _ _ Hx), HasPrefix_single, Ascii.eqb_refl.
    reflexivity.
  - change ((c :: pre) ++ x :: post) with (c :: (pre ++ x :: post)).
    cbn [Strings.LastIndex]. rewrite IH.
    destruct (Z.leb_spec 0 (Z.of_nat (List.length pre))); [| lia].
    change (List.length (c :: pre)) with (Datatypes.S (List.length pre)). lia.
Qed.

(** Where a byte occurs, it has a first and a last occurrence. *)
Lemma split_first (x : ascii) (s : gostring) :
  x ∈ s -> exists pre post, s = pre ++ x :: post /\ x ∉ pre.
Proof.
  induction s as [| c s IH]; intros Hx; [by apply elem_of_nil in Hx |].
  destruct (decide (c = x)) as [-> | Hne].
  - exists [], s. split; [reflexivity | apply not_elem_of_nil].
  - apply elem_of_cons in Hx as [-> | Hx]; [done |].
    destruct (IH Hx) as (pre & post & -> & Hpre).
    exists (c :: pre), post. split; [reflexivity |].
    apply not_elem_of_cons. split; [congruence | exact Hpre].
Qed.

Lemma split_last (x : ascii) (s : gostring) :
  x ∈ s -> exists pre post, s = pre ++ x :: post /\ x ∉ post.
Proof.
  induction s as [| c s IH]; intros Hx; [by apply elem_of_nil in Hx |].
  destruct (decide (x ∈ s)) as [Hin | Hnin].
  - destruct (IH Hin) as (pre & post & -> & Hpost).
    exists (c :: pre), post. split; [reflexivity | exact Hpost].
  - apply elem_of_cons in Hx as [-> | Hx]; [| done].
    exists [], s. split; [reflexivity | exact Hnin].
Qed.

(** ** Response Normalizer *)

Lemma clean_brace_pair response pre mid post :
  stripFences response = pre ++ lbrace :: mid ++ rbrace :: post ->
  lbrace ∉ pre -> rbrace ∉ post ->
  cleanJSONResponse response = Some (lbrace :: mid ++ [rbrace]).
Proof.
  intros Hc Hpre Hpost. unfold cleanJSONResponse. cbv zeta.
  fold (stripFences response). rewrite Hc.
  change (str "{") with [lbrace]. change (str "}") with [rbrace].
  rewrite (Index_single_first pre lbrace _ Hpre).
  replace (pre ++ lbrace :: mid ++ rbrace :: post)
    with ((pre ++ lbrace :: mid) ++ rbrace :: post)
    by (rewrite <- app_assoc; reflexivity).
  rewrite (LastIndex_single_last _ rbrace post Hpost).
  rewrite length_app. cbn [List.length].
  set (n := List.length pre). set (k := List.length mid).
  destruct (Z.geb_spec (Z.of_nat n) 0); [| lia].
  destruct (Z.gtb_spec (Z.of_nat (n + Datatypes.S k)) (Z.of_nat n)); [| lia].
  cbn [andb]. unfold Strings.slice.
  rewrite !length_app. cbn [List.length]. fold n k.
  destruct (Z.leb_spec 0 (Z.of_nat n)); [| lia].
  destruct (Z.leb_spec (Z.of_nat n) (Z.of_nat (n + Datatypes.S k) + 1)); [| lia].
  destruct (Z.leb_spec (Z.of_nat (n + Datatypes.S k) + 1)
              (Z.of_nat (n + Datatypes.S k + Datatypes.S (List.length post))));
    [| lia].
  cbn [andb]. f_equal.
  rewrite Nat2Z.id.
  replace (Z.to_nat (Z.of_nat (n + Datatypes.S k) + 1 - Z.of_nat n))
    with (Datatypes.S (Datatypes.S k)) by lia.
  rewrite <- app_assoc. unfold n. rewrite drop_app_length.
  cbn [app take]. f_equal.
  replace (Datatypes.S k) with (k + 1)%nat by lia. unfold k.
  rewrite take_app_add. reflexivity.
Qed.

Lemma clean_no_brace_pair response :
  (forall pre mid post,
     stripFences response <> pre ++ lbrace :: mid ++ rbrace :: post) ->
  cleanJSONResponse response = Some (stripFences response).
Proof.
  intros Hno. unfold cleanJSONResponse. cbv zeta.
  fold (stripFences response).
  change (str "{") with [lbrace]. change (str "}") with [rbrace].
  set (c := stripFences response) in *.
  destruct (decide (lbrace ∈ c)) as [Hin | Hnin].
  2: { rewrite (Index_single_none _ _ Hnin). reflexivity. }
  destruct (split_first _ _ Hin) as (pre & rest & Hc & Hpre).
  destruct (decide (rbrace ∈ rest)) as [Hr | Hr].
  { destruct (split_last _ _ Hr) as (mid & post & -> & _).
    exfalso. exact (Hno _ _ _ Hc). }
  rewrite Hc. rewrite (Index_single_first pre lbrace rest Hpre).
  destruct (decide (rbrace ∈ pre)) as [Hp | Hp].
  - destruct (split_last _ _ Hp) as (p1 & p2 & -> & Hp2).
    rewrite <- app_assoc. cbn [app].
    rewrite LastIndex_single_last.
    + rewrite length_app. cbn [List.length].
      destruct (Z.gtb_spec (Z.of_nat (List.length p1))
                  (Z.of_nat (List.length p1 + Datatypes.S (List.length p2))));
        [lia |].
      rewrite andb_false_r. reflexivity.
    + rewrite elem_of_app, elem_of_cons. intros [? | [? | ?]]; done.
  - rewrite LastIndex_single_none.
    + destruct (Z.gtb_spec (-1) (Z.of_nat (List.length pre))); [lia |].
      rewrite andb_false_r. reflexivity.
    + rewrite elem_of_app, elem_of_cons. intros [? | [? | ?]]; done.
Qed.

(** A text either has a brace pair, read from its first [{] to its last
    [}], or has none at all. *)
Lemma brace_pair_cases (c : gostring) :
  (exists pre mid post,
     c = pre ++ lbrace :: mid ++ rbrace :: post
     /\ (lbrace ∉ pre) /\ (rbrace ∉ post))
  \/ (forall pre mid post, c <> pre ++ lbrace :: mid ++ rbrace :: post).
Proof.
  destruct (decide (lbrace ∈ c)) as [Hin | Hnin].
  - destruct (split_first _ _ Hin) as (pre & rest & -> & Hpre).
    destruct (decide (rbrace ∈ rest)) as [Hr | Hr].
    + destruct (split_last _ _ Hr) as (mid & post & -> & Hpost).
      left. exists pre, mid, post. auto.
    + right. intros pre' mid' post' Heq.
      assert (Hl : lbrace ∈ pre ++ lbrace :: rest)
        by (rewrite elem_of_app, elem_of_cons; auto).
      (* the first brace of the right-hand side is at or before its [{] *)
      destruct (decide (lbrace ∈ pre')) as [Hp' | Hp'].
      * destruct (split_first _ _ Hp') as (q1 & q2 & -> & Hq1).
        rewrite <- app_assoc in Heq. cbn [app] in Heq.
        pose proof (f_equal (fun s => Strings.Index s [lbrace]) Heq) as Hi.
        cbn beta in Hi.
        rewrite (Index_single_first pre lbrace _ Hpre) in Hi.
        rewrite (Index_single_first q1 lbrace _ Hq1) in Hi.
        apply Nat2Z.inj in Hi.
        pose proof (f_equal (drop (List.length pre)) Heq) as Hd.
        rewrite drop_app_length in Hd. rewrite Hi, drop_app_length in Hd.
        injection Hd as ->. apply Hr.
        rewrite !elem_of_app, !elem_of_cons, elem_of_app, elem_of_cons. auto 6.
      * pose proof (f_equal (fun s => Strings.Index s [lbrace]) Heq) as Hi.
        cbn beta in Hi.
        rewrite (Index_single_first pre lbrace _ Hpre) in Hi.
        rewrite (Index_single_first pre' lbrace _ Hp') in Hi.
        apply Nat2Z.inj in Hi.
        pose proof (f_equal (drop (List.length pre)) Heq) as Hd.
        rewrite drop_app_length in Hd. rewrite Hi, drop_app_length in Hd.
        injection Hd as ->. apply Hr.
        rewrite elem_of_app, elem_of_cons. auto.
  - right. intros pre mid post ->. apply Hnin.
    rewrite elem_of_app, elem_of_cons. auto.
Qed.

(** What [cleanJSONResponse] computes: the backticks are removed; then, if
    what is left has a [{] and a [}] after the first [{], the result is the
    inclusive substring from the first [{] to the last [}], and otherwise
    what is left, unchanged. *)
Lemma cleanJSONResponse_extracts (response : gostring) :
  let cleaned := filter (fun c => c <> backtick) response in
  stripFences response = cleaned
  /\ (forall pre mid post,
        cleaned = pre ++ lbrace :: mid ++ rbrace :: post ->
        lbrace ∉ pre -> rbrace ∉ post ->
        cleanJSONResponse response = Some (lbrace :: mid ++ [rbrace]))
  /\ ((forall pre mid post,
         cleaned <> pre ++ lbrace :: mid ++ rbrace :: post) ->
      cleanJSONResponse response = Some cleaned).
Proof.
  intros cleaned.
  pose proof (stripFences_filter response) as Hs. fold cleaned in Hs.
  split; [exact Hs |]. split.
  - intros pre mid post Hc. apply clean_brace_pair. rewrite Hs. exact Hc.
  - intros Hno. rewrite <- Hs. apply clean_no_brace_pair. rewrite Hs. exact Hno.
Qed.

Example cleanJSONResponse_first_to_last :
  cleanJSONResponse (str "Sure: `{x}` }. {") = Some (str "{x} }").
Proof. vm_compute. reflexivity. Qed.

(** The word [json] brings no brace. *)
Lemma fence_word_no_brace_pair (body : gostring) :
  (forall pre mid post, body <> pre ++ lbrace :: mid ++ rbrace :: post) ->
  forall pre mid post,
    str "json" ++ body <> pre ++ lbrace :: mid ++ rbrace :: post.
Proof.
  intros Hno pre mid post Heq.
  let v := eval vm_compute in (str "json") in
    change (str "json") with v in Heq.
  destruct pre as [| c1 [| c2 [| c3 [| c4 pre]]]]; cbn [app] in Heq;
    try (injection Heq; intros; discriminate).
  injection Heq as _ _ _ _ Heq. exact (Hno _ _ _ Heq).
Qed.

Lemma replaceFrom_absent x old new (body rest : gostring) :
  x ∉ body ->
  Strings.replaceFrom (x :: old) new 0 (body ++ rest)
  = body ++ Strings.replaceFrom (x :: old) new 0 rest.
Proof.
  induction body as [| c body IH]; intros Hx; [reflexivity |].
  apply not_elem_of_cons in Hx as [Hne Hx].
  cbn [app Strings.replaceFrom Strings.HasPrefix].
  destruct (Ascii.eqb_spec c x) as [-> | _]; [done |].
  cbn [andb]. rewrite (IH Hx). reflexivity.
Qed.

Lemma HasPrefix_app (prefix rest : gostring) :
  Strings.HasPrefix (prefix ++ rest) prefix = true.
Proof.
  induction prefix as [| c prefix IH]; [by destruct rest |].
  cbn [app Strings.HasPrefix]. rewrite Ascii.eqb_refl. exact IH.
Qed.

Lemma replaceFrom_skip old new (passed rest : gostring) :
  Strings.replaceFrom old new (List.length passed) (passed ++ rest)
  = Strings.replaceFrom old new 0 rest.
Proof.
  induction passed as [| c passed IH]; [reflexivity |].
  cbn [app List.length Strings.replaceFrom]. exact IH.
Qed.

Lemma replaceFrom_prefix old new (rest : gostring) :
  old <> [] ->
  Strings.replaceFrom old new 0 (old ++ rest)
  = new ++ Strings.replaceFrom old new 0 rest.
Proof.
  destruct old as [| c old]; [done |]. intros _.
  change ((c :: old) ++ rest) with (c :: (old ++ rest)).
  cbn [Strings.replaceFrom].
  change (c :: (old ++ rest)) with ((c :: old) ++ rest).
  rewrite HasPrefix_app. cbn [List.length Nat.pred].
  rewrite replaceFrom_skip. reflexivity.
Qed.

(** C4. The fence literals are never removed as such. [cleanJSONResponse]
    takes the backticks out first (line 87), so the replacements of
    [```json] and [```] that follow (lines 88 and 89) find nothing and
    change nothing, and the word [json] of a fence stays in the text. A
    fenced text with no brace pair, such as [```json [1,2] ```], comes back
    as [json [1,2] ], where removing the fences as specified gives
    [ [1,2] ]. The two examples of the specification pass all the same: the
    brace pair of the first hides the word, and the second has no fence. *)
Theorem cleanJSONResponse_keeps_fence_word :
  cleanJSONResponse (str "```json [1,2] ```") = Some (str "json [1,2] ")
  /\ removeFences (str "```json [1,2] ```") = str " [1,2] "
  /\ (forall response : gostring,
        let cleaned := Strings.ReplaceAll response (str "`") [] in
        Strings.ReplaceAll cleaned (str "```json") [] = cleaned
        /\ Strings.ReplaceAll cleaned (str "```") [] = cleaned)
  /\ (forall body : gostring,
        backtick ∉ body ->
        (forall pre mid post,
           body <> pre ++ lbrace :: mid ++ rbrace :: post) ->
        cleanJSONResponse (str "```json" ++ body ++ str "```")
        = Some (str "json" ++ body)
        /\ removeFences (str "```json" ++ body ++ str "```") = body)
  /\ cleanJSONResponse
       (str "```json" ++ [nl] ++ [lbrace; dquote] ++ str "a" ++ [dquote]
        ++ str ":1" ++ [rbrace; nl] ++ str "```")
     = Some ([lbrace; dquote] ++ str "a" ++ [dquote] ++ str ":1" ++ [rbrace])
  /\ cleanJSONResponse (str "no json here") = Some (str "no json here").
Proof.
  split; [vm_compute; reflexivity |].
  split; [vm_compute; reflexivity |].
  split; [| split; [| split; vm_compute; reflexivity]].
  - intros response cleaned. unfold cleaned.
    change (str "`") with [backtick].
    change (str "```json") with (backtick :: str "``json").
    change (str "```") with (backtick :: str "``").
    rewrite ReplaceAll_single_empty.
    split; apply ReplaceAll_absent, filter_ne_absent.
  - intros body Hb Hno.
    assert (Hs : stripFences (str "```json" ++ body ++ str "```")
                 = str "json" ++ body).
    { rewrite stripFences_filter, !filter_app, (filter_ne_id _ body Hb).
      assert (H1 : filter (fun c => c <> backtick) (str "```json") = str "json")
        by (vm_compute; reflexivity).
      assert (H2 : filter (fun c => c <> backtick) (str "```") = [])
        by (vm_compute; reflexivity).
      rewrite H1, H2, app_nil_r. reflexivity. }
    split.
    + rewrite <- Hs. apply clean_no_brace_pair. rewrite Hs.
      apply fence_word_no_brace_pair, Hno.
    + unfold removeFences, Strings.ReplaceAll.
      rewrite replaceFrom_prefix by discriminate. cbn [app].
      change (str "```json") with (backtick :: str "``json").
      rewrite (replaceFrom_absent _ _ _ _ _ Hb).
      replace (Strings.replaceFrom (backtick :: str "``json") [] 0 (str "```"))
        with (str "```") by (vm_compute; reflexivity).
      change (str "```") with (backtick :: str "``") at 1.
      rewrite (replaceFrom_absent _ _ _ _ _ Hb).
      replace (Strings.replaceFrom (backtick :: str "``") [] 0 (str "```"))
        with (@nil ascii) by (vm_compute; reflexivity).
      rewrite app_nil_r.
      change (Strings.replaceFrom (str "`") [] 0 body)
        with (Strings.ReplaceAll body [backtick] []).
      rewrite ReplaceAll_single_empty. apply filter_ne_id, Hb.
Qed.

(** C9. [cleanJSONResponse] is idempotent: it always returns a text, and
    applied to that text it returns it unchanged. *)
Theorem cleanJSONResponse_idempotent (s : gostring) :
  exists r, cleanJSONResponse s = Some r
            /\ cleanJSONResponse r = Some r
            /\ (backtick ∉ r)
            /\ ((exists mid, r = lbrace :: mid ++ [rbrace])
                \/ (forall pre mid post,
                      r <> pre ++ lbrace :: mid ++ rbrace :: post)).
Proof.
  pose proof (stripFences_filter s) as Hs.
  set (c := filter (fun c => c <> backtick) s) in *.
  assert (Hb : backtick ∉ c) by apply filter_ne_absent.
  destruct (brace_pair_cases c) as [(pre & mid & post & Hc & Hpre & Hpost) | Hno].
  - exists (lbrace :: mid ++ [rbrace]).
    assert (Hbr : backtick ∉ lbrace :: mid ++ [rbrace]).
    { intros Hin. apply Hb. rewrite Hc.
      rewrite elem_of_app, !elem_of_cons, elem_of_app, elem_of_cons.
      apply elem_of_cons in Hin as [Hin | Hin]; [auto |].
      apply elem_of_app in Hin as [Hin | Hin]; [auto 6 |].
      apply list_elem_of_singleton in Hin. auto 6. }
    split; [| split; [| split]].
    + apply (clean_brace_pair s pre mid post); [rewrite Hs; exact Hc | done | done].
    + apply (clean_brace_pair _ [] mid []).
      * rewrite stripFences_filter. rewrite (filter_ne_id _ _ Hbr). reflexivity.
      * apply not_elem_of_nil.
      * apply not_elem_of_nil.
    + exact Hbr.
    + left. exists mid. reflexivity.
  - exists c.
    assert (Hcc : stripFences c = c)
      by (rewrite stripFences_filter; apply filter_ne_id, Hb).
    split; [| split; [| split]].
    + rewrite <- Hs. apply clean_no_brace_pair. rewrite Hs. exact Hno.
    + rewrite <- Hcc at 2. apply clean_no_brace_pair. rewrite Hcc. exact Hno.
    + exact Hb.
    + right. exact Hno.
Qed.

(** ** Prompt Builder *)

Lemma eventFormat_line e :
  Fmt.Sprintf Logs.eventFormat
    [Fmt.S (Timestamp e); Fmt.S (Level e); Fmt.S (Path e);
     Fmt.D (Duration e); Fmt.D (Status e)]
  = eventLine e.
Proof. reflexivity. Qed.

Lemma notable_test e :
  (Status e >=? 400)
  || bool_decide (Level e = str "error")
  || bool_decide (Level e = str "warning")
  || (Duration e >? 1000)
  = bool_decide (notable e).
Proof.
  unfold notable.
  destruct (Z.geb_spec (Status e) 400), (Z.gtb_spec (Duration e) 1000);
    repeat case_bool_decide; simpl; try reflexivity; exfalso;
    intuition lia.
Qed.

Lemma logs_step_summary st e :
  snd (Logs.step st e)
  = snd st ++ (if bool_decide (notable e) then eventLine e else []).
Proof.
  destruct st as [m summary]. unfold Logs.step. cbn [snd].
  rewrite notable_test, eventFormat_line.
  destruct (bool_decide (notable e)); [reflexivity |].
  symmetry. apply app_nil_r.
Qed.

Lemma logs_loop_summary logs :
  snd (Logs.loop logs)
  = Logs.header
    ++ concat (map (fun e => if bool_decide (notable e) then eventLine e else [])
                 logs).
Proof.
  induction logs as [| e logs IH] using rev_ind.
  - symmetry. apply app_nil_r.
  - rewrite logs_loop_snoc, logs_step_summary, IH.
    rewrite map_app, concat_app. cbn [map concat].
    rewrite app_nil_r, app_assoc. reflexivity.
Qed.

Lemma Sprintf_literal_prefix pre format args :
  "%"%char ∉ pre ->
  Fmt.Sprintf (pre ++ format) args = pre ++ Fmt.Sprintf format args.
Proof.
  induction pre as [| c pre IH]; intros Hpre; [reflexivity |].
  apply not_elem_of_cons in Hpre as [Hne Hpre].
  cbn [app Fmt.Sprintf].
  destruct (Ascii.eqb_spec c "%") as [-> | _]; [done |].
  cbn [negb]. f_equal. apply IH, Hpre.
Qed.

Lemma logsPromptFormat_split :
  logsPromptFormat = logsInstruction ++ str "%s"
  /\ "%"%char ∉ logsInstruction.
Proof.
  split; [vm_compute; reflexivity |].
  apply (bool_decide_unpack _). vm_compute. reflexivity.
Qed.

Lemma Sprintf_s x : Fmt.Sprintf (str "%s") [Fmt.S x] = x.
Proof. cbn. apply app_nil_r. Qed.

Lemma logsPrompt_eq kvs logs :
  logsPrompt kvs logs
  = lines ← Logs.statLines kvs;
    Some (logsInstruction
          ++ snd (Logs.loop logs)
          ++ ([nl] ++ str "Path Statistics:" ++ [nl]) ++ lines).
Proof.
  unfold logsPrompt. destruct (Logs.statLines kvs) as [lines |]; [| reflexivity].
  cbn [mbind option_bind]. f_equal.
  destruct logsPromptFormat_split as [-> Hpct].
  rewrite (Sprintf_literal_prefix _ _ _ Hpct), Sprintf_s, <- app_assoc.
  reflexivity.
Qed.

(** C5. The notable-events section that the loop of AnalyzeLogs writes
    after the header holds, in input order, one line for each entry with
    status at least 400, level ["error"], level ["warning"] or duration
    above 1000, and nothing for any other entry; the line renders the
    timestamp, level, path, duration and status in that order. The prompt
    of AnalyzeLogs is the fixed instruction, this header and section, the
    path-statistics heading and the statistics lines. *)
Theorem notable_events_section (logs : list LogEntry) :
  let events :=
    concat (map (fun e =>
                   if bool_decide
                        (400 <= Status e \/ Level e = str "error"
                         \/ Level e = str "warning" \/ 1000 < Duration e)
                   then
                     str "- " ++ Timestamp e ++ str " [" ++ Level e
                     ++ str "] " ++ Path e ++ str " (Duration: "
                     ++ Strconv.FormatInt (Duration e)
                     ++ str "ms, Status: "
                     ++ Strconv.FormatInt (Status e) ++ str ")" ++ [nl]
                   else []) logs) in
  snd (Logs.loop logs) = (str "Log Summary:" ++ [nl; nl]) ++ events
  /\ forall kvs,
       logsPrompt kvs logs
       = lines ← Logs.statLines kvs;
         Some (logsInstruction
               ++ ((str "Log Summary:" ++ [nl; nl]) ++ events)
               ++ ([nl] ++ str "Path Statistics:" ++ [nl]) ++ lines).
Proof.
  cbv zeta. pose proof (logs_loop_summary logs) as Hsum.
  unfold notable, eventLine, Logs.header in Hsum.
  split; [exact Hsum |].
  intros kvs. rewrite logsPrompt_eq, Hsum. reflexivity.
Qed.

(** The scenario of the specification: of the three sample entries only
    the one for [/api/slow] is notable. *)
Example sample_notable_events :
  snd (Logs.loop sampleLogs)
  = str "Log Summary:" ++ [nl; nl]
    ++ str "- 2024-04-06T10:00:00Z [info] /api/slow (Duration: 2000ms, Status: 500)"
    ++ [nl].
Proof. vm_compute. reflexivity. Qed.

Example sample_statistics :
  Logs.aggregate sampleLogs !! str "/api/users"
  = Some {| Logs.count := 2; Logs.totalTime := 400; Logs.errors := 0 |}
  /\ Logs.aggregate sampleLogs !! str "/api/slow"
     = Some {| Logs.count := 1; Logs.totalTime := 2000; Logs.errors := 1 |}
  /\ Logs.statLine (str "/api/slow")
       {| Logs.count := 1; Logs.totalTime := 2000; Logs.errors := 1 |}
     = Some (str "- /api/slow: 1 requests, avg time 2000ms, error rate 100.0%"
             ++ [nl]).
Proof. repeat split; vm_compute; reflexivity. Qed.

Lemma errorRate_quarter :
  Logs.errorRate 1 4 = S754_finite false 7036874417766400 (-48).
Proof. vm_compute. reflexivity. Qed.

(** C8. With [count = 4] and [errors = 1] the error rate is rendered as
    ["25.0"]: by the verb [%.1f] itself, in the path-statistics line of the
    log-analysis prompt and in the error-rate line of the
    performance-analysis prompt, which both format
    [errors / count * 100] with that verb. *)
Theorem error_rate_quarter_renders_25_0 :
  Float64.Format1 (Logs.errorRate 1 4) = str "25.0"
  /\ (forall path total,
        Logs.statLine path
          {| Logs.count := 4; Logs.totalTime := total; Logs.errors := 1 |}
        = Some (str "- " ++ path ++ str ": 4 requests, avg time "
                ++ Strconv.FormatInt (wrap64 (Z.quot total 4))
                ++ str "ms, error rate 25.0%" ++ [nl]))
  /\ (forall path total hi lo,
        Perf.statBlock path
          {| Perf.count := 4; Perf.totalTime := total; Perf.maxTime := hi;
             Perf.minTime := lo; Perf.errors := 1 |}
        = Some ((str "Endpoint: " ++ path ++ [nl])
                ++ (str "- Requests: 4" ++ [nl])
                ++ (str "- Avg Time: "
                    ++ Strconv.FormatInt (wrap64 (Z.quot total 4))
                    ++ str "ms" ++ [nl])
                ++ (str "- Min Time: " ++ Strconv.FormatInt lo
                    ++ str "ms" ++ [nl])
                ++ (str "- Max Time: " ++ Strconv.FormatInt hi
                    ++ str "ms" ++ [nl])
                ++ (str "- Error Rate: 25.0%" ++ [nl; nl])))
  /\ (forall path st avg,
        div64 (Logs.totalTime st) (Logs.count st) = Some avg ->
        Logs.statLine path st
        = Some (str "- " ++ path ++ str ": "
                ++ Strconv.FormatInt (Logs.count st)
                ++ str " requests, avg time " ++ Strconv.FormatInt avg
                ++ str "ms, error rate "
                ++ Float64.Format1 (Logs.errorRate (Logs.errors st) (Logs.count st))
                ++ str "%" ++ [nl]))
  /\ (forall path st avg,
        Perf.avgTime st = Some avg ->
        Perf.statBlock path st
        = Some ((str "Endpoint: " ++ path ++ [nl])
                ++ (str "- Requests: " ++ Strconv.FormatInt (Perf.count st)
                    ++ [nl])
                ++ (str "- Avg Time: " ++ Strconv.FormatInt avg
                    ++ str "ms" ++ [nl])
                ++ (str "- Min Time: " ++ Strconv.FormatInt (Perf.minTime st)
                    ++ str "ms" ++ [nl])
                ++ (str "- Max Time: " ++ Strconv.FormatInt (Perf.maxTime st)
                    ++ str "ms" ++ [nl])
                ++ (str "- Error Rate: "
                    ++ Float64.Format1
                         (Logs.errorRate (Perf.errors st) (Perf.count st))
                    ++ str "%" ++ [nl; nl]))).
Proof.
  split; [vm_compute; reflexivity |].
  split; [| split; [| split]].
  - intros path total. unfold Logs.statLine. cbn [Logs.count Logs.totalTime Logs.errors].
    rewrite errorRate_quarter. reflexivity.
  - intros path total hi lo. unfold Perf.statBlock, Perf.avgTime.
    cbn [Perf.count Perf.totalTime Perf.errors Perf.minTime Perf.maxTime].
    rewrite errorRate_quarter. reflexivity.
  - intros path st avg Havg. unfold Logs.statLine. rewrite Havg.
    reflexivity.
  - intros path st avg Havg. unfold Perf.statBlock. rewrite Havg.
    reflexivity.
Qed.

(** ** Remote Analysis Client *)

(** Every status other than 200 ends the call with the API error, before
    the body is decoded. *)
Lemma callGeminiAPI_not_ok Do Unmarshal s prompt status body :
  Do (apiKey s) prompt = Response status (inr body) ->
  status <> StatusOK ->
  callGeminiAPI Do Unmarshal s prompt
  = Err (str "API error (status " ++ Strconv.FormatInt status ++ str "): "
         ++ body).
Proof.
  intros Hdo Hne. unfold callGeminiAPI. rewrite Hdo.
  destruct (Z.eqb_spec status StatusOK) as [? | _]; [done |].
  cbn [negb]. f_equal. cbn -[Strconv.FormatInt app].
  rewrite app_nil_r. reflexivity.
Qed.

Lemma callGeminiAPI_ok Do Unmarshal s prompt body :
  Do (apiKey s) prompt = Response StatusOK (inr body) ->
  callGeminiAPI Do Unmarshal s prompt = extractText Unmarshal body.
Proof. intros Hdo. unfold callGeminiAPI. rewrite Hdo. reflexivity. Qed.

(** C7. A response whose status is outside the 2xx range makes
    [callGeminiAPI] fail with an error that carries the status code and the
    response body verbatim, whatever the decoder would make of the body;
    the result depends on decoding the body, and a text is returned, only
    for a response whose status is in the 2xx range. *)
Theorem callGeminiAPI_status_gate :
  (forall Do Unmarshal s prompt status body,
     Do (apiKey s) prompt = Response status (inr body) ->
     ~ (200 <= status <= 299) ->
     callGeminiAPI Do Unmarshal s prompt
     = Err (str "API error (status " ++ Strconv.FormatInt status
            ++ str "): " ++ body))
  /\ (forall Do Unmarshal1 Unmarshal2 s prompt,
        callGeminiAPI Do Unmarshal1 s prompt
        <> callGeminiAPI Do Unmarshal2 s prompt ->
        exists status body,
          Do (apiKey s) prompt = Response status (inr body)
          /\ 200 <= status <= 299)
  /\ (forall Do Unmarshal s prompt text,
        callGeminiAPI Do Unmarshal s prompt = Ok text ->
        exists status body,
          Do (apiKey s) prompt = Response status (inr body)
          /\ 200 <= status <= 299
          /\ extractText Unmarshal body = Ok text).
Proof.
  split; [| split].
  - intros Do U s prompt status body Hdo Hst.
    apply callGeminiAPI_not_ok; [exact Hdo |]. unfold StatusOK. lia.
  - intros Do U1 U2 s prompt Hdiff.
    destruct (Do (apiKey s) prompt) as [err | status [err | body]] eqn:Hdo;
      try (exfalso; apply Hdiff; unfold callGeminiAPI; rewrite Hdo;
           reflexivity).
    destruct (Z.eq_dec status StatusOK) as [-> | Hne].
    + exists StatusOK, body. unfold StatusOK. split; [reflexivity | lia].
    + exfalso. apply Hdiff.
      rewrite !(callGeminiAPI_not_ok _ _ _ _ _ _ Hdo Hne). reflexivity.
  - intros Do U s prompt text Ht.
    destruct (Do (apiKey s) prompt) as [err | status [err | body]] eqn:Hdo;
      try (unfold callGeminiAPI in Ht; rewrite Hdo in Ht; discriminate Ht).
    destruct (Z.eq_dec status StatusOK) as [-> | Hne].
    + exists StatusOK, body. unfold StatusOK. split; [reflexivity |].
      split; [lia |]. rewrite <- Ht. symmetry.
      apply callGeminiAPI_ok, Hdo.
    + rewrite (callGeminiAPI_not_ok _ _ _ _ _ _ Hdo Hne) in Ht. discriminate Ht.
Qed.

Lemma callGeminiAPI_status_gate_witness :
  ~ (200 <= 429 <= 299)
  /\ callGeminiAPI (fun _ _ => Response 429 (inr (str "quota exceeded")))
       (fun _ => inr []) (NewAnalyticsService (str "key")) (str "prompt")
     = Err (str "API error (status 429): quota exceeded").
Proof.
  assert (Hst : ~ (200 <= 429 <= 299)) by lia.
  split; [exact Hst |].
  exact (proj1 callGeminiAPI_status_gate
           (fun _ _ => Response 429 (inr (str "quota exceeded")))
           (fun _ => inr []) (NewAnalyticsService (str "key")) (str "prompt")
           429 (str "quota exceeded") eq_refl Hst).
Defined.

(** Statuses of the 2xx range other than 200 are errors too. *)
Example callGeminiAPI_created :
  callGeminiAPI (fun _ _ => Response 201 (inr (str "{}")))
    (fun _ => inr []) (NewAnalyticsService (str "key")) (str "prompt")
  = Err (str "API error (status 201): {}").
Proof. reflexivity. Qed.

(** The walk down the decoded reply. *)
Example extractText_reply :
  extractText
    (fun _ =>
       inr [(str "candidates",
             JArray [JObject [(str "content",
               JObject [(str "parts",
                 JArray [JObject [(str "text", JString (str "{}"))]])])]])])
    (str "body")
  = Ok (str "{}").
Proof. reflexivity. Qed.

Example extractText_panics :
  extractText (fun _ => inr [(str "candidates", JArray [JNull])]) (str "body")
  = Panics.
Proof. reflexivity. Qed.

(** ** The buffered writer over a bytes.Buffer *)

Lemma Flush_appends : appends Bufio.Flush [].
Proof.
  intros b Herr. unfold Bufio.Flush. rewrite Herr.
  destruct (Bufio.buf b) as [| c s] eqn:Hbuf.
  - exists b. rewrite app_nil_r. auto.
  - eexists. split; [reflexivity |]. split; [reflexivity |].
    unfold written. cbn [Bufio.wr Bufio.buf]. rewrite Hbuf, !app_nil_r.
    reflexivity.
Qed.

Lemma WriteByte_appends c : appends (Bufio.WriteByte c) [c].
Proof.
  intros b Herr. unfold Bufio.WriteByte. rewrite Herr.
  destruct (Bufio.Available b <=? 0).
  - destruct (Flush_appends b Herr) as (b' & -> & Herr' & Hw).
    eexists. split; [reflexivity |]. split; [exact Herr' |].
    unfold written in *. cbn [Bufio.wr Bufio.buf].
    rewrite app_assoc, Hw, app_nil_r. reflexivity.
  - eexists. split; [reflexivity |]. split; [exact Herr |].
    unfold written. cbn [Bufio.wr Bufio.buf]. apply app_assoc.
Qed.

Lemma WriteString_appends s : appends (Bufio.WriteString s) s.
Proof.
  induction s as [| c s IH]; intros b Herr.
  - exists b. cbn [Bufio.WriteString]. rewrite Herr, app_nil_r. auto.
  - cbn [Bufio.WriteString].
    destruct (WriteByte_appends c b Herr) as (b1 & -> & Herr1 & Hw1).
    destruct (IH b1 Herr1) as (b2 & -> & Herr2 & Hw2).
    exists b2. split; [reflexivity |]. split; [exact Herr2 |].
    rewrite Hw2, Hw1, <- app_assoc. reflexivity.
Qed.

Lemma skip_appends : appends Csv.skip [].
Proof. intros b Herr. exists b. rewrite app_nil_r. auto. Qed.

Lemma andThen_appends f g s t :
  appends f s -> appends g t -> appends (Csv.andThen f g) (s ++ t).
Proof.
  intros Hf Hg b Herr. unfold Csv.andThen.
  destruct (Hf b Herr) as (b1 & -> & Herr1 & Hw1).
  destruct (Hg b1 Herr1) as (b2 & -> & Herr2 & Hw2).
  exists b2. split; [reflexivity |]. split; [exact Herr2 |].
  rewrite Hw2, Hw1, <- app_assoc. reflexivity.
Qed.

Create HintDb appends.

#[local] Hint Resolve Flush_appends WriteByte_appends WriteString_appends
  skip_appends andThen_appends : appends.

(** ** The CSV writer *)

Lemma writeQuoted_appends field :
  appends (Csv.writeQuoted false field) (csv_escape field).
Proof.
  induction field as [| c field IH]; [apply skip_appends |].
  cbn [Csv.writeQuoted].
  change (csv_escape (c :: field))
    with ((if Ascii.eqb c dquote then [dquote; dquote] else [c])
          ++ csv_escape field).
  apply andThen_appends; [| exact IH].
  destruct (Ascii.eqb_spec c dquote) as [-> | _]; [auto with appends |].
  destruct (Ascii.eqb_spec c cr) as [-> | _]; [auto with appends |].
  destruct (Ascii.eqb_spec c nl) as [-> | _]; auto with appends.
Qed.

Lemma writeField_appends field :
  appends (Csv.writeField comma false field) (csv_field field).
Proof.
  unfold Csv.writeField, csv_field.
  destruct (Csv.fieldNeedsQuotes comma field); cbn [negb].
  - apply andThen_appends; [auto with appends |].
    apply andThen_appends; [apply writeQuoted_appends | auto with appends].
  - auto with appends.
Qed.

Lemma writeFields_appends_rest n record :
  appends (Csv.writeFields comma false (Datatypes.S n) record)
    (concat (map (fun f => comma :: csv_field f) record)).
Proof.
  revert n. induction record as [| field record IH]; intros n.
  - apply skip_appends.
  - cbn [Csv.writeFields map concat].
    apply andThen_appends; [| apply IH].
    change (comma :: csv_field field) with ([comma] ++ csv_field field).
    apply andThen_appends; [auto with appends | apply writeField_appends].
Qed.

Lemma Write_appends record :
  appends
    (Csv.andThen (Csv.writeFields comma false O record) (Bufio.WriteByte nl))
    (csv_line record).
Proof.
  unfold csv_line. apply andThen_appends; [| auto with appends].
  destruct record as [| field record]; [apply skip_appends |].
  cbn [Csv.writeFields].
  apply andThen_appends; [| apply writeFields_appends_rest].
  change (csv_field field) with ([] ++ csv_field field).
  apply andThen_appends; [apply skip_appends | apply writeField_appends].
Qed.

(** A healthy writer accepts any record: the write reports no error,
    leaves the writer healthy and adds the record's line. *)
Lemma Csv_Write_healthy cw record :
  healthy cw ->
  exists cw', Csv.Write cw record = (cw', None) /\ healthy cw'
              /\ written (Csv.w cw') = written (Csv.w cw) ++ csv_line record.
Proof.
  intros (Hcomma & Hcrlf & Herr). unfold Csv.Write.
  rewrite Hcomma, Hcrlf.
  change (negb (Csv.validDelim comma)) with false. cbv iota.
  destruct (Write_appends record (Csv.w cw) Herr) as (b' & -> & Herr' & Hw).
  eexists. split; [reflexivity |]. split; [| exact Hw].
  repeat split; assumption.
Qed.

Lemma writeRows_healthy logs : forall cw,
  healthy cw ->
  exists cw', writeRows cw logs = (cw', None) /\ healthy cw'
              /\ written (Csv.w cw')
                 = written (Csv.w cw) ++ concat (map (fun log => csv_line (csvRow log)) logs).
Proof.
  induction logs as [| log logs IH]; intros cw Hcw.
  - exists cw. rewrite app_nil_r. auto.
  - cbn [writeRows].
    destruct (Csv_Write_healthy cw (csvRow log) Hcw) as (cw1 & -> & Hcw1 & Hw1).
    destruct (IH cw1 Hcw1) as (cw2 & -> & Hcw2 & Hw2).
    exists cw2. split; [reflexivity |]. split; [exact Hcw2 |].
    rewrite Hw2, Hw1, <- app_assoc. reflexivity.
Qed.

Lemma NewWriter_healthy : healthy (Csv.NewWriter ([] : Io.Buffer)).
Proof. repeat split. Qed.

(** What [ConvertToCSV] returns. *)
Lemma ConvertToCSV_eq logs :
  ConvertToCSV logs
  = (Some (csv_line csvHeader
           ++ concat (map (fun log => csv_line (csvRow log)) logs)), None).
Proof.
  unfold ConvertToCSV.
  destruct (Csv_Write_healthy _ csvHeader NewWriter_healthy)
    as (cw1 & -> & Hcw1 & Hw1).
  destruct (writeRows_healthy logs cw1 Hcw1) as (cw2 & -> & Hcw2 & Hw2).
  destruct Hcw2 as (Hcomma & Hcrlf & Herr).
  destruct (Flush_appends _ Herr) as (b3 & Hfl & Herr3 & Hw3).
  unfold Csv.Error, Csv.Flush. cbn [Csv.w]. rewrite Hfl. cbn [fst].
  rewrite Herr3. f_equal. f_equal.
  assert (Hbuf : Bufio.buf b3 = []).
  { revert Hfl. unfold Bufio.Flush. rewrite Herr.
    destruct (Bufio.buf (Csv.w cw2)) eqn:Hb.
    - intros [= <-]. exact Hb.
    - cbn. intros [= <-]. reflexivity. }
  unfold written in Hw3 at 1. rewrite Hbuf, !app_nil_r in Hw3.
  rewrite Hw3, Hw2, Hw1. reflexivity.
Qed.

(** ** Decimal rendering *)

Lemma string_of_uint_chars d :
  forallb decimal_char (list_ascii_of_string (NilEmpty.string_of_uint d)) = true.
Proof. induction d; simpl; try exact IHd; reflexivity. Qed.

Lemma FormatInt_chars z : forallb decimal_char (Strconv.FormatInt z) = true.
Proof.
  unfold Strconv.FormatInt, str, NilZero.string_of_int, NilZero.string_of_uint.
  destruct (Z.to_int z) as [d | d]; destruct d; simpl;
    try reflexivity; apply string_of_uint_chars.
Qed.

(** Reading the text back gives the number. *)
Lemma FormatInt_parse z :
  option_map Z.of_int
    (NilZero.int_of_string (string_of_list_ascii (Strconv.FormatInt z)))
  = Some z.
Proof.
  unfold Strconv.FormatInt, str. rewrite string_of_list_ascii_of_string.
  rewrite NilZero.isi.
  - simpl. f_equal. apply DecimalZ.of_to.
  - destruct z; simpl; try discriminate.
    intros [= H]. exact (DecimalPos.Unsigned.to_uint_nonnil _ H).
  - destruct z; simpl; try discriminate.
    intros [= H]. exact (DecimalPos.Unsigned.to_uint_nonnil _ H).
Qed.

Lemma decimal_char_not_special c :
  decimal_char c = true -> Csv.special comma c = false.
Proof.
  destruct c as [[] [] [] [] [] [] [] []]; intros H;
    try discriminate H; reflexivity.
Qed.

Lemma decimal_field_not_special field :
  forallb decimal_char field = true -> existsb (Csv.special comma) field = false.
Proof.
  induction field as [| c field IH]; [reflexivity |].
  cbn [forallb existsb]. intros [Hc Hf]%andb_prop.
  rewrite (decimal_char_not_special c Hc). exact (IH Hf).
Qed.

(** A decimal integer is written without quotes. *)
Lemma decimal_field_plain field :
  forallb decimal_char field = true -> csv_field field = field.
Proof.
  intros Hf. unfold csv_field, Csv.fieldNeedsQuotes.
  destruct field as [| c field]; [reflexivity |].
  rewrite (decimal_field_not_special _ Hf).
  cbn [forallb] in Hf. apply andb_prop in Hf as [Hc _].
  case_bool_decide as Heq.
  - injection Heq as -> _. discriminate Hc.
  - destruct c as [[] [] [] [] [] [] [] []];
      try discriminate Hc; reflexivity.
Qed.

Lemma in_field_special (c : ascii) (field : gostring) :
  c ∈ field -> Csv.special comma c = true ->
  Csv.fieldNeedsQuotes comma field = true.
Proof.
  intros Hin Hsp. unfold Csv.fieldNeedsQuotes.
  destruct field as [| c0 field]; [by apply elem_of_nil in Hin |].
  case_bool_decide; [reflexivity |].
  replace (existsb (Csv.special comma) (c0 :: field)) with true; [reflexivity |].
  symmetry. apply existsb_exists. exists c. split; [| exact Hsp].
  apply list_elem_of_In. exact Hin.
Qed.

(** ** CSV Exporter *)

(** C6. For every input batch, [ConvertToCSV] returns exactly the header
    row [timestamp,level,message,path,method,duration,status] followed by
    one row per entry in input order, made of the entry's timestamp, level,
    message, path, method, duration and status in that order, with no
    column for the metadata; duration and status are plain decimal integers
    (they read back as the numbers and are never quoted); a field with a
    comma, a quote or a newline is enclosed in quotes with its quotes
    doubled; and for the empty batch the output is the header row alone. *)
Theorem ConvertToCSV_output :
  (forall logs : list LogEntry,
     ConvertToCSV logs
     = (Some (str "timestamp,level,message,path,method,duration,status" ++ [nl]
              ++ concat (map (fun e =>
                   csv_line [Timestamp e; Level e; Message e; Path e; Method e;
                             Strconv.FormatInt (Duration e);
                             Strconv.FormatInt (Status e)]) logs)),
        None))
  /\ ConvertToCSV []
     = (Some (str "timestamp,level,message,path,method,duration,status" ++ [nl]),
        None)
  /\ (forall field : gostring,
        comma ∈ field \/ dquote ∈ field \/ nl ∈ field ->
        csv_field field = [dquote] ++ csv_escape field ++ [dquote])
  /\ (forall z : Z,
        csv_field (Strconv.FormatInt z) = Strconv.FormatInt z
        /\ option_map Z.of_int
             (NilZero.int_of_string
                (string_of_list_ascii (Strconv.FormatInt z))) = Some z)
  /\ (forall e metadata,
        csvRow e
        = csvRow {| Timestamp := Timestamp e; Level := Level e;
                    Message := Message e; Path := Path e; Method := Method e;
                    Duration := Duration e; Status := Status e;
                    Metadata := metadata |}).
Proof.
  assert (Hhead : csv_line csvHeader
                  = str "timestamp,level,message,path,method,duration,status"
                    ++ [nl]) by (vm_compute; reflexivity).
  split; [| split; [| split; [| split]]].
  - intros logs. rewrite ConvertToCSV_eq, Hhead, <- app_assoc. reflexivity.
  - rewrite ConvertToCSV_eq, Hhead. cbn [map concat]. rewrite app_nil_r.
    reflexivity.
  - intros field Hin. unfold csv_field.
    rewrite (in_field_special
               (if decide (comma ∈ field) then comma
                else if decide (dquote ∈ field) then dquote else nl) field).
    + reflexivity.
    + repeat case_decide; tauto.
    + repeat case_decide; reflexivity.
  - intros z. split; [| apply FormatInt_parse].
    apply decimal_field_plain, FormatInt_chars.
  - intros e metadata. reflexivity.
Qed.

Lemma ConvertToCSV_output_witness :
  csv_field (str "m,with,commas")
  = [dquote] ++ str "m,with,commas" ++ [dquote].
Proof.
  apply (proj1 (proj2 (proj2 ConvertToCSV_output)) (str "m,with,commas")).
  left. vm_compute. do 1 apply list_elem_of_further. apply list_elem_of_here.
Defined.

(** The example of the specification: the message is quoted for its
    commas. *)
Example ConvertToCSV_commas :
  ConvertToCSV
    [{| Timestamp := str "T1"; Level := str "info";
        Message := str "m,with,commas"; Path := str "/p"; Method := str "GET";
        Duration := 10; Status := 200; Metadata := ∅ |}]
  = (Some (str "timestamp,level,message,path,method,duration,status" ++ [nl]
           ++ str "T1,info," ++ [dquote] ++ str "m,with,commas" ++ [dquote]
           ++ str ",/p,GET,10,200" ++ [nl]),
     None).
Proof. vm_compute. reflexivity. Qed.

(** C10. [ConvertToCSV] never returns an error: for every batch, whatever
    the strings in it, the error is nil and the payload is present. None
    of its three error branches can be taken: writing the header to the new
    writer succeeds, writing any rows to a writer in good order succeeds and
    leaves it in good order, and after the flush the writer reports no
    error. *)
Theorem ConvertToCSV_never_fails (logs : list LogEntry) :
  snd (ConvertToCSV logs) = None
  /\ (exists payload, fst (ConvertToCSV logs) = Some payload)
  /\ snd (Csv.Write (Csv.NewWriter ([] : Io.Buffer)) csvHeader) = None
  /\ (forall cw rows,
        healthy cw ->
        snd (writeRows cw rows) = None /\ healthy (fst (writeRows cw rows)))
  /\ (forall cw, healthy cw -> Csv.Error (Csv.Flush cw) = None).
Proof.
  rewrite ConvertToCSV_eq. cbn [fst snd].
  split; [reflexivity |]. split; [eexists; reflexivity |].
  split; [| split].
  - destruct (Csv_Write_healthy _ csvHeader NewWriter_healthy) as (cw & -> & _).
    reflexivity.
  - intros cw rows Hcw.
    destruct (writeRows_healthy rows cw Hcw) as (cw' & -> & Hcw' & _).
    split; [reflexivity | exact Hcw'].
  - intros cw (_ & _ & Herr). unfold Csv.Error, Csv.Flush. cbn [Csv.w].
    destruct (Flush_appends _ Herr) as (b & -> & Herr' & _). exact Herr'.
Qed.

(** The error branches are live for other writers: over a closed pipe the
    flush fails and the CSV writer reports it. *)
Example Csv_closed_pipe :
  Csv.Error
    (Csv.Flush (H := closedPipe)
       (fst (Csv.Write (H := closedPipe) (Csv.NewWriter tt) csvHeader)))
  = Some (str "io: read/write on closed pipe").
Proof. vm_compute. reflexivity. Qed.

(** * Part III: further properties *)

(** ** The statistics maps *)

Lemma perf_step_lookup m e p :
  Perf.step m e !! p
  = if decide (Path e = p) then Perf.step m e !! Path e else m !! p.
Proof.
  case_decide as Hp; [by subst |].
  unfold Perf.step. by rewrite lookup_insert_ne.
Qed.

Lemma perf_step_is_Some m e : is_Some (Perf.step m e !! Path e).
Proof. unfold Perf.step. rewrite lookup_insert_eq. by eexists. Qed.

Lemma logs_step_is_Some st e : is_Some ((Logs.step st e).1 !! Path e).
Proof.
  destruct st as [m summary]. unfold Logs.step. cbn [fst].
  rewrite lookup_insert_eq. by eexists.
Qed.

Lemma logs_step_lookup_ne st e p :
  Path e <> p -> (Logs.step st e).1 !! p = st.1 !! p.
Proof.
  intros Hp. destruct st as [m summary]. unfold Logs.step. cbn [fst].
  by rewrite lookup_insert_ne.
Qed.

(** X1. In the map of either loop a path is a key exactly when some entry of
    the batch carries it; the empty path is a key like any other. *)
Theorem aggregate_keys (logs : list LogEntry) (p : gostring) :
  (is_Some (Logs.aggregate logs !! p) <-> exists e, e ∈ logs /\ Path e = p)
  /\ (is_Some (Perf.aggregate logs !! p) <-> exists e, e ∈ logs /\ Path e = p).
Proof.
  induction logs as [| e logs [IHl IHp]] using rev_ind.
  - split;
      (split; [intros [st Hst];
               unfold Logs.aggregate, Logs.loop, Perf.aggregate in Hst;
               cbn in Hst; by rewrite lookup_empty in Hst |
               intros (e & He & _); by apply elem_of_nil in He]).
  - assert (Hex : (exists e', e' ∈ logs ++ [e] /\ Path e' = p)
                  <-> Path e = p \/ exists e', e' ∈ logs /\ Path e' = p).
    { split.
      - intros (e' & [He' | ->%list_elem_of_singleton]%elem_of_app & Hp);
          [right; eauto | by left].
      - intros [Hp | (e' & He' & Hp)].
        + exists e. split; [apply elem_of_app; right; by apply list_elem_of_singleton | done].
        + exists e'. split; [apply elem_of_app; by left | done]. }
    rewrite Hex. split.
    + unfold Logs.aggregate. rewrite logs_loop_snoc.
      destruct (decide (Path e = p)) as [<- | Hne].
      * split; [by left | intros _; apply logs_step_is_Some].
      * rewrite (logs_step_lookup_ne _ _ _ Hne). unfold Logs.aggregate in IHl.
        rewrite IHl. tauto.
    + rewrite perf_aggregate_snoc, perf_step_lookup.
      case_decide as Hp.
      * split; [by left | intros _; apply perf_step_is_Some].
      * rewrite IHp. tauto.
Qed.

(** One step of either loop updates the shared fields alike. *)
Lemma step_shared ml mp summary e :
  (forall p, ml !! p = shared <$> (mp !! p)) ->
  forall p, (Logs.step (ml, summary) e).1 !! p
            = shared <$> (Perf.step mp e !! p).
Proof.
  intros Hinv p. unfold Logs.step, Perf.step. cbn [fst].
  destruct (decide (Path e = p)) as [<- | Hne].
  2: { rewrite !lookup_insert_ne by done. apply Hinv. }
  rewrite !lookup_insert_eq, (Hinv (Path e)). cbn [fmap option_fmap option_map].
  f_equal.
  destruct (mp !! Path e) as [[c t mx mn er] |]; cbn.
  - destruct (c =? 0); cbn;
      repeat (match goal with |- context [if ?b then _ else _] => destruct b end;
              cbn); reflexivity.
  - destruct (Status e >=? 400); reflexivity.
Qed.

Lemma aggregate_shared logs p :
  Logs.aggregate logs !! p = shared <$> (Perf.aggregate logs !! p).
Proof.
  revert p. induction logs as [| e logs IH] using rev_ind; intros p.
  - unfold Logs.aggregate, Perf.aggregate. cbn. by rewrite !lookup_empty.
  - unfold Logs.aggregate. rewrite logs_loop_snoc, perf_aggregate_snoc.
    destruct (Logs.loop logs) as [ml summary] eqn:Hloop.
    apply step_shared. intros q. specialize (IH q).
    unfold Logs.aggregate in IH. rewrite Hloop in IH. exact IH.
Qed.

(** X3. The two loops agree: for every batch and path, the count, total
    time and error count kept by AnalyzeLogs are those kept by
    AnalyzePerformance. *)
Theorem loops_agree (logs : list LogEntry) (p : gostring) :
  Logs.aggregate logs !! p
  = (fun st => {| Logs.count := Perf.count st;
                  Logs.totalTime := Perf.totalTime st;
                  Logs.errors := Perf.errors st |})
    <$> (Perf.aggregate logs !! p).
Proof. apply aggregate_shared. Qed.

(** X2. For a batch that fits a slice and every path in the map of
    AnalyzeLogs: the count is the number of entries with that path, the
    error count is the number of those with status 400 or more, and the
    total time is the sum of their durations reduced to 64 bits, hence the
    sum itself when it fits an [int64]. *)
Theorem logs_stats_exact (logs : list LogEntry) (p : gostring)
    (st : Logs.stats) :
  Z.of_nat (List.length logs) <= MaxInt64 ->
  Logs.aggregate logs !! p = Some st ->
  Logs.count st = Z.of_nat (List.length (filter (fun e => Path e = p) logs))
  /\ Logs.errors st
     = Z.of_nat (List.length
                   (filter (fun e => 400 <= Status e)
                      (filter (fun e => Path e = p) logs)))
  /\ Logs.totalTime st
     = wrap64 (foldr Z.add 0 (Duration <$> filter (fun e => Path e = p) logs))
  /\ (in_int64 (foldr Z.add 0 (Duration <$> filter (fun e => Path e = p) logs))
      -> Logs.totalTime st
         = foldr Z.add 0 (Duration <$> filter (fun e => Path e = p) logs))
  /\ 1 <= Logs.count st
  /\ 0 <= Logs.errors st <= Logs.count st.
Proof.
  intros Hlen Hst.
  pose proof (logs_aggregate_ok logs Hlen p) as Hok.
  rewrite Hst in Hok. destruct Hok as (Hne & Hc & Ht & He).
  pose proof (failed_length_le (on p logs)) as Hfl.
  unfold on, failed, total_duration, sumZ in *.
  split; [exact Hc |]. split; [exact He |]. split; [exact Ht |].
  split; [intros Hfit; rewrite Ht; apply wrap64_id, Hfit |].
  split; [| lia].
  rewrite Hc. destruct (filter _ logs); [done | simpl; lia].
Qed.

Lemma logs_stats_exact_witness :
  Z.of_nat (List.length sampleLogs) <= MaxInt64
  /\ Logs.aggregate sampleLogs !! str "/api/slow"
     = Some {| Logs.count := 1; Logs.totalTime := 2000; Logs.errors := 1 |}
  /\ 1 = Z.of_nat (List.length
                     (filter (fun e => Path e = str "/api/slow") sampleLogs)).
Proof.
  assert (Hlen : Z.of_nat (List.length sampleLogs) <= MaxInt64)
    by (vm_compute; discriminate).
  assert (Hst : Logs.aggregate sampleLogs !! str "/api/slow"
                = Some {| Logs.count := 1; Logs.totalTime := 2000;
                          Logs.errors := 1 |}) by (vm_compute; reflexivity).
  split; [exact Hlen |]. split; [exact Hst |].
  exact (proj1 (logs_stats_exact sampleLogs _ _ Hlen Hst)).
Defined.

Lemma total_duration_perm es1 es2 :
  es1 ≡ₚ es2 -> total_duration es1 = total_duration es2.
Proof.
  unfold total_duration, sumZ.
  induction 1 as [| x l1 l2 _ IH | x y l | l1 l2 l3 _ IH1 _ IH2]; cbn.
  - reflexivity.
  - rewrite IH. reflexivity.
  - lia.
  - congruence.
Qed.

Lemma on_perm p logs1 logs2 : logs1 ≡ₚ logs2 -> on p logs1 ≡ₚ on p logs2.
Proof. intros Hp. unfold on. by rewrite Hp. Qed.

Lemma perf_aggregate_perm logs1 logs2 :
  Z.of_nat (List.length logs1) <= MaxInt64 ->
  logs1 ≡ₚ logs2 ->
  Perf.aggregate logs1 = Perf.aggregate logs2.
Proof.
  intros Hlen Hperm. apply map_eq. intros p.
  assert (Hlen2 : Z.of_nat (List.length logs2) <= MaxInt64)
    by (rewrite <- Hperm; exact Hlen).
  pose proof (perf_aggregate_ok logs1 Hlen p) as H1.
  pose proof (perf_aggregate_ok logs2 Hlen2 p) as H2.
  pose proof (on_perm p _ _ Hperm) as Hon.
  destruct (Perf.aggregate logs1 !! p) as [[c1 t1 mx1 mn1 e1] |],
           (Perf.aggregate logs2 !! p) as [[c2 t2 mx2 mn2 e2] |];
    cbn in H1, H2.
  - destruct H1 as (_ & Hc1 & Ht1 & He1 & Hb1 & (a1 & Ha1 & Hda1) & (b1 & Hb1' & Hdb1)).
    destruct H2 as (_ & Hc2 & Ht2 & He2 & Hb2 & (a2 & Ha2 & Hda2) & (b2 & Hb2' & Hdb2)).
    assert (c1 = c2) by (rewrite Hc1, Hc2, Hon; reflexivity).
    assert (t1 = t2) by (rewrite Ht1, Ht2, (total_duration_perm _ _ Hon); reflexivity).
    assert (e1 = e2) by (rewrite He1, He2, Hon; reflexivity).
    pose proof (Hb1 a2 ltac:(by rewrite Hon)).
    pose proof (Hb1 b2 ltac:(by rewrite Hon)).
    pose proof (Hb2 a1 ltac:(by rewrite <- Hon)).
    pose proof (Hb2 b1 ltac:(by rewrite <- Hon)).
    assert (mn1 = mn2) by lia. assert (mx1 = mx2) by lia.
    congruence.
  - destruct H1 as (Hne & _). exfalso. apply Hne.
    apply Permutation_nil_r. by rewrite <- H2.
  - destruct H2 as (Hne & _). exfalso. apply Hne.
    apply Permutation_nil_r. by rewrite <- H1, Hon.
  - reflexivity.
Qed.

(** X4. The statistics do not depend on the order of the batch: two
    batches that are permutations of each other give the same map in
    AnalyzePerformance and the same map in AnalyzeLogs. *)
Theorem aggregate_order_insensitive (logs1 logs2 : list LogEntry) :
  Z.of_nat (List.length logs1) <= MaxInt64 ->
  logs1 ≡ₚ logs2 ->
  Perf.aggregate logs1 = Perf.aggregate logs2
  /\ Logs.aggregate logs1 = Logs.aggregate logs2.
Proof.
  intros Hlen Hperm.
  pose proof (perf_aggregate_perm _ _ Hlen Hperm) as Hp.
  split; [exact Hp |].
  apply map_eq. intros p. rewrite !aggregate_shared, Hp. reflexivity.
Qed.

Lemma aggregate_order_insensitive_witness :
  Z.of_nat (List.length sampleLogs) <= MaxInt64
  /\ sampleLogs ≡ₚ rev sampleLogs
  /\ Perf.aggregate sampleLogs = Perf.aggregate (rev sampleLogs).
Proof.
  assert (Hlen : Z.of_nat (List.length sampleLogs) <= MaxInt64)
    by (vm_compute; discriminate).
  assert (Hperm : sampleLogs ≡ₚ rev sampleLogs) by apply Permutation_rev.
  split; [exact Hlen |]. split; [exact Hperm |].
  exact (proj1 (aggregate_order_insensitive _ _ Hlen Hperm)).
Defined.

Lemma perf_fold_frame p logs : forall m,
  (forall e, e ∈ logs -> Path e <> p) ->
  fold_left Perf.step logs m !! p = m !! p.
Proof.
  induction logs as [| e logs IH]; intros m Hp; [reflexivity |].
  cbn [fold_left]. rewrite IH.
  - rewrite perf_step_lookup. case_decide as He; [| reflexivity].
    exfalso. exact (Hp e ltac:(left) He).
  - intros e' He'. apply Hp. by right.
Qed.

Lemma logs_fold_frame p logs : forall st,
  (forall e, e ∈ logs -> Path e <> p) ->
  (fold_left Logs.step logs st).1 !! p = st.1 !! p.
Proof.
  induction logs as [| e logs IH]; intros st Hp; [reflexivity |].
  cbn [fold_left]. rewrite IH.
  - apply logs_step_lookup_ne, Hp. by left.
  - intros e' He'. apply Hp. by right.
Qed.

(** X5. Entries of other paths leave a path's statistics alone: if no
    entry of the second batch carries [p], the statistics of [p] after both
    batches are those after the first, in either loop. *)
Theorem aggregate_other_paths (logs1 logs2 : list LogEntry) (p : gostring) :
  (forall e, e ∈ logs2 -> Path e <> p) ->
  Perf.aggregate (logs1 ++ logs2) !! p = Perf.aggregate logs1 !! p
  /\ Logs.aggregate (logs1 ++ logs2) !! p = Logs.aggregate logs1 !! p.
Proof.
  intros Hp. split.
  - unfold Perf.aggregate. rewrite fold_left_app. by apply perf_fold_frame.
  - unfold Logs.aggregate, Logs.loop. rewrite fold_left_app.
    by apply logs_fold_frame.
Qed.

Lemma aggregate_other_paths_witness :
  (forall e, e ∈ [entry (str "/api/slow") 2000 500] -> Path e <> str "/api/users")
  /\ Perf.aggregate sampleLogs !! str "/api/users"
     = Perf.aggregate (take 2 sampleLogs) !! str "/api/users".
Proof.
  assert (Hp : forall e, e ∈ [entry (str "/api/slow") 2000 500] ->
                         Path e <> str "/api/users").
  { intros e ->%list_elem_of_singleton. discriminate. }
  split; [exact Hp |].
  exact (proj1 (aggregate_other_paths (take 2 sampleLogs)
                  [entry (str "/api/slow") 2000 500] _ Hp)).
Defined.

Lemma perf_step_measured m e1 e2 :
  measured e1 = measured e2 -> Perf.step m e1 = Perf.step m e2.
Proof.
  unfold measured. intros [= Hp Hd Hs]. unfold Perf.step.
  rewrite Hp, Hd, Hs. reflexivity.
Qed.

Lemma perf_fold_measured logs1 : forall logs2 m,
  measured <$> logs1 = measured <$> logs2 ->
  fold_left Perf.step logs1 m = fold_left Perf.step logs2 m.
Proof.
  induction logs1 as [| e1 logs1 IH]; intros [| e2 logs2] m Heq;
    try discriminate Heq; [reflexivity |].
  cbn [fmap list_fmap] in Heq.
  assert (He : measured e1 = measured e2) by congruence.
  assert (Hrest : measured <$> logs1 = measured <$> logs2) by congruence.
  cbn [fold_left].
  rewrite (perf_step_measured m e1 e2 He). by apply IH.
Qed.

(** X6. AnalyzePerformance reads only the path, the duration and the
    status of an entry: two batches that agree on these, entry by entry,
    give the same statistics, the same prompt and the same result,
    whatever their timestamps, levels, messages, methods and metadata. *)
Theorem performance_reads_measured
    (Do : gostring -> gostring -> roundTrip)
    (Unmarshal : gostring -> gostring + list (gostring * json))
    (UnmarshalPerformance : gostring -> gostring + PerformanceAnalysis)
    (rangePerf : gmap gostring Perf.stats -> list (gostring * Perf.stats))
    (s : AnalyticsService) (logs1 logs2 : list LogEntry) :
  (fun e => (Path e, Duration e, Status e)) <$> logs1
  = (fun e => (Path e, Duration e, Status e)) <$> logs2 ->
  Perf.aggregate logs1 = Perf.aggregate logs2
  /\ AnalyzePerformance Do Unmarshal UnmarshalPerformance rangePerf s logs1
     = AnalyzePerformance Do Unmarshal UnmarshalPerformance rangePerf s logs2.
Proof.
  intros Heq.
  assert (Hagg : Perf.aggregate logs1 = Perf.aggregate logs2)
    by (apply perf_fold_measured; exact Heq).
  split; [exact Hagg |].
  unfold AnalyzePerformance. rewrite Hagg. reflexivity.
Qed.

Lemma performance_reads_measured_witness :
  Perf.aggregate [entry (str "/p") 5 200]
  = Perf.aggregate
      [{| Timestamp := []; Level := str "error"; Message := str "boom";
          Path := str "/p"; Method := str "POST"; Duration := 5;
          Status := 200; Metadata := ∅ |}].
Proof.
  exact (proj1 (performance_reads_measured
                  (fun _ _ => DoError []) (fun _ => inl [])
                  (fun _ => inl []) (fun _ => [])
                  (NewAnalyticsService []) _ _ eq_refl)).
Defined.

(** ** The normalizer, further *)

Lemma cleanJSONResponse_cases (s : gostring) :
  let cleaned := filter (fun c => c <> backtick) s in
  (exists pre mid post,
     cleaned = pre ++ lbrace :: mid ++ rbrace :: post
     /\ cleanJSONResponse s = Some (lbrace :: mid ++ [rbrace]))
  \/ ((forall pre mid post, cleaned <> pre ++ lbrace :: mid ++ rbrace :: post)
      /\ cleanJSONResponse s = Some cleaned).
Proof.
  intros cleaned. pose proof (stripFences_filter s) as Hs. fold cleaned in Hs.
  destruct (brace_pair_cases cleaned)
    as [(pre & mid & post & Hc & Hpre & Hpost) | Hno].
  - left. exists pre, mid, post. split; [exact Hc |].
    apply (clean_brace_pair s pre mid post); [by rewrite Hs | done | done].
  - right. split; [exact Hno |].
    rewrite <- Hs. apply clean_no_brace_pair. by rewrite Hs.
Qed.

Lemma filter_length_le (s : gostring) :
  (List.length (filter (fun c => c <> backtick) s) <= List.length s)%nat.
Proof. apply length_filter. Qed.

(** X7. [cleanJSONResponse] never panics, and what it returns is one
    contiguous piece of the response without its backticks: nothing is
    reordered or inserted, so the result is never longer than the
    response. *)
Theorem cleanJSONResponse_substring (response : gostring) :
  exists r pre post,
    cleanJSONResponse response = Some r
    /\ filter (fun c => c <> backtick) response = pre ++ r ++ post
    /\ (List.length r <= List.length response)%nat.
Proof.
  pose proof (filter_length_le response) as Hlen.
  destruct (cleanJSONResponse_cases response)
    as [(pre & mid & post & Hc & Hr) | (_ & Hr)].
  - exists (lbrace :: mid ++ [rbrace]), pre, post.
    split; [exact Hr |].
    assert (Heq : filter (fun c => c <> backtick) response
                  = pre ++ (lbrace :: mid ++ [rbrace]) ++ post).
    { rewrite Hc. cbn [app]. rewrite <- app_assoc. reflexivity. }
    split; [exact Heq |].
    rewrite Heq in Hlen. rewrite !length_app in Hlen. lia.
  - exists (filter (fun c => c <> backtick) response), [], [].
    split; [exact Hr |]. split; [by rewrite app_nil_r | exact Hlen].
Qed.

(** X8. The texts [cleanJSONResponse] returns unchanged are exactly those
    without a backtick that either run from a [{] to a [}] or have no [{]
    followed by a [}] at all. *)
Theorem cleanJSONResponse_fixed_points (r : gostring) :
  cleanJSONResponse r = Some r
  <-> (backtick ∉ r)
      /\ ((exists mid, r = lbrace :: mid ++ [rbrace])
          \/ (forall pre mid post,
                r <> pre ++ lbrace :: mid ++ rbrace :: post)).
Proof.
  split.
  - intros Hr.
    pose proof (filter_ne_absent backtick r) as Hb.
    destruct (cleanJSONResponse_cases r)
      as [(pre & mid & post & Hc & Hr') | (Hno & Hr')];
      rewrite Hr in Hr'; injection Hr' as Hr'.
    + split; [| left; by exists mid].
      intros Hin. apply Hb. rewrite Hc. rewrite Hr' in Hin.
      rewrite elem_of_app, !elem_of_cons, elem_of_app, elem_of_cons.
      apply elem_of_cons in Hin as [Hin | Hin]; [auto |].
      apply elem_of_app in Hin as [Hin | Hin]; [auto 6 |].
      apply list_elem_of_singleton in Hin. auto 6.
    + rewrite <- Hr' in Hb, Hno. split; [exact Hb | right; exact Hno].
  - intros [Hb [[mid ->] | Hno]].
    + apply (clean_brace_pair _ [] mid []).
      * rewrite stripFences_filter, (filter_ne_id _ _ Hb). reflexivity.
      * apply not_elem_of_nil.
      * apply not_elem_of_nil.
    + assert (Hcc : stripFences r = r)
        by (rewrite stripFences_filter; apply filter_ne_id, Hb).
      rewrite <- Hcc at 2. apply clean_no_brace_pair. by rewrite Hcc.
Qed.

(** ** The remote client and the two analyses, further *)

(** X9. After a successful decode, [callGeminiAPI]'s walk down the reply
    panics exactly when the first candidate, or the first part of its
    content, is not an object; and every error it then returns ends with
    the raw response body. *)
Theorem extractText_outcomes
    (Unmarshal : gostring -> gostring + list (gostring * json))
    (body : gostring) (reply : list (gostring * json)) :
  Unmarshal body = inr reply ->
  (extractText Unmarshal body = Panics
   <-> exists candidate candidates,
         member (str "candidates") reply = Some (JArray (candidate :: candidates))
         /\ (~ is_object candidate
             \/ exists cand content part parts,
                  candidate = JObject cand
                  /\ member (str "content") cand = Some (JObject content)
                  /\ member (str "parts") content = Some (JArray (part :: parts))
                  /\ ~ is_object part))
  /\ (forall msg, extractText Unmarshal body = Err msg ->
        exists prefix, msg = prefix ++ body).
Proof.
  intros Hdec. unfold extractText. rewrite Hdec.
  assert (Hobj : forall m, is_object (JObject m)) by (intros m; by exists m).
  split.
  - split.
    + intros Hp.
      destruct (member (str "candidates") reply)
        as [[| | | | [| c cs] |] |] eqn:Hcands; try discriminate Hp.
      exists c, cs. split; [reflexivity |].
      destruct c as [| b | f | t | items | cand];
        try (left; intros [m Hm]; discriminate Hm).
      right.
      destruct (member (str "content") cand)
        as [[| | | | | content] |] eqn:Hcontent; try discriminate Hp.
      destruct (member (str "parts") content)
        as [[| | | | [| part parts] |] |] eqn:Hparts; try discriminate Hp.
      exists cand, content, part, parts.
      split; [reflexivity |]. split; [exact Hcontent |]. split; [exact Hparts |].
      destruct part as [| b | f | t | items | part0];
        try (intros [m Hm]; discriminate Hm).
      destruct (member (str "text") part0) as [[| | | | |] |]; discriminate Hp.
    + intros (c & cs & -> & [Hc | (cand & content & part & parts & -> & -> & -> & Hpart)]).
      * destruct c; try reflexivity. exfalso. apply Hc, Hobj.
      * destruct part; try reflexivity. exfalso. apply Hpart, Hobj.
  - intros msg Hmsg.
    repeat match type of Hmsg with
           | context [match ?x with _ => _ end] => destruct x
           end;
      try discriminate Hmsg; injection Hmsg as <-.
    all: first
      [ exists (str "invalid text format in response: ");
        cbn; rewrite app_nil_r; reflexivity
      | exists (str "no parts in response: ");
        cbn; rewrite app_nil_r; reflexivity
      | exists (str "invalid response format: ");
        cbn; rewrite app_nil_r; reflexivity
      | exists (str "no candidates in response: ");
        cbn; rewrite app_nil_r; reflexivity ].
Qed.

Lemma extractText_outcomes_witness :
  (fun _ : gostring => inr [(str "candidates", JArray [JNull])]
     : gostring + list (gostring * json)) (str "{}")
  = inr [(str "candidates", JArray [JNull])]
  /\ extractText (fun _ => inr [(str "candidates", JArray [JNull])]) (str "{}")
     = Panics.
Proof.
  split; [reflexivity |].
  apply (proj1 (extractText_outcomes
                  (fun _ => inr [(str "candidates", JArray [JNull])])
                  (str "{}") _ eq_refl)).
  exists JNull, []. split; [reflexivity |].
  left. intros [m Hm]. discriminate Hm.
Defined.

Lemma cleanJSONResponse_total s : is_Some (cleanJSONResponse s).
Proof.
  destruct (cleanJSONResponse_cases s) as [(? & ? & ? & _ & ->) | (_ & ->)];
    by eexists.
Qed.

Lemma Sprintf_generating err :
  Fmt.Sprintf (str "error generating analysis: %v") [Fmt.E err]
  = str "error generating analysis: " ++ err.
Proof. cbn. rewrite app_nil_r. reflexivity. Qed.

Lemma Sprintf_parsing err cleaned :
  Fmt.Sprintf (str "error parsing analysis result: %v, response: %s")
    [Fmt.E err; Fmt.S cleaned]
  = str "error parsing analysis result: " ++ err ++ str ", response: "
    ++ cleaned.
Proof. cbn. rewrite app_nil_r. reflexivity. Qed.

Lemma AnalyzeLogs_cases Do Unmarshal UnmarshalAnalysis rangeLogs s logs :
  Z.of_nat (List.length logs) <= MaxInt64 ->
  rangeLogs (Logs.aggregate logs) ≡ₚ map_to_list (Logs.aggregate logs) ->
  exists prompt,
    logsPrompt (rangeLogs (Logs.aggregate logs)) logs = Some prompt
    /\ match callGeminiAPI Do Unmarshal s prompt with
       | Panics =>
           AnalyzeLogs Do Unmarshal UnmarshalAnalysis rangeLogs s logs = Panics
       | Err err =>
           AnalyzeLogs Do Unmarshal UnmarshalAnalysis rangeLogs s logs
           = Err (str "error generating analysis: " ++ err)
       | Ok response =>
           exists cleaned,
             cleanJSONResponse response = Some cleaned
             /\ AnalyzeLogs Do Unmarshal UnmarshalAnalysis rangeLogs s logs
                = match UnmarshalAnalysis cleaned with
                  | inl err =>
                      Err (str "error parsing analysis result: " ++ err
                           ++ str ", response: " ++ cleaned)
                  | inr analysis => Ok analysis
                  end
       end.
Proof.
  intros Hlen Hperm.
  destruct (prompts_defined logs _ (map_to_list (Perf.aggregate logs))
              Hlen Hperm (reflexivity _)) as [[prompt Hprompt] _].
  exists prompt. split; [exact Hprompt |].
  unfold AnalyzeLogs. rewrite Hprompt.
  destruct (callGeminiAPI Do Unmarshal s prompt) as [response | err |].
  - destruct (cleanJSONResponse_total response) as [cleaned Hcleaned].
    exists cleaned. split; [exact Hcleaned |]. rewrite Hcleaned.
    destruct (UnmarshalAnalysis cleaned); [| reflexivity].
    by rewrite Sprintf_parsing.
  - by rewrite Sprintf_generating.
  - reflexivity.
Qed.

Lemma AnalyzePerformance_cases Do Unmarshal UnmarshalPerformance rangePerf s
    logs :
  Z.of_nat (List.length logs) <= MaxInt64 ->
  rangePerf (Perf.aggregate logs) ≡ₚ map_to_list (Perf.aggregate logs) ->
  exists prompt,
    perfPrompt (rangePerf (Perf.aggregate logs)) = Some prompt
    /\ match callGeminiAPI Do Unmarshal s prompt with
       | Panics =>
           AnalyzePerformance Do Unmarshal UnmarshalPerformance rangePerf s logs
           = Panics
       | Err err =>
           AnalyzePerformance Do Unmarshal UnmarshalPerformance rangePerf s logs
           = Err (str "error generating analysis: " ++ err)
       | Ok response =>
           exists cleaned,
             cleanJSONResponse response = Some cleaned
             /\ AnalyzePerformance Do Unmarshal UnmarshalPerformance rangePerf
                  s logs
                = match UnmarshalPerformance cleaned with
                  | inl err =>
                      Err (str "error parsing analysis result: " ++ err
                           ++ str ", response: " ++ cleaned)
                  | inr analysis => Ok analysis
                  end
       end.
Proof.
  intros Hlen Hperm.
  destruct (prompts_defined logs (map_to_list (Logs.aggregate logs)) _
              Hlen (reflexivity _) Hperm) as [_ [prompt Hprompt]].
  exists prompt. split; [exact Hprompt |].
  unfold AnalyzePerformance. rewrite Hprompt.
  destruct (callGeminiAPI Do Unmarshal s prompt) as [response | err |].
  - destruct (cleanJSONResponse_total response) as [cleaned Hcleaned].
    exists cleaned. split; [exact Hcleaned |]. rewrite Hcleaned.
    destruct (UnmarshalPerformance cleaned); [| reflexivity].
    by rewrite Sprintf_parsing.
  - by rewrite Sprintf_generating.
  - reflexivity.
Qed.

(** X10. For a batch that fits a slice, whatever the order in which
    [range] visits the statistics, AnalyzeLogs builds its prompt (no
    division by zero) and then does one of three things: it panics only if
    [callGeminiAPI] does; it wraps an error of [callGeminiAPI] as
    ["error generating analysis: ..."]; or it normalizes the reply, which
    never panics, and returns the decoded result or the error
    ["error parsing analysis result: ..., response: ..."] that carries the
    normalized text. *)
Theorem AnalyzeLogs_outcomes
    (Do : gostring -> gostring -> roundTrip)
    (Unmarshal : gostring -> gostring + list (gostring * json))
    (UnmarshalAnalysis : gostring -> gostring + AnalysisResult)
    (rangeLogs : gmap gostring Logs.stats -> list (gostring * Logs.stats))
    (s : AnalyticsService) (logs : list LogEntry) :
  Z.of_nat (List.length logs) <= MaxInt64 ->
  rangeLogs (Logs.aggregate logs) ≡ₚ map_to_list (Logs.aggregate logs) ->
  exists prompt,
    logsPrompt (rangeLogs (Logs.aggregate logs)) logs = Some prompt
    /\ match callGeminiAPI Do Unmarshal s prompt with
       | Panics =>
           AnalyzeLogs Do Unmarshal UnmarshalAnalysis rangeLogs s logs = Panics
       | Err err =>
           AnalyzeLogs Do Unmarshal UnmarshalAnalysis rangeLogs s logs
           = Err (str "error generating analysis: " ++ err)
       | Ok response =>
           exists cleaned,
             cleanJSONResponse response = Some cleaned
             /\ AnalyzeLogs Do Unmarshal UnmarshalAnalysis rangeLogs s logs
                = match UnmarshalAnalysis cleaned with
                  | inl err =>
                      Err (str "error parsing analysis result: " ++ err
                           ++ str ", response: " ++ cleaned)
                  | inr analysis => Ok analysis
                  end
       end.
Proof. apply AnalyzeLogs_cases. Qed.

Lemma AnalyzeLogs_outcomes_witness :
  Z.of_nat (List.length sampleLogs) <= MaxInt64
  /\ map_to_list (Logs.aggregate sampleLogs)
     ≡ₚ map_to_list (Logs.aggregate sampleLogs)
  /\ AnalyzeLogs (fun _ _ => DoError (str "timeout")) (fun _ => inl [])
       (fun _ => inl []) map_to_list (NewAnalyticsService (str "key"))
       sampleLogs
     = Err (str "error generating analysis: error making request: timeout").
Proof.
  assert (Hlen : Z.of_nat (List.length sampleLogs) <= MaxInt64)
    by (vm_compute; discriminate).
  split; [exact Hlen |]. split; [reflexivity |].
  destruct (AnalyzeLogs_outcomes (fun _ _ => DoError (str "timeout"))
              (fun _ => inl []) (fun _ => inl []) map_to_list
              (NewAnalyticsService (str "key")) sampleLogs Hlen
              (reflexivity _)) as (prompt & _ & Hcase).
  exact Hcase.
Defined.

(** X11. The same for AnalyzePerformance: for a batch that fits a slice
    and any order of [range], it builds its prompt, panics only if
    [callGeminiAPI] does, wraps the client's error as
    ["error generating analysis: ..."], and otherwise returns the decoded
    result or the parse error that carries the normalized reply. *)
Theorem AnalyzePerformance_outcomes
    (Do : gostring -> gostring -> roundTrip)
    (Unmarshal : gostring -> gostring + list (gostring * json))
    (UnmarshalPerformance : gostring -> gostring + PerformanceAnalysis)
    (rangePerf : gmap gostring Perf.stats -> list (gostring * Perf.stats))
    (s : AnalyticsService) (logs : list LogEntry) :
  Z.of_nat (List.length logs) <= MaxInt64 ->
  rangePerf (Perf.aggregate logs) ≡ₚ map_to_list (Perf.aggregate logs) ->
  exists prompt,
    perfPrompt (rangePerf (Perf.aggregate logs)) = Some prompt
    /\ match callGeminiAPI Do Unmarshal s prompt with
       | Panics =>
           AnalyzePerformance Do Unmarshal UnmarshalPerformance rangePerf s logs
           = Panics
       | Err err =>
           AnalyzePerformance Do Unmarshal UnmarshalPerformance rangePerf s logs
           = Err (str "error generating analysis: " ++ err)
       | Ok response =>
           exists cleaned,
             cleanJSONResponse response = Some cleaned
             /\ AnalyzePerformance Do Unmarshal UnmarshalPerformance rangePerf
                  s logs
                = match UnmarshalPerformance cleaned with
                  | inl err =>
                      Err (str "error parsing analysis result: " ++ err
                           ++ str ", response: " ++ cleaned)
                  | inr analysis => Ok analysis
                  end
       end.
Proof. apply AnalyzePerformance_cases. Qed.

Lemma AnalyzePerformance_outcomes_witness :
  Z.of_nat (List.length sampleLogs) <= MaxInt64
  /\ map_to_list (Perf.aggregate sampleLogs)
     ≡ₚ map_to_list (Perf.aggregate sampleLogs)
  /\ AnalyzePerformance (fun _ _ => Response 503 (inr (str "busy")))
       (fun _ => inl []) (fun _ => inl []) map_to_list
       (NewAnalyticsService (str "key")) sampleLogs
     = Err (str "error generating analysis: API error (status 503): busy").
Proof.
  assert (Hlen : Z.of_nat (List.length sampleLogs) <= MaxInt64)
    by (vm_compute; discriminate).
  split; [exact Hlen |]. split; [reflexivity |].
  destruct (AnalyzePerformance_outcomes
              (fun _ _ => Response 503 (inr (str "busy")))
              (fun _ => inl []) (fun _ => inl []) map_to_list
              (NewAnalyticsService (str "key")) sampleLogs Hlen
              (reflexivity _)) as (prompt & _ & Hcase).
  exact Hcase.
Defined.

(** ** splitIntoChunks *)

Lemma slice_take_drop (text : gostring) (i n : Z) :
  0 <= i < Z.of_nat (List.length text) -> 0 < n ->
  let hi := if i + n >? Z.of_nat (List.length text)
            then Z.of_nat (List.length text) else i + n in
  Strings.slice text i hi
  = Some (take (Z.to_nat n) (drop (Z.to_nat i) text)).
Proof.
  intros Hi Hn hi. unfold Strings.slice.
  assert (Hhi : i <= hi <= Z.of_nat (List.length text)
                /\ (hi = i + n \/ (hi = Z.of_nat (List.length text) /\ hi < i + n))).
  { unfold hi. destruct (Z.gtb_spec (i + n) (Z.of_nat (List.length text))); lia. }
  destruct Hhi as [Hr Hc].
  destruct (Z.leb_spec 0 i); [| lia].
  destruct (Z.leb_spec i hi); [| lia].
  destruct (Z.leb_spec hi (Z.of_nat (List.length text))); [| lia].
  cbn [andb]. f_equal.
  destruct Hc as [-> | [Hlen Hlt]].
  - f_equal. lia.
  - rewrite !take_ge; [reflexivity | |]; rewrite length_drop; lia.
Qed.

Lemma splitLoop_ok fuel : forall (text : gostring) (n i : Z) chunks,
  0 < n -> Z.of_nat (List.length text) + n <= MaxInt64 -> 0 <= i ->
  (List.length (drop (Z.to_nat i) text) < fuel)%nat ->
  splitLoop fuel text n i chunks
  = Some (Ok (chunks ++ chunksOf fuel (Z.to_nat n) (drop (Z.to_nat i) text))).
Proof.
  induction fuel as [| fuel IH]; intros text n i chunks Hn Hmax Hi Hfuel;
    [lia |].
  cbn [splitLoop chunksOf].
  destruct (Z.ltb_spec i (Z.of_nat (List.length text))) as [Hlt | Hge].
  - assert (Hw : wrap64 (i + n) = i + n).
    { apply wrap64_id. unfold in_int64, MinInt64, MaxInt64 in *. lia. }
    rewrite Hw.
    rewrite (slice_take_drop text i n) by lia.
    rewrite IH; [| lia | lia | lia |].
    + destruct (drop (Z.to_nat i) text) as [| c rest] eqn:Hrest.
      { apply (f_equal List.length) in Hrest. rewrite length_drop in Hrest.
        simpl in Hrest. lia. }
      rewrite <- Hrest.
      replace (Z.to_nat (i + n)) with (Z.to_nat i + Z.to_nat n)%nat by lia.
      rewrite <- drop_drop, <- app_assoc. reflexivity.
    + rewrite length_drop in *. lia.
  - rewrite drop_ge by lia. rewrite app_nil_r. reflexivity.
Qed.

Lemma chunksOf_concat fuel : forall n (text : gostring),
  (0 < n)%nat -> (List.length text <= fuel)%nat ->
  concat (chunksOf fuel n text) = text.
Proof.
  induction fuel as [| fuel IH]; intros n text Hn Hfuel.
  - destruct text; [reflexivity | simpl in Hfuel; lia].
  - destruct text as [| c text]; [reflexivity |].
    cbn [chunksOf concat]. rewrite IH; [apply take_drop | exact Hn |].
    rewrite length_drop. simpl in *. lia.
Qed.

Lemma chunksOf_more fuel1 : forall fuel2 n (text : gostring),
  (0 < n)%nat -> (List.length text <= fuel1)%nat ->
  (List.length text <= fuel2)%nat ->
  chunksOf fuel1 n text = chunksOf fuel2 n text.
Proof.
  induction fuel1 as [| fuel1 IH]; intros fuel2 n text Hn H1 H2.
  - destruct text; [by destruct fuel2 | simpl in H1; lia].
  - destruct text as [| c text]; [by destruct fuel2 |].
    destruct fuel2 as [| fuel2]; [simpl in H2; lia |].
    cbn [chunksOf]. f_equal.
    apply IH; [exact Hn | |]; rewrite length_drop; simpl in *; lia.
Qed.

Lemma chunksOf_sizes fuel : forall n (text : gostring),
  (0 < n)%nat -> (List.length text <= fuel)%nat ->
  Forall (fun c => (0 < List.length c <= n)%nat) (chunksOf fuel n text)
  /\ (forall k c, chunksOf fuel n text !! k = Some c ->
        (Datatypes.S k < List.length (chunksOf fuel n text))%nat ->
        List.length c = n)
  /\ Z.of_nat (List.length (chunksOf fuel n text))
     = (Z.of_nat (List.length text) + Z.of_nat n - 1) / Z.of_nat n.
Proof.
  induction fuel as [| fuel IH]; intros n text Hn Hfuel.
  - destruct text; [| simpl in Hfuel; lia].
    split; [constructor |]. split; [intros k c Hk; discriminate Hk |].
    cbn. symmetry. apply Z.div_small. lia.
  - destruct text as [| c0 text].
    { split; [constructor |]. split; [intros k c Hk; discriminate Hk |].
      cbn. symmetry. apply Z.div_small. lia. }
    cbn [chunksOf].
    set (t := c0 :: text) in *.
    assert (Hd : (List.length (drop n t) <= fuel)%nat)
      by (rewrite length_drop; unfold t in *; simpl in *; lia).
    destruct (IH n (drop n t) Hn Hd) as (Hall & Hfull & Hcount).
    assert (Htl : (0 < List.length t)%nat) by (unfold t; simpl; lia).
    split; [| split].
    + constructor; [| exact Hall]. rewrite length_take. lia.
    + intros [| k] c Hk Hlast.
      * injection Hk as <-. rewrite length_take.
        cbn [List.length] in Hlast.
        destruct (chunksOf fuel n (drop n t)) as [| c1 rest] eqn:Hrest;
          [simpl in Hlast; lia |].
        assert (Hne : drop n t <> []).
        { intros Hnil. rewrite Hnil in Hrest. destruct fuel; discriminate. }
        assert ((n < List.length t)%nat).
        { destruct (le_lt_dec (List.length t) n) as [Hle | ?]; [| done].
          exfalso. apply Hne. by apply drop_ge. }
        lia.
      * apply (Hfull k c Hk). cbn [List.length] in Hlast. lia.
    + cbn [List.length]. rewrite Nat2Z.inj_succ, Hcount, length_drop.
      destruct (le_lt_dec (List.length t) n) as [Hle | Hgt].
      * replace (List.length t - n)%nat with 0%nat by lia.
        rewrite (Z.div_small (Z.of_nat 0 + Z.of_nat n - 1)) by lia.
        apply (Z.div_unique_pos _ _ _ (Z.of_nat (List.length t) - 1)); lia.
      * rewrite Nat2Z.inj_sub by lia.
        replace (Z.of_nat (List.length t) + Z.of_nat n - 1)
          with ((Z.of_nat (List.length t) - Z.of_nat n + Z.of_nat n - 1)
                + 1 * Z.of_nat n) by lia.
        rewrite Z.div_add by lia. lia.
Qed.

Lemma splitIntoChunks_eq fuel (text : gostring) (chunkSize : Z) :
  0 < chunkSize ->
  Z.of_nat (List.length text) + chunkSize <= MaxInt64 ->
  (List.length text < fuel)%nat ->
  splitIntoChunks fuel text chunkSize
  = Some (Ok (chunksOf (List.length text) (Z.to_nat chunkSize) text)).
Proof.
  intros Hn Hmax Hfuel. unfold splitIntoChunks.
  assert (H0 : 0 <= 0) by lia.
  assert (Hd : (List.length (drop (Z.to_nat 0) text) < fuel)%nat)
    by (change (Z.to_nat 0) with 0%nat; rewrite drop_0; exact Hfuel).
  rewrite (splitLoop_ok fuel text chunkSize 0 [] Hn Hmax H0 Hd).
  change (Z.to_nat 0) with 0%nat. rewrite drop_0. cbn [app].
  do 2 f_equal. apply chunksOf_more; lia.
Qed.

(** X12. With a positive chunk size, [splitIntoChunks] ends (after at most
    one loop test per byte, plus one) and loses nothing: the chunks it
    returns, concatenated in order, are the text. *)
Theorem splitIntoChunks_reassembles (fuel : nat) (text : gostring)
    (chunkSize : Z) :
  0 < chunkSize ->
  Z.of_nat (List.length text) + chunkSize <= MaxInt64 ->
  (List.length text < fuel)%nat ->
  exists chunks,
    splitIntoChunks fuel text chunkSize = Some (Ok chunks)
    /\ concat chunks = text.
Proof.
  intros Hn Hmax Hfuel. eexists. split.
  - apply splitIntoChunks_eq; assumption.
  - apply chunksOf_concat; lia.
Qed.

Lemma splitIntoChunks_reassembles_witness :
  0 < 3 /\ Z.of_nat (List.length (str "abcdefgh")) + 3 <= MaxInt64
  /\ (List.length (str "abcdefgh") < 9)%nat
  /\ exists chunks,
       splitIntoChunks 9 (str "abcdefgh") 3 = Some (Ok chunks)
       /\ concat chunks = str "abcdefgh".
Proof.
  assert (H1 : 0 < 3) by lia.
  assert (H2 : Z.of_nat (List.length (str "abcdefgh")) + 3 <= MaxInt64)
    by (vm_compute; discriminate).
  assert (H3 : (List.length (str "abcdefgh") < 9)%nat) by (cbn; lia).
  split; [exact H1 |]. split; [exact H2 |]. split; [exact H3 |].
  exact (splitIntoChunks_reassembles 9 (str "abcdefgh") 3 H1 H2 H3).
Defined.

(** The loop with no wrap-around: every index the loop reaches, advanced by
    the chunk size, stays an [int]. *)
Lemma splitLoop_fits fuel : forall (text : gostring) (n i : Z) chunks,
  0 < n -> 0 <= i ->
  (i < Z.of_nat (List.length text) ->
   i + n * ((Z.of_nat (List.length text) - i + n - 1) / n) <= MaxInt64) ->
  (List.length (drop (Z.to_nat i) text) < fuel)%nat ->
  splitLoop fuel text n i chunks
  = Some (Ok (chunks ++ chunksOf fuel (Z.to_nat n) (drop (Z.to_nat i) text))).
Proof.
  induction fuel as [| fuel IH]; intros text n i chunks Hn Hi Hfit Hfuel;
    [lia |].
  cbn [splitLoop chunksOf].
  destruct (Z.ltb_spec i (Z.of_nat (List.length text))) as [Hlt | Hge].
  - specialize (Hfit Hlt).
    set (len := Z.of_nat (List.length text)) in *.
    assert (Hq : (len - i + n - 1) / n = (len - (i + n) + n - 1) / n + 1).
    { replace (len - i + n - 1) with ((len - (i + n) + n - 1) + 1 * n) by lia.
      apply Z.div_add. lia. }
    assert (Hq0 : 0 <= (len - (i + n) + n - 1) / n)
      by (apply Z.div_pos; lia).
    assert (Hw : wrap64 (i + n) = i + n).
    { apply wrap64_id. unfold in_int64, MinInt64, MaxInt64 in *. nia. }
    rewrite Hw. unfold len in *.
    rewrite (slice_take_drop text i n) by lia.
    rewrite IH; [| lia | lia | | ].
    + destruct (drop (Z.to_nat i) text) as [| c rest] eqn:Hrest.
      { apply (f_equal List.length) in Hrest. rewrite length_drop in Hrest.
        simpl in Hrest. lia. }
      rewrite <- Hrest.
      replace (Z.to_nat (i + n)) with (Z.to_nat i + Z.to_nat n)%nat by lia.
      rewrite <- drop_drop, <- app_assoc. reflexivity.
    + intros _. rewrite Hq in Hfit. nia.
    + rewrite length_drop in *. lia.
  - rewrite drop_ge by lia. rewrite app_nil_r. reflexivity.
Qed.

Lemma splitIntoChunks_fits fuel (text : gostring) (chunkSize : Z) :
  0 < chunkSize ->
  chunkSize * ((Z.of_nat (List.length text) + chunkSize - 1) / chunkSize)
  <= MaxInt64 ->
  (List.length text < fuel)%nat ->
  splitIntoChunks fuel text chunkSize
  = Some (Ok (chunksOf (List.length text) (Z.to_nat chunkSize) text)).
Proof.
  intros Hn Hmax Hfuel. unfold splitIntoChunks.
  assert (H0 : 0 <= 0) by lia.
  assert (Hd : (List.length (drop (Z.to_nat 0) text) < fuel)%nat)
    by (change (Z.to_nat 0) with 0%nat; rewrite drop_0; exact Hfuel).
  assert (Hfit : 0 < Z.of_nat (List.length text) ->
                 0 + chunkSize
                     * ((Z.of_nat (List.length text) - 0 + chunkSize - 1)
                        / chunkSize) <= MaxInt64).
  { intros _. rewrite Z.sub_0_r. exact Hmax. }
  rewrite (splitLoop_fits fuel text chunkSize 0 [] Hn H0 Hfit Hd).
  change (Z.to_nat 0) with 0%nat. rewrite drop_0. cbn [app].
  do 2 f_equal. apply chunksOf_more; lia.
Qed.

(** X13. With a positive chunk size, and when the end of the last chunk
    rounded up to a multiple of the chunk size,
    [chunkSize * ceil(len(text) / chunkSize)], fits an [int] (as it does for
    every text that is a single chunk), every chunk [splitIntoChunks]
    returns is non-empty and at most [chunkSize] bytes long, every chunk but
    the last is exactly [chunkSize] bytes long, and there are
    [ceil(len(text) / chunkSize)] chunks. *)
Theorem splitIntoChunks_sizes (fuel : nat) (text : gostring) (chunkSize : Z) :
  0 < chunkSize ->
  chunkSize * ((Z.of_nat (List.length text) + chunkSize - 1) / chunkSize)
  <= MaxInt64 ->
  (List.length text < fuel)%nat ->
  exists chunks,
    splitIntoChunks fuel text chunkSize = Some (Ok chunks)
    /\ Forall (fun c => 0 < Z.of_nat (List.length c) <= chunkSize) chunks
    /\ (forall k c, chunks !! k = Some c ->
          (Datatypes.S k < List.length chunks)%nat ->
          Z.of_nat (List.length c) = chunkSize)
    /\ Z.of_nat (List.length chunks)
       = (Z.of_nat (List.length text) + chunkSize - 1) / chunkSize.
Proof.
  intros Hn Hmax Hfuel. eexists. split; [by apply splitIntoChunks_fits |].
  destruct (chunksOf_sizes (List.length text) (Z.to_nat chunkSize) text
              ltac:(lia) ltac:(lia)) as (Hall & Hfull & Hcount).
  split; [| split].
  - eapply Forall_impl; [exact Hall |]. cbn. intros c Hc. lia.
  - intros k c Hk Hlast. rewrite (Hfull k c Hk Hlast). lia.
  - rewrite Hcount, Z2Nat.id by lia. reflexivity.
Qed.

Lemma splitIntoChunks_sizes_witness :
  0 < MaxInt64
  /\ MaxInt64 * ((Z.of_nat (List.length (str "abc")) + MaxInt64 - 1) / MaxInt64)
     <= MaxInt64
  /\ (List.length (str "abc") < 4)%nat
  /\ exists chunks,
       splitIntoChunks 4 (str "abc") MaxInt64 = Some (Ok chunks)
       /\ Forall (fun c => 0 < Z.of_nat (List.length c) <= MaxInt64) chunks
       /\ (forall k c, chunks !! k = Some c ->
             (Datatypes.S k < List.length chunks)%nat ->
             Z.of_nat (List.length c) = MaxInt64)
       /\ Z.of_nat (List.length chunks)
          = (Z.of_nat (List.length (str "abc")) + MaxInt64 - 1) / MaxInt64.
Proof.
  assert (H1 : 0 < MaxInt64) by (vm_compute; reflexivity).
  assert (H2 : MaxInt64
               * ((Z.of_nat (List.length (str "abc")) + MaxInt64 - 1) / MaxInt64)
               <= MaxInt64) by (vm_compute; discriminate).
  assert (H3 : (List.length (str "abc") < 4)%nat) by (cbn; lia).
  split; [exact H1 |]. split; [exact H2 |]. split; [exact H3 |].
  exact (splitIntoChunks_sizes 4 (str "abc") MaxInt64 H1 H2 H3).
Defined.

Example splitIntoChunks_single_chunk :
  splitIntoChunks 4 (str "abc") MaxInt64 = Some (Ok [str "abc"])
  /\ splitIntoChunks 9 (str "abcdefgh") 8 = Some (Ok [str "abcdefgh"])
  /\ splitIntoChunks 9 (str "abcdefgh") 7 = Some (Ok [str "abcdefg"; str "h"]).
Proof. repeat split; vm_compute; reflexivity. Qed.

Example splitIntoChunks_abcdefgh :
  splitIntoChunks 9 (str "abcdefgh") 3
  = Some (Ok [str "abc"; str "def"; str "gh"]).
Proof. vm_compute. reflexivity. Qed.

Lemma splitLoop_zero fuel : forall (text : gostring) chunks,
  text <> [] -> splitLoop fuel text 0 0 chunks = None.
Proof.
  induction fuel as [| fuel IH]; intros text chunks Hne; [reflexivity |].
  cbn [splitLoop]. change (wrap64 (0 + 0)) with 0.
  destruct text as [| c text]; [done |].
  destruct (Z.ltb_spec 0 (Z.of_nat (List.length (c :: text)))) as [Hlt | Hge];
    [| cbn [List.length] in Hge; lia].
  destruct (Z.gtb_spec 0 (Z.of_nat (List.length (c :: text)))); [lia |].
  unfold Strings.slice.
  destruct (Z.leb_spec 0 (Z.of_nat (List.length (c :: text)))); [| lia].
  cbn [Z.leb Z.compare andb Z.sub Z.to_nat take drop Z.opp Z.add].
  apply IH. done.
Qed.

(** X14. The edges of [splitIntoChunks]: an empty text gives no chunks
    (the nil slice) for every chunk size; with chunk size 0 and a
    non-empty text the loop never ends, whatever the fuel; with a negative
    chunk size and a non-empty text the first slice expression panics. *)
Theorem splitIntoChunks_edges :
  (forall fuel chunkSize,
     splitIntoChunks (Datatypes.S fuel) [] chunkSize = Some (Ok []))
  /\ (forall fuel (text : gostring),
        text <> [] -> splitIntoChunks fuel text 0 = None)
  /\ (forall fuel (text : gostring) chunkSize,
        text <> [] -> MinInt64 <= chunkSize < 0 ->
        splitIntoChunks (Datatypes.S fuel) text chunkSize = Some Panics).
Proof.
  split; [| split].
  - intros fuel chunkSize. reflexivity.
  - intros fuel text Hne. apply splitLoop_zero, Hne.
  - intros fuel [| c text] chunkSize Hne Hneg; [done |].
    unfold splitIntoChunks. cbn [splitLoop].
    destruct (Z.ltb_spec 0 (Z.of_nat (List.length (c :: text)))) as [Hlt | Hge];
      [| cbn [List.length] in Hge; lia].
    change (0 + chunkSize) with chunkSize.
    rewrite wrap64_id by (unfold in_int64, MinInt64, MaxInt64 in *; lia).
    destruct (Z.gtb_spec chunkSize (Z.of_nat (List.length (c :: text))));
      [lia |].
    unfold Strings.slice.
    destruct (Z.leb_spec 0 chunkSize); [lia |].
    cbn [Z.leb Z.compare andb]. reflexivity.
Qed.

(** ** The CSV export, further *)

Lemma unquoted_no_special field :
  Csv.fieldNeedsQuotes comma field = false ->
  existsb (Csv.special comma) field = false.
Proof.
  unfold Csv.fieldNeedsQuotes. destruct field as [| c field]; [reflexivity |].
  case_bool_decide; [discriminate |].
  destruct (existsb (Csv.special comma) (c :: field)); [discriminate | reflexivity].
Qed.

Lemma unquoted_unique (f1 : gostring) : forall (f2 : gostring) t1 t2 r1 r2,
  existsb (Csv.special comma) f1 = false ->
  existsb (Csv.special comma) f2 = false ->
  Csv.special comma t1 = true -> Csv.special comma t2 = true ->
  f1 ++ t1 :: r1 = f2 ++ t2 :: r2 ->
  f1 = f2 /\ t1 = t2 /\ r1 = r2.
Proof.
  induction f1 as [| c1 f1 IH]; intros [| c2 f2] t1 t2 r1 r2 H1 H2 Ht1 Ht2 Heq;
    cbn in *.
  - injection Heq as -> ->. auto.
  - injection Heq as -> _. apply orb_false_elim in H2 as [H2 _]. congruence.
  - injection Heq as -> _. apply orb_false_elim in H1 as [H1 _]. congruence.
  - injection Heq as -> Heq.
    apply orb_false_elim in H1 as [_ H1]. apply orb_false_elim in H2 as [_ H2].
    destruct (IH f2 t1 t2 r1 r2 H1 H2 Ht1 Ht2 Heq) as (-> & -> & ->). auto.
Qed.

Lemma escape_unique (f1 : gostring) : forall (f2 : gostring) t1 t2 r1 r2,
  t1 <> dquote -> t2 <> dquote ->
  csv_escape f1 ++ dquote :: t1 :: r1 = csv_escape f2 ++ dquote :: t2 :: r2 ->
  f1 = f2 /\ t1 = t2 /\ r1 = r2.
Proof.
  assert (Hcons : forall c f, csv_escape (c :: f)
            = (if Ascii.eqb c dquote then [dquote; dquote] else [c])
              ++ csv_escape f) by reflexivity.
  induction f1 as [| c1 f1 IH]; intros [| c2 f2] t1 t2 r1 r2 Ht1 Ht2 Heq.
  - cbn in Heq. injection Heq as -> ->. auto.
  - rewrite Hcons in Heq. cbn [csv_escape map concat app] in Heq.
    destruct (Ascii.eqb_spec c2 dquote) as [-> | Hne]; cbn [app] in Heq.
    + injection Heq as Ht _. congruence.
    + injection Heq as Hc _. congruence.
  - rewrite Hcons in Heq. cbn [csv_escape map concat app] in Heq.
    destruct (Ascii.eqb_spec c1 dquote) as [-> | Hne]; cbn [app] in Heq.
    + injection Heq as Ht _. congruence.
    + injection Heq as Hc _. congruence.
  - rewrite !Hcons in Heq.
    destruct (Ascii.eqb_spec c1 dquote) as [-> | Hne1],
             (Ascii.eqb_spec c2 dquote) as [-> | Hne2]; cbn [app] in Heq.
    + injection Heq as Heq.
      destruct (IH f2 t1 t2 r1 r2 Ht1 Ht2 Heq) as (-> & -> & ->). auto.
    + injection Heq as Hc _. congruence.
    + injection Heq as Hc _. congruence.
    + injection Heq as -> Heq.
      destruct (IH f2 t1 t2 r1 r2 Ht1 Ht2 Heq) as (-> & -> & ->). auto.
Qed.

Lemma separator_special c : separator c -> Csv.special comma c = true.
Proof. intros [-> | ->]; reflexivity. Qed.

Lemma separator_not_quote c : separator c -> c <> dquote.
Proof. intros [-> | ->]; discriminate. Qed.

(** A field is read back from its rendering: the text up to the separator
    that follows it determines the field. *)
Lemma field_unique (f1 f2 : gostring) t1 t2 r1 r2 :
  separator t1 -> separator t2 ->
  csv_field f1 ++ t1 :: r1 = csv_field f2 ++ t2 :: r2 ->
  f1 = f2 /\ t1 = t2 /\ r1 = r2.
Proof.
  intros Ht1 Ht2. unfold csv_field.
  destruct (Csv.fieldNeedsQuotes comma f1) eqn:Hq1,
           (Csv.fieldNeedsQuotes comma f2) eqn:Hq2; intros Heq.
  - cbn [app] in Heq. rewrite <- !app_assoc in Heq. cbn [app] in Heq.
    injection Heq as Heq.
    apply (escape_unique f1 f2 t1 t2 r1 r2); auto using separator_not_quote.
  - exfalso. apply unquoted_no_special in Hq2.
    cbn [app] in Heq. destruct f2 as [| c f2]; cbn [app] in Heq.
    + injection Heq as Hc _. apply (separator_not_quote _ Ht2). congruence.
    + injection Heq as Hc _. subst c. cbn in Hq2. discriminate Hq2.
  - exfalso. apply unquoted_no_special in Hq1.
    cbn [app] in Heq. destruct f1 as [| c f1]; cbn [app] in Heq.
    + injection Heq as Hc _. apply (separator_not_quote _ Ht1). congruence.
    + injection Heq as Hc _. subst c. cbn in Hq1. discriminate Hq1.
  - apply unquoted_unique;
      auto using unquoted_no_special, separator_special.
Qed.

Lemma line_tail_head fields rest :
  exists t r, separator t /\ line_tail fields ++ rest = t :: r.
Proof.
  destruct fields as [| f fields]; cbn.
  - exists nl, rest. split; [by right | reflexivity].
  - eexists comma, _. split; [by left | reflexivity].
Qed.

Lemma line_tail_cons f fields rest :
  line_tail (f :: fields) ++ rest
  = comma :: csv_field f ++ (line_tail fields ++ rest).
Proof.
  unfold line_tail. cbn [map concat]. rewrite <- !app_assoc. reflexivity.
Qed.

Lemma line_tail_unique fields1 : forall fields2 r1 r2,
  line_tail fields1 ++ r1 = line_tail fields2 ++ r2 ->
  fields1 = fields2 /\ r1 = r2.
Proof.
  induction fields1 as [| f1 fields1 IH]; intros [| f2 fields2] r1 r2 Heq.
  - cbn in Heq. injection Heq as ->. auto.
  - cbn in Heq. discriminate Heq.
  - cbn in Heq. discriminate Heq.
  - rewrite !line_tail_cons in Heq. injection Heq as Heq.
    destruct (line_tail_head fields1 r1) as (t1 & q1 & Ht1 & Hq1).
    destruct (line_tail_head fields2 r2) as (t2 & q2 & Ht2 & Hq2).
    rewrite Hq1, Hq2 in Heq.
    destruct (field_unique _ _ _ _ _ _ Ht1 Ht2 Heq) as (-> & -> & ->).
    rewrite <- Hq2 in Hq1.
    destruct (IH fields2 r1 r2 Hq1) as (-> & ->). auto.
Qed.

Lemma csv_line_tail f fields rest :
  csv_line (f :: fields) ++ rest = csv_field f ++ (line_tail fields ++ rest).
Proof. unfold csv_line, line_tail. rewrite <- !app_assoc. reflexivity. Qed.

Lemma csv_line_unique f1 fields1 f2 fields2 r1 r2 :
  csv_line (f1 :: fields1) ++ r1 = csv_line (f2 :: fields2) ++ r2 ->
  f1 :: fields1 = f2 :: fields2 /\ r1 = r2.
Proof.
  rewrite !csv_line_tail. intros Heq.
  destruct (line_tail_head fields1 r1) as (t1 & q1 & Ht1 & Hq1).
  destruct (line_tail_head fields2 r2) as (t2 & q2 & Ht2 & Hq2).
  rewrite Hq1, Hq2 in Heq.
  destruct (field_unique _ _ _ _ _ _ Ht1 Ht2 Heq) as (-> & -> & ->).
  rewrite <- Hq2 in Hq1.
  destruct (line_tail_unique _ _ _ _ Hq1) as (-> & ->). auto.
Qed.

Lemma rows_unique logs1 : forall logs2,
  concat (map (fun log => csv_line (csvRow log)) logs1)
  = concat (map (fun log => csv_line (csvRow log)) logs2) ->
  map csvRow logs1 = map csvRow logs2.
Proof.
  assert (Hne : forall log rest, csv_line (csvRow log) ++ rest <> []).
  { intros log rest Hnil. apply app_eq_nil in Hnil as [Hnil _].
    unfold csv_line in Hnil. apply app_eq_nil in Hnil as [_ Hnil].
    discriminate Hnil. }
  induction logs1 as [| e1 logs1 IH]; intros [| e2 logs2] Heq;
    cbn [map concat] in Heq.
  - reflexivity.
  - symmetry in Heq. by apply Hne in Heq.
  - by apply Hne in Heq.
  - cbn [map].
    pose proof (csv_line_unique (Timestamp e1) _ (Timestamp e2) _ _ _ Heq)
      as [Hrow Hrest].
    f_equal; [exact Hrow | by apply IH].
Qed.

Lemma FormatInt_inj a b : Strconv.FormatInt a = Strconv.FormatInt b -> a = b.
Proof.
  intros Heq. pose proof (FormatInt_parse a) as Ha.
  rewrite Heq, FormatInt_parse in Ha. by injection Ha.
Qed.

(** X15. The export keeps the seven columns apart: two batches give the
    same CSV bytes exactly when they have the same number of entries and
    agree, entry by entry, on timestamp, level, message, path, method,
    duration and status. No quoting or separator is ambiguous. *)
Theorem ConvertToCSV_injective (logs1 logs2 : list LogEntry) :
  ConvertToCSV logs1 = ConvertToCSV logs2
  <-> Forall2 (fun e1 e2 =>
                 Timestamp e1 = Timestamp e2 /\ Level e1 = Level e2
                 /\ Message e1 = Message e2 /\ Path e1 = Path e2
                 /\ Method e1 = Method e2 /\ Duration e1 = Duration e2
                 /\ Status e1 = Status e2) logs1 logs2.
Proof.
  rewrite !ConvertToCSV_eq. split.
  - intros Heq. assert (Heq' := f_equal fst Heq). cbn [fst] in Heq'.
    clear Heq. injection Heq' as Heq.
    apply rows_unique in Heq. revert logs2 Heq.
    induction logs1 as [| e1 logs1 IH]; intros [| e2 logs2] Heq;
      try discriminate Heq; [constructor |].
    cbn [map] in Heq. injection Heq as Hts Hlv Hmsg Hp Hm Hd Hs Hrest.
    constructor; [| by apply IH].
    repeat split; try assumption; by apply FormatInt_inj.
  - intros Hall.
    assert (Hrows : map csvRow logs1 = map csvRow logs2).
    { induction Hall
        as [| e1 e2 l1 l2 (Hts & Hlv & Hmsg & Hp & Hm & Hd & Hs) _ IH];
        [reflexivity |].
      cbn [map]. f_equal; [| exact IH]. unfold csvRow, Strconv.Itoa.
      congruence. }
    assert (Hc : forall logs,
              map (fun log => csv_line (csvRow log)) logs
              = map csv_line (map csvRow logs))
      by (intros; rewrite map_map; reflexivity).
    rewrite !Hc, Hrows. reflexivity.
Qed.

(** X16. Exporting two batches one after the other: the export of
    [logs1 ++ logs2] is the export of [logs1] followed by the rows of
    [logs2], that is, by the export of [logs2] without its header line. *)
Theorem ConvertToCSV_app (logs1 logs2 : list LogEntry) :
  exists out1 rows2,
    ConvertToCSV logs1 = (Some out1, None)
    /\ ConvertToCSV logs2
       = (Some (str "timestamp,level,message,path,method,duration,status"
                ++ [nl] ++ rows2), None)
    /\ ConvertToCSV (logs1 ++ logs2) = (Some (out1 ++ rows2), None).
Proof.
  assert (Hhead : csv_line csvHeader
                  = str "timestamp,level,message,path,method,duration,status"
                    ++ [nl]) by (vm_compute; reflexivity).
  rewrite !ConvertToCSV_eq. eexists _, _.
  split; [reflexivity |]. split.
  - rewrite Hhead, <- app_assoc. reflexivity.
  - rewrite map_app, concat_app, app_assoc. reflexivity.
Qed.

(** ** main.go: keyword filtering *)

Lemma HasPrefix_iff (p : gostring) : forall s : gostring,
  Strings.HasPrefix s p = true <-> exists rest, s = p ++ rest.
Proof.
  induction p as [| c p IH]; intros s.
  - split; [intros _; by exists s | intros _; by destruct s].
  - destruct s as [| d s]; cbn [Strings.HasPrefix].
    + split; [discriminate | intros [rest Hrest]; discriminate Hrest].
    + rewrite andb_true_iff, IH. split.
      * intros [Hd [rest ->]]. apply Ascii.eqb_eq in Hd as ->. by exists rest.
      * intros [rest [= -> ->]]. split; [apply Ascii.eqb_refl | by exists rest].
Qed.

(** [strings.Contains] holds exactly of the strings with an occurrence. *)
Lemma Contains_iff (s substr : gostring) :
  Main.Contains s substr = true
  <-> exists pre post, s = pre ++ substr ++ post.
Proof.
  unfold Main.Contains. rewrite Z.geb_le.
  induction s as [| c s IH].
  - cbn [Strings.Index]. destruct (Strings.HasPrefix [] substr) eqn:Hp.
    + split; [intros _ | lia].
      apply HasPrefix_iff in Hp as [rest Hrest]. by exists [], rest.
    + split; [lia |]. intros (pre & post & Heq).
      destruct pre; [| discriminate Heq].
      assert (Strings.HasPrefix [] substr = true)
        by (apply HasPrefix_iff; by exists post).
      congruence.
  - cbn [Strings.Index]. destruct (Strings.HasPrefix (c :: s) substr) eqn:Hp.
    + split; [intros _ | lia].
      apply HasPrefix_iff in Hp as [rest Hrest]. by exists [], rest.
    + destruct (Z.ltb_spec (Strings.Index s substr) 0) as [Hlt | Hge].
      * split; [lia |]. intros (pre & post & Heq).
        destruct pre as [| d pre].
        -- assert (Strings.HasPrefix (c :: s) substr = true)
             by (apply HasPrefix_iff; by exists post).
           congruence.
        -- injection Heq as -> ->.
           assert (0 <= Strings.Index (pre ++ substr ++ post) substr)
             by (apply IH; by exists pre, post).
           lia.
      * split; [intros _ | lia].
        destruct (proj1 IH Hge) as (pre & post & ->).
        by exists (c :: pre), post.
Qed.

Lemma containsAny_iff U (s : gostring) keywords :
  Main.containsAny U s keywords = true
  <-> exists keyword, keyword ∈ keywords
        /\ exists pre post,
             Main.ToLower U s = pre ++ Main.ToLower U keyword ++ post.
Proof.
  induction keywords as [| k keywords IH]; cbn [Main.containsAny].
  - split; [discriminate | intros (k & Hk & _); by apply elem_of_nil in Hk].
  - destruct (Main.Contains (Main.ToLower U s) (Main.ToLower U k)) eqn:Hc.
    + split; [intros _ | done].
      exists k. split; [left | by apply Contains_iff].
    + rewrite IH. split.
      * intros (k' & Hk' & Hocc). exists k'. split; [by right | done].
      * intros (k' & [-> | Hk']%elem_of_cons & Hocc).
        -- apply Contains_iff in Hocc. congruence.
        -- by exists k'.
Qed.

(** X17. [containsAny] is true exactly when the lower-cased text contains
    the lower-casing of one of the keywords as a substring; it is false
    for an empty keyword list. For a text of ASCII bytes and the five
    performance keywords this is decided by the ASCII letters alone:
    upper-case letters of the text count as lower-case ones. *)
Theorem containsAny_spec (mapUnicodeToLower : gostring -> gostring)
    (s : gostring) :
  (forall keywords,
     Main.containsAny mapUnicodeToLower s keywords = true
     <-> exists keyword, keyword ∈ keywords
           /\ exists pre post,
                Main.ToLower mapUnicodeToLower s
                = pre ++ Main.ToLower mapUnicodeToLower keyword ++ post)
  /\ Main.containsAny mapUnicodeToLower s [] = false
  /\ (Main.isASCII s = true ->
      (Main.containsAny mapUnicodeToLower s Main.performanceKeywords = true
       <-> exists keyword,
             keyword ∈ [str "slow"; str "performance"; str "latency";
                        str "duration"; str "response time"]
             /\ exists pre post,
                  map Main.lowerByte s = pre ++ keyword ++ post)).
Proof.
  split; [intros keywords; apply containsAny_iff |].
  split; [reflexivity |].
  intros Hascii. rewrite containsAny_iff.
  assert (Hs : Main.ToLower mapUnicodeToLower s = map Main.lowerByte s)
    by (unfold Main.ToLower; by rewrite Hascii).
  assert (Hk : forall k, k ∈ Main.performanceKeywords ->
                         Main.ToLower mapUnicodeToLower k = k).
  { intros k Hk. unfold Main.performanceKeywords in Hk.
    repeat (apply elem_of_cons in Hk as [-> | Hk]; [vm_compute; reflexivity |]).
    by apply elem_of_nil in Hk. }
  rewrite Hs. split.
  - intros (k & Hin & pre & post & Heq). exists k. split; [exact Hin |].
    exists pre, post. by rewrite <- (Hk k Hin).
  - intros (k & Hin & pre & post & Heq). exists k. split; [exact Hin |].
    exists pre, post. by rewrite (Hk k Hin).
Qed.

Lemma containsAny_spec_witness :
  Main.isASCII (str "High LATENCY on /api") = true
  /\ Main.containsAny (fun s => s) (str "High LATENCY on /api")
       Main.performanceKeywords = true.
Proof.
  assert (Hascii : Main.isASCII (str "High LATENCY on /api") = true)
    by (vm_compute; reflexivity).
  split; [exact Hascii |].
  apply (proj2 (proj2 (containsAny_spec (fun s => s)
                         (str "High LATENCY on /api"))) Hascii).
  exists (str "latency"). split.
  - do 2 apply list_elem_of_further. apply list_elem_of_here.
  - exists (str "high "), (str " on /api"). vm_compute. reflexivity.
Defined.

Lemma filter_loop U insights : forall acc,
  fold_left
    (fun performanceInsights insight =>
       if Main.containsAny U insight Main.performanceKeywords
       then performanceInsights ++ [insight] else performanceInsights)
    insights acc
  = acc ++ filter (fun x => Main.containsAny U x Main.performanceKeywords = true)
             insights.
Proof.
  induction insights as [| x insights IH]; intros acc; cbn [fold_left].
  - by rewrite filter_nil, app_nil_r.
  - rewrite IH.
    destruct (Main.containsAny U x Main.performanceKeywords) eqn:Hx.
    + rewrite filter_cons_True by done. by rewrite <- app_assoc.
    + rewrite filter_cons_False by (rewrite Hx; done). reflexivity.
Qed.

Lemma filterPerformanceInsights_filter U insights :
  Main.filterPerformanceInsights U insights
  = filter (fun x => Main.containsAny U x Main.performanceKeywords = true)
      insights.
Proof. unfold Main.filterPerformanceInsights. apply filter_loop. Qed.

(** X18. [filterPerformanceInsights] keeps exactly the insights that
    [containsAny] accepts for the five performance keywords, in their
    original order and with their repetitions; filtering twice changes
    nothing more, and filtering a concatenation filters the parts. *)
Theorem filterPerformanceInsights_spec
    (mapUnicodeToLower : gostring -> gostring) (insights : list gostring) :
  (forall x,
     x ∈ Main.filterPerformanceInsights mapUnicodeToLower insights
     <-> x ∈ insights
         /\ Main.containsAny mapUnicodeToLower x Main.performanceKeywords = true)
  /\ Main.filterPerformanceInsights mapUnicodeToLower insights
     `sublist_of` insights
  /\ Main.filterPerformanceInsights mapUnicodeToLower
       (Main.filterPerformanceInsights mapUnicodeToLower insights)
     = Main.filterPerformanceInsights mapUnicodeToLower insights
  /\ (forall more,
        Main.filterPerformanceInsights mapUnicodeToLower (insights ++ more)
        = Main.filterPerformanceInsights mapUnicodeToLower insights
          ++ Main.filterPerformanceInsights mapUnicodeToLower more).
Proof.
  rewrite !filterPerformanceInsights_filter.
  split; [| split; [| split]].
  - intros x. rewrite list_elem_of_filter. tauto.
  - apply sublist_filter.
  - induction insights as [| x insights IH]; [reflexivity |].
    destruct (Main.containsAny mapUnicodeToLower x Main.performanceKeywords)
      eqn:Hx.
    + rewrite filter_cons_True by done. rewrite filter_cons_True by done.
      by rewrite IH.
    + rewrite filter_cons_False by (rewrite Hx; done). exact IH.
  - intros more. rewrite !filterPerformanceInsights_filter. apply filter_app.
Qed.

Example filterPerformanceInsights_example :
  Main.filterPerformanceInsights (fun s => s)
    [str "Peak traffic at noon"; str "Slow queries on /api/reports";
     str "Median Response Time is 80ms"]
  = [str "Slow queries on /api/reports"; str "Median Response Time is 80ms"].
Proof. vm_compute. reflexivity. Qed.

(** ** main.go: the route handlers *)

Lemma Sprintf_invalid_body err :
  Fmt.Sprintf (str "invalid request body: %v") [Fmt.E err]
  = str "invalid request body: " ++ err.
Proof. cbn. rewrite app_nil_r. reflexivity. Qed.

(** X19. The CSV route answers 400 with the binding error when the request
    body does not decode, and otherwise 200 with the content type
    [text/csv], the attachment header and the export of the decoded batch;
    it never answers 500. *)
Theorem convertToCSV_responses (BindJSON : gostring -> gostring + list LogEntry)
    (requestBody : gostring) :
  match BindJSON requestBody with
  | inl err =>
      Main.convertToCSV BindJSON requestBody
      = {| Main.code := 400; Main.header := [];
           Main.body := Main.ErrorJSON (str "invalid request body: " ++ err) |}
  | inr logs =>
      Main.convertToCSV BindJSON requestBody
      = {| Main.code := 200;
           Main.header := [(str "Content-Disposition",
                            str "attachment; filename=analytics.csv")];
           Main.body :=
             Main.Data (str "text/csv")
               (str "timestamp,level,message,path,method,duration,status"
                ++ [nl]
                ++ concat (map (fun log => csv_line (csvRow log)) logs)) |}
  end
  /\ Main.code (Main.convertToCSV BindJSON requestBody) <> 500.
Proof.
  assert (Hhead : csv_line csvHeader
                  = str "timestamp,level,message,path,method,duration,status"
                    ++ [nl]) by (vm_compute; reflexivity).
  unfold Main.convertToCSV.
  destruct (BindJSON requestBody) as [err | logs].
  - unfold Main.errorResponse. rewrite Sprintf_invalid_body.
    split; [reflexivity | discriminate].
  - rewrite ConvertToCSV_eq, Hhead, <- app_assoc.
    split; [reflexivity | discriminate].
Qed.

Lemma AnalyzeLogs_error Do Unmarshal UnmarshalAnalysis rangeLogs s logs msg :
  AnalyzeLogs Do Unmarshal UnmarshalAnalysis rangeLogs s logs = Err msg ->
  exists detail,
    msg = str "error generating analysis: " ++ detail
    \/ msg = str "error parsing analysis result: " ++ detail.
Proof.
  unfold AnalyzeLogs.
  destruct (logsPrompt _ logs) as [prompt |]; [| discriminate].
  destruct (callGeminiAPI Do Unmarshal s prompt) as [response | err |];
    [| | discriminate].
  - destruct (cleanJSONResponse response) as [cleaned |]; [| discriminate].
    destruct (UnmarshalAnalysis cleaned) as [err |]; [| discriminate].
    rewrite Sprintf_parsing. intros [= <-]. eexists. right. reflexivity.
  - rewrite Sprintf_generating. intros [= <-]. eexists. left. reflexivity.
Qed.

Lemma AnalyzePerformance_error Do Unmarshal UnmarshalPerformance rangePerf s
    logs msg :
  AnalyzePerformance Do Unmarshal UnmarshalPerformance rangePerf s logs
  = Err msg ->
  exists detail,
    msg = str "error generating analysis: " ++ detail
    \/ msg = str "error parsing analysis result: " ++ detail.
Proof.
  unfold AnalyzePerformance.
  destruct (perfPrompt _) as [prompt |]; [| discriminate].
  destruct (callGeminiAPI Do Unmarshal s prompt) as [response | err |];
    [| | discriminate].
  - destruct (cleanJSONResponse response) as [cleaned |]; [| discriminate].
    destruct (UnmarshalPerformance cleaned) as [err |]; [| discriminate].
    rewrite Sprintf_parsing. intros [= <-]. eexists. right. reflexivity.
  - rewrite Sprintf_generating. intros [= <-]. eexists. left. reflexivity.
Qed.

(** X20. What the log-analysis route answers, case by case: 400 with the
    binding error when the request body does not decode; 200 with the
    analysis when AnalyzeLogs returns one; 500 when AnalyzeLogs returns an
    error, which the route wraps a second time, so that the message starts
    with ["error generating analysis: error generating analysis: "] or with
    ["error generating analysis: error parsing analysis result: "]; and it
    panics only when AnalyzeLogs does. *)
Theorem analyzeLogs_responses
    (BindJSON : gostring -> gostring + list LogEntry)
    (Do : gostring -> gostring -> roundTrip)
    (Unmarshal : gostring -> gostring + list (gostring * json))
    (UnmarshalAnalysis : gostring -> gostring + AnalysisResult)
    (rangeLogs : gmap gostring Logs.stats -> list (gostring * Logs.stats))
    (s : AnalyticsService) (requestBody : gostring) :
  match BindJSON requestBody with
  | inl err =>
      Main.analyzeLogs BindJSON Do Unmarshal UnmarshalAnalysis rangeLogs s
        requestBody
      = Ok {| Main.code := 400; Main.header := [];
              Main.body :=
                Main.ErrorJSON (str "invalid request body: " ++ err) |}
  | inr logs =>
      match AnalyzeLogs Do Unmarshal UnmarshalAnalysis rangeLogs s logs with
      | Ok analysis =>
          Main.analyzeLogs BindJSON Do Unmarshal UnmarshalAnalysis rangeLogs s
            requestBody
          = Ok {| Main.code := 200; Main.header := [];
                  Main.body := Main.AnalysisJSON analysis |}
      | Err err =>
          Main.analyzeLogs BindJSON Do Unmarshal UnmarshalAnalysis rangeLogs s
            requestBody
          = Ok {| Main.code := 500; Main.header := [];
                  Main.body :=
                    Main.ErrorJSON (str "error generating analysis: " ++ err) |}
          /\ exists detail,
               err = str "error generating analysis: " ++ detail
               \/ err = str "error parsing analysis result: " ++ detail
      | Panics =>
          Main.analyzeLogs BindJSON Do Unmarshal UnmarshalAnalysis rangeLogs s
            requestBody
          = Panics
      end
  end.
Proof.
  unfold Main.analyzeLogs.
  destruct (BindJSON requestBody) as [err | logs].
  - unfold Main.errorResponse. by rewrite Sprintf_invalid_body.
  - destruct (AnalyzeLogs Do Unmarshal UnmarshalAnalysis rangeLogs s logs)
      as [analysis | msg |] eqn:Hrun; [reflexivity | | reflexivity].
    split.
    + unfold Main.errorResponse. by rewrite Sprintf_generating.
    + exact (AnalyzeLogs_error _ _ _ _ _ _ _ Hrun).
Qed.

(** X21. The performance route, case by case: 400 with the binding error
    when the request body does not decode; 200 with the analysis when
    AnalyzePerformance returns one; 500 when it returns an error, wrapped a
    second time by the route; and a panic only when AnalyzePerformance
    panics. *)
Theorem analyzePerformance_responses
    (BindJSON : gostring -> gostring + list LogEntry)
    (Do : gostring -> gostring -> roundTrip)
    (Unmarshal : gostring -> gostring + list (gostring * json))
    (UnmarshalPerformance : gostring -> gostring + PerformanceAnalysis)
    (rangePerf : gmap gostring Perf.stats -> list (gostring * Perf.stats))
    (s : AnalyticsService) (requestBody : gostring) :
  match BindJSON requestBody with
  | inl err =>
      Main.analyzePerformance BindJSON Do Unmarshal UnmarshalPerformance
        rangePerf s requestBody
      = Ok {| Main.code := 400; Main.header := [];
              Main.body :=
                Main.ErrorJSON (str "invalid request body: " ++ err) |}
  | inr logs =>
      match AnalyzePerformance Do Unmarshal UnmarshalPerformance rangePerf s
              logs with
      | Ok analysis =>
          Main.analyzePerformance BindJSON Do Unmarshal UnmarshalPerformance
            rangePerf s requestBody
          = Ok {| Main.code := 200; Main.header := [];
                  Main.body := Main.PerformanceJSON analysis |}
      | Err err =>
          Main.analyzePerformance BindJSON Do Unmarshal UnmarshalPerformance
            rangePerf s requestBody
          = Ok {| Main.code := 500; Main.header := [];
                  Main.body :=
                    Main.ErrorJSON (str "error generating analysis: " ++ err) |}
          /\ exists detail,
               err = str "error generating analysis: " ++ detail
               \/ err = str "error parsing analysis result: " ++ detail
      | Panics =>
          Main.analyzePerformance BindJSON Do Unmarshal UnmarshalPerformance
            rangePerf s requestBody
          = Panics
      end
  end.
Proof.
  unfold Main.analyzePerformance.
  destruct (BindJSON requestBody) as [err | logs].
  - unfold Main.errorResponse. by rewrite Sprintf_invalid_body.
  - destruct (AnalyzePerformance Do Unmarshal UnmarshalPerformance rangePerf s
                logs) as [analysis | msg |] eqn:Hrun;
      [reflexivity | | reflexivity].
    split.
    + unfold Main.errorResponse. by rewrite Sprintf_generating.
    + exact (AnalyzePerformance_error _ _ _ _ _ _ _ Hrun).
Qed.

(** A rate-limited endpoint, end to end: the route answers 500 and the
    message carries both prefixes, the status and the body. *)
Example analyzePerformance_rate_limited :
  Main.analyzePerformance (fun _ => inr sampleLogs)
    (fun _ _ => Response 429 (inr (str "quota"))) (fun _ => inl [])
    (fun _ => inl []) map_to_list (NewAnalyticsService []) []
  = Ok {| Main.code := 500; Main.header := [];
          Main.body :=
            Main.ErrorJSON
              (str "error generating analysis: error generating analysis: API error (status 429): quota") |}.
Proof. vm_compute. reflexivity. Qed.

(** A reply that decodes, end to end: the route answers 200 with the
    decoded analysis. *)
Example analyzeLogs_answers_200 :
  Main.analyzeLogs (fun _ => inr sampleLogs)
    (fun _ _ => Response 200 (inr (str "reply")))
    (fun _ =>
       inr [(str "candidates",
             JArray [JObject [(str "content",
               JObject [(str "parts",
                 JArray [JObject [(str "text", JString (str "`{}`"))]])])]])])
    (fun cleaned =>
       if bool_decide (cleaned = str "{}")
       then inr {| PopularPages := []; SlowPages := [];
                   PotentialIssues := []; Insights := [] |}
       else inl (str "unexpected end of JSON input"))
    map_to_list (NewAnalyticsService []) []
  = Ok {| Main.code := 200; Main.header := [];
          Main.body :=
            Main.AnalysisJSON {| PopularPages := []; SlowPages := [];
                                 PotentialIssues := []; Insights := [] |} |}.
Proof. vm_compute. reflexivity. Qed.
